(** * Mozart 2 Boost environment (vm/boostenv/main/boostenv.cc)

    A shallow embedding of [BoostVM] and [BoostEnvironment]: the default
    boot loader's percent-decoder, the VM stream (port) operations, the
    termination protocol, the body of the scheduling loop, the preemption
    timer handler and the registry of VMs. *)

From Stdlib Require Import ZArith Lia List Ascii String Bool Sorted.
From stdpp Require Import base option list.
Import ListNotations.

Local Open Scope Z_scope.

(** ** Part I: the boot loader's URL decoder *)

Module URL.

(** A [std::string] is a sequence of bytes. *)
Abbreviation std_string := (list ascii).

(** The numeric value of an ASCII character literal ('0', 'A', ...): the
    same on every platform. *)
Definition lit (c : ascii) : Z := Z.of_N (N_of_ascii c).

Section Chars.

(** Whether plain [char] is a signed type is left to the platform; the model
    takes it as a parameter. *)
Variable char_is_signed : bool.

(** Integral promotion of a [char] to [int]. *)
Definition char_to_int (c : ascii) : Z :=
  let n := Z.of_N (N_of_ascii c) in
  if char_is_signed && (128 <=? n) then n - 256 else n.

(** Conversion of an [int] to [char]: the low eight bits. *)
Definition int_to_char (z : Z) : ascii := ascii_of_N (Z.to_N (z mod 256)).

(** [hexDigitToValue], lines 263-272. *)
Definition hexDigitToValue (digit : ascii) : ascii :=
  let d := char_to_int digit in
  if d <=? lit "9" then int_to_char (d - lit "0")
  else if d <=? lit "Z" then int_to_char (d - (lit "A" - 10))
  else int_to_char (d - (lit "a" - 10)).

(** The byte pushed for an escape: [(v1 << 4) | v2], converted to [char]. *)
Definition escape_byte (d1 d2 : ascii) : ascii :=
  let v1 := hexDigitToValue d1 in
  let v2 := hexDigitToValue d2 in
  int_to_char (Z.lor (Z.shiftl (char_to_int v1) 4) (char_to_int v2)).

(** [std::string::find(char)]: the first position of [c], [None] for [npos]. *)
Fixpoint find (c : ascii) (s : std_string) : option nat :=
  match s with
  | [] => None
  | d :: t => if Ascii.eqb d c then Some O else S <$> find c t
  end.

(** The [for] loop of [decodeURL], lines 285-294, from index [i] with the
    output built so far.  A read of [encoded] goes through the bounds-checked
    lookup, so [None] stands for a read past the end (or for a loop that has
    not finished within [fuel] iterations). *)
Fixpoint decode_loop (fuel : nat) (encoded : std_string) (i : nat)
    (decoded : std_string) : option std_string :=
  if (i <? length encoded)%nat then
    match fuel with
    | O => None
    | S fuel' =>
        c ← encoded !! i;
        if Ascii.eqb c "%" && (i + 2 <? length encoded)%nat then
          d1 ← encoded !! (i + 1)%nat;
          d2 ← encoded !! (i + 1 + 1)%nat;
          decode_loop fuel' encoded (i + 1 + 1 + 1)%nat
                      (decoded ++ [escape_byte d1 d2])
        else
          decode_loop fuel' encoded (i + 1)%nat (decoded ++ [c])
    end
  else Some decoded.

(** [decodeURL], lines 274-297.  The loop runs at most once per input
    character. *)
Definition decodeURL (encoded : std_string) : option std_string :=
  match find "%" encoded with
  | None => Some encoded
  | Some _ => decode_loop (length encoded) encoded 0 []
  end.

(** The loop read off the remaining suffix of the input: what is pushed when
    the loop stands at the first character of [s]. *)
Fixpoint scan (s : std_string) : std_string :=
  match s with
  | [] => []
  | c :: t =>
      match t with
      | d1 :: d2 :: r =>
          if Ascii.eqb c "%" then escape_byte d1 d2 :: scan r
          else c :: scan t
      | _ => c :: scan t
      end
  end.

(** [reached s i]: the loop over [s] stands at index [i] at the head of some
    iteration (or at its exit), i.e. [i] is not one of the two characters
    consumed after an earlier decoded '%'. *)
Fixpoint reached (s : std_string) (i : nat) : bool :=
  match i with
  | O => true
  | S i' =>
      match s with
      | [] => false
      | c :: t =>
          match t with
          | _ :: _ :: r =>
              if Ascii.eqb c "%" then
                match i' with
                | S (S i'') => reached r i''
                | _ => false
                end
              else reached t i'
          | _ => reached t i'
          end
      end
  end.

(** The value of a hexadecimal digit, for the digits only. *)
Definition hex_value (c : ascii) : option Z :=
  let n := lit c in
  if (lit "0" <=? n) && (n <=? lit "9") then Some (n - lit "0")
  else if (lit "A" <=? n) && (n <=? lit "F") then Some (n - lit "A" + 10)
  else if (lit "a" <=? n) && (n <=? lit "f") then Some (n - lit "a" + 10)
  else None.

End Chars.

Definition str (s : string) : std_string := list_ascii_of_string s.

End URL.

(** ** Part II: the VM and the environment *)

Module Boost.

(** A stable reference to a node of the VM's store. *)
Abbreviation StableRef := nat.

(** A [VM] handle.  Handles are pointers to elements of the environment's
    [forward_list], which never move: the model names an element by its
    creation rank (0 for the first VM created). *)
Abbreviation VMHandle := nat.

(** [std::vector<unsigned char>]. *)
Abbreviation Buffer := (list Byte.byte).

(** The Oz values this file builds or passes around; [Tuple] is a tuple of
    width one, as built by [buildTuple(vm, label, x)]. *)
Inductive Value : Type :=
| SmallInt (n : Z)
| Atom (name : string)
| Tuple (label : string) (field : Value).

(** A node of the stream: an unbound read-only variable (the open tail), a
    list cell, or nil. *)
Inductive Node : Type :=
| ReadOnlyVariable
| Cons (head : Value) (tail : StableRef)
| Nil.

(** The result of a call that may [raiseError]. *)
Inductive res (A : Type) : Type :=
| Ok (a : A)
| Raised (msg : string) (args : list Value).
Arguments Ok {A} a.
Arguments Raised {A} msg args.

(** [VirtualMachine::run_return_type]. *)
Inductive Directive : Type :=
| recNeverInvokeAgain
| recInvokeAgainNow
| recInvokeAgainLater.

Definition Directive_eqb (a b : Directive) : bool :=
  match a, b with
  | recNeverInvokeAgain, recNeverInvokeAgain => true
  | recInvokeAgainNow, recInvokeAgainNow => true
  | recInvokeAgainLater, recInvokeAgainLater => true
  | _, _ => false
  end.

(** [boost::system::error_code], as far as the timer handler tells. *)
Inductive error_code : Type :=
| success
| operation_aborted
| other_error (n : Z).

Definition is_operation_aborted (e : error_code) : bool :=
  match e with operation_aborted => true | _ => false end.

(** [boost::asio::deadline_timer]: an expiry time (in milliseconds) and
    whether a wait handler is pending.  Setting the expiry cancels a pending
    wait, as does [cancel]. *)
Record deadline_timer := mkTimer { expires_at : Z; pending : bool }.

Definition expires_from_now (clock d : Z) (_ : deadline_timer) : deadline_timer :=
  mkTimer (clock + d) false.
Definition set_expires_at (t : Z) (_ : deadline_timer) : deadline_timer :=
  mkTimer t false.
Definition async_wait (tm : deadline_timer) : deadline_timer :=
  mkTimer (expires_at tm) true.
Definition cancel (tm : deadline_timer) : deadline_timer :=
  mkTimer (expires_at tm) false.

(** The closures posted with [postVMEvent] in this file, each with the
    handle it captures. *)
Inductive VMEvent : Type :=
| EvTerminate (this : VMHandle)
    (* requestTermination: [this] { this->terminate(); } *)
| EvReceiveBuffer (to : VMHandle) (buffer : Buffer)
    (* sendToVMPort: forVM(to).receiveOnVMPort(buffer) *)
| EvTellTerminated (vm : VMHandle) (deadVM : Z).
    (* tellMonitors: forVM(vm).receiveOnVMPort(buildTuple(vm, "terminated", deadVM)) *)

(** The side effects of the guarded block of [terminate], journalled by the
    model in the order they are performed. *)
Inductive Effect : Type :=
| DidCloseStream
| DidTellMonitors
| DidDeleteWork.

Definition Effect_eqb (a b : Effect) : bool :=
  match a, b with
  | DidCloseStream, DidCloseStream => true
  | DidTellMonitors, DidTellMonitors => true
  | DidDeleteWork, DidDeleteWork => true
  | _, _ => false
  end.

Record BoostVM := mkBoostVM {
  identifier : Z;
  referenceTime : Z;              (* vm->setReferenceTime *)
  preemptRequested : bool;        (* vm->requestPreempt *)
  store : list Node;
  _asyncIONodeCount : Z;
  preemptionTimer : deadline_timer;
  alarmTimer : deadline_timer;
  _terminated : bool;
  _work : bool;                   (* the io_service::work is still held *)
  _headOfStream : option StableRef;
  _stream : option StableRef;
  _vmEventsCallbacks : list VMEvent;   (* front of the queue first *)
  _monitors : list VMHandle;
  journal : list Effect           (* model only *)
}.

Record BoostEnvironment := mkEnv {
  vms : list BoostVM;             (* front of the forward_list first *)
  _nextVMIdentifier : Z;
  _aliveVMs : Z
}.

(** Field updates. *)
Definition set_time (t : Z) (b : BoostVM) : BoostVM :=
  mkBoostVM (identifier b) t (preemptRequested b) (store b)
    (_asyncIONodeCount b) (preemptionTimer b) (alarmTimer b) (_terminated b)
    (_work b) (_headOfStream b) (_stream b) (_vmEventsCallbacks b)
    (_monitors b) (journal b).
Definition set_preempt (p : bool) (b : BoostVM) : BoostVM :=
  mkBoostVM (identifier b) (referenceTime b) p (store b)
    (_asyncIONodeCount b) (preemptionTimer b) (alarmTimer b) (_terminated b)
    (_work b) (_headOfStream b) (_stream b) (_vmEventsCallbacks b)
    (_monitors b) (journal b).
Definition set_store (s : list Node) (b : BoostVM) : BoostVM :=
  mkBoostVM (identifier b) (referenceTime b) (preemptRequested b) s
    (_asyncIONodeCount b) (preemptionTimer b) (alarmTimer b) (_terminated b)
    (_work b) (_headOfStream b) (_stream b) (_vmEventsCallbacks b)
    (_monitors b) (journal b).
Definition set_count (n : Z) (b : BoostVM) : BoostVM :=
  mkBoostVM (identifier b) (referenceTime b) (preemptRequested b) (store b)
    n (preemptionTimer b) (alarmTimer b) (_terminated b)
    (_work b) (_headOfStream b) (_stream b) (_vmEventsCallbacks b)
    (_monitors b) (journal b).
Definition set_preemptionTimer (t : deadline_timer) (b : BoostVM) : BoostVM :=
  mkBoostVM (identifier b) (referenceTime b) (preemptRequested b) (store b)
    (_asyncIONodeCount b) t (alarmTimer b) (_terminated b)
    (_work b) (_headOfStream b) (_stream b) (_vmEventsCallbacks b)
    (_monitors b) (journal b).
Definition set_alarmTimer (t : deadline_timer) (b : BoostVM) : BoostVM :=
  mkBoostVM (identifier b) (referenceTime b) (preemptRequested b) (store b)
    (_asyncIONodeCount b) (preemptionTimer b) t (_terminated b)
    (_work b) (_headOfStream b) (_stream b) (_vmEventsCallbacks b)
    (_monitors b) (journal b).
Definition set_terminated (t : bool) (b : BoostVM) : BoostVM :=
  mkBoostVM (identifier b) (referenceTime b) (preemptRequested b) (store b)
    (_asyncIONodeCount b) (preemptionTimer b) (alarmTimer b) t
    (_work b) (_headOfStream b) (_stream b) (_vmEventsCallbacks b)
    (_monitors b) (journal b).
Definition set_work (w : bool) (b : BoostVM) : BoostVM :=
  mkBoostVM (identifier b) (referenceTime b) (preemptRequested b) (store b)
    (_asyncIONodeCount b) (preemptionTimer b) (alarmTimer b) (_terminated b)
    w (_headOfStream b) (_stream b) (_vmEventsCallbacks b)
    (_monitors b) (journal b).
Definition set_headOfStream (h : option StableRef) (b : BoostVM) : BoostVM :=
  mkBoostVM (identifier b) (referenceTime b) (preemptRequested b) (store b)
    (_asyncIONodeCount b) (preemptionTimer b) (alarmTimer b) (_terminated b)
    (_work b) h (_stream b) (_vmEventsCallbacks b)
    (_monitors b) (journal b).
Definition set_stream (s : option StableRef) (b : BoostVM) : BoostVM :=
  mkBoostVM (identifier b) (referenceTime b) (preemptRequested b) (store b)
    (_asyncIONodeCount b) (preemptionTimer b) (alarmTimer b) (_terminated b)
    (_work b) (_headOfStream b) s (_vmEventsCallbacks b)
    (_monitors b) (journal b).
Definition set_events (q : list VMEvent) (b : BoostVM) : BoostVM :=
  mkBoostVM (identifier b) (referenceTime b) (preemptRequested b) (store b)
    (_asyncIONodeCount b) (preemptionTimer b) (alarmTimer b) (_terminated b)
    (_work b) (_headOfStream b) (_stream b) q
    (_monitors b) (journal b).
Definition set_monitors (m : list VMHandle) (b : BoostVM) : BoostVM :=
  mkBoostVM (identifier b) (referenceTime b) (preemptRequested b) (store b)
    (_asyncIONodeCount b) (preemptionTimer b) (alarmTimer b) (_terminated b)
    (_work b) (_headOfStream b) (_stream b) (_vmEventsCallbacks b)
    m (journal b).
Definition log (e : Effect) (b : BoostVM) : BoostVM :=
  mkBoostVM (identifier b) (referenceTime b) (preemptRequested b) (store b)
    (_asyncIONodeCount b) (preemptionTimer b) (alarmTimer b) (_terminated b)
    (_work b) (_headOfStream b) (_stream b) (_vmEventsCallbacks b)
    (_monitors b) (journal b ++ [e]).

Definition set_aliveVMs (n : Z) (env : BoostEnvironment) : BoostEnvironment :=
  mkEnv (vms env) (_nextVMIdentifier env) n.

(** *** BoostVM *)

(** The constructor, lines 36-63: the stream starts as one unbound read-only
    variable, which is both the head and the open tail. *)
Definition new_BoostVM (identifier : Z) : BoostVM :=
  mkBoostVM identifier 0 false [ReadOnlyVariable] 0
    (mkTimer 0 false) (mkTimer 0 false) false true
    (Some O) (Some O) [] [] [].

(** [streamAsked], lines 171-173. *)
Definition streamAsked (b : BoostVM) : bool :=
  match _headOfStream b with None => true | Some _ => false end.

(** [portClosed], lines 175-177. *)
Definition portClosed (b : BoostVM) : bool :=
  match _stream b with None => true | Some _ => false end.

Definition stream_once_msg : string :=
  "VM.stream can only be called once, otherwise it would leak".

(** [getStream], lines 179-187: the result is the node copied into the
    caller's [stream], or the error raised; the test [streamAsked()] is the
    match on [_headOfStream]. *)
Definition getStream (b : BoostVM) : res StableRef * BoostVM :=
  match _headOfStream b with
  | None => (Raised stream_once_msg [], b)
  | Some head =>
      (Ok head,
       set_headOfStream None (set_count (_asyncIONodeCount b + 1) b))
  end.

(** [bindReadOnly]: bind the variable at [r]. *)
Definition bindReadOnly (r : StableRef) (n : Node) (st : list Node) : list Node :=
  <[r := n]> st.

(** [closeStream], lines 189-196. *)
Definition closeStream (b : BoostVM) : BoostVM :=
  if streamAsked b && negb (portClosed b) then
    match _stream b with
    | Some tail =>
        set_stream None
          (set_store (bindReadOnly tail Nil (store b))
             (set_count (_asyncIONodeCount b - 1) b))
    | None => b
    end
  else b.

(** Modelled from the spec: [sendToReadOnlyStream] of the VM core, which is
    not in this file: "resolves the current open tail to a new cell
    [value, newOpenTail]"; the new open tail becomes the stream. *)
Definition sendToReadOnlyStream (value : Value) (b : BoostVM) : BoostVM :=
  match _stream b with
  | Some tail =>
      let newTail := length (store b) in
      set_stream (Some newTail)
        (set_store
           (bindReadOnly tail (Cons value newTail)
              (store b ++ [ReadOnlyVariable])) b)
  | None => b
  end.

(** [receiveOnVMPort(UnstableNode)], lines 198-201. *)
Definition receiveOnVMPort (value : Value) (b : BoostVM) : BoostVM :=
  if negb (portClosed b) then sendToReadOnlyStream value b else b.

(** [isRunning], lines 217-219. *)
Definition isRunning (b : BoostVM) : bool := negb (_terminated b).

(** Modelled from the spec: [postVMEvent] of boostenv.hh, which is not in
    this file: "enqueue it on the target isolate's deferred-event queue ...
    and signal the target's wake condition". *)
Definition postVMEvent (callback : VMEvent) (b : BoostVM) : BoostVM :=
  set_events (_vmEventsCallbacks b ++ [callback]) b.

(** [addMonitor], lines 225-228. *)
Definition addMonitor (monitor : VMHandle) (b : BoostVM) : BoostVM :=
  set_monitors (_monitors b ++ [monitor]) b.

(** [onPreemptionTimerExpire], lines 139-152; [now] is what
    [env.getReferenceTime()] returns. *)
Definition onPreemptionTimerExpire (error : error_code) (now : Z)
    (b : BoostVM) : BoostVM :=
  if negb (is_operation_aborted error) then
    let b1 := set_time now b in
    let b2 := set_preempt true b1 in
    let t := set_expires_at (expires_at (preemptionTimer b2) + 1)
                            (preemptionTimer b2) in
    set_preemptionTimer (async_wait t) b2
  else b.

(** The timer handler run [n] times in a row without being cancelled. *)
Fixpoint preempt_n (n : nat) (now : nat -> Z) (b : BoostVM) : BoostVM :=
  match n with
  | O => b
  | S n' => onPreemptionTimerExpire success (now n') (preempt_n n' now b)
  end.

(** *** Handles *)

(** The VMs in creation order: position = handle. *)
Definition by_rank (env : BoostEnvironment) : list BoostVM := rev (vms env).

(** [BoostVM::forVM]. *)
Definition forVM (vm : VMHandle) (env : BoostEnvironment) : option BoostVM :=
  by_rank env !! vm.

(** A member call [forVM(vm).f()]. *)
Definition onVM (vm : VMHandle) (f : BoostVM -> BoostVM)
    (env : BoostEnvironment) : BoostEnvironment :=
  mkEnv (rev (alter f vm (by_rank env))) (_nextVMIdentifier env) (_aliveVMs env).

Definition events (vm : VMHandle) (env : BoostEnvironment) : list VMEvent :=
  match forVM vm env with
  | Some b => _vmEventsCallbacks b
  | None => []
  end.

(** [_vmEventsCallbacks.pop()]. *)
Definition pop (b : BoostVM) : BoostVM :=
  set_events (tail (_vmEventsCallbacks b)) b.

(** Several closures posted in a row. *)
Definition post_all (evs : list VMEvent) (b : BoostVM) : BoostVM :=
  set_events (_vmEventsCallbacks b ++ evs) b.

(** What the guarded block of [terminate] does to the terminating VM itself,
    [evs] being the closures [tellMonitors] posts to its own queue. *)
Definition terminate_self (evs : list VMEvent) (b : BoostVM) : BoostVM :=
  log DidDeleteWork
    (set_work false
       (log DidTellMonitors
          (post_all evs
             (log DidCloseStream (closeStream (set_terminated true b)))))).

(** The closures [tellMonitors] of the VM [b] posts to the VM [vm]: one for
    each time [vm] was added as a monitor. *)
Definition told (vm : VMHandle) (b : BoostVM) : list VMEvent :=
  repeat (EvTellTerminated vm (identifier b))
         (count_occ Nat.eq_dec (_monitors b) vm).

(** [stream_from st r vs r']: following the list cells of [st] from [r] reads
    the values [vs] and arrives at [r']. *)
Inductive stream_from (st : list Node)
    : StableRef -> list Value -> StableRef -> Prop :=
| stream_here r : stream_from st r [] r
| stream_next r v r1 vs r' :
    st !! r = Some (Cons v r1) ->
    stream_from st r1 vs r' ->
    stream_from st r (v :: vs) r'.

(** The stream of [b] read from [head]: the values [vs], then the open tail
    (when the port is open) or nil (when it is closed). *)
Definition reads (head : StableRef) (vs : list Value) (b : BoostVM) : Prop :=
  exists tail,
    stream_from (store b) head vs tail /\
    match _stream b with
    | Some t => t = tail /\ store b !! tail = Some ReadOnlyVariable
    | None => store b !! tail = Some Nil
    end.

(** The journal of a VM agrees with its termination flag: nothing journalled
    while it runs, each effect once and in order after. *)
Definition journal_ok (b : BoostVM) : Prop :=
  journal b
  = (if _terminated b then [DidCloseStream; DidTellMonitors; DidDeleteWork]
     else [])
  /\ _work b = negb (_terminated b).

(** The identifier of a VM never changes. *)
Definition same_identifier (b b' : BoostVM) : Prop :=
  identifier b' = identifier b.

(** The termination flag is never reset, and the journal keeps agreeing with
    it. *)
Definition terminates_once (b b' : BoostVM) : Prop :=
  (journal_ok b -> journal_ok b') /\
  (_terminated b = true -> _terminated b' = true).

(** While the stream has not been asked for, its head leads to its tail. *)
Definition head_reads (b : BoostVM) : Prop :=
  forall head, _headOfStream b = Some head -> exists vs, reads head vs b.

(** The stream is asked for at most once, and what is read from a reference
    into it only grows at its end. *)
Definition stream_grows (b b' : BoostVM) : Prop :=
  (head_reads b -> head_reads b') /\
  (streamAsked b = true -> streamAsked b' = true) /\
  (forall head vs, reads head vs b -> exists more, reads head (vs ++ more) b').

Section Collaborators.

(** The collaborators that live outside this file: the unpickler and the
    [pickle.pack] property of the sending VM, if it is registered.  In this
    part the unpickler is only given buffers that [pickle.pack] wrote
    (lines 392-399), and it is taken to return on them. *)
Variable bootUnpickle : Buffer -> Value.
Variable picklePack : BoostVM -> option (Value -> res Buffer).

(** [receiveOnVMPort(std::vector<unsigned char>* )], lines 203-215. *)
Definition receiveOnVMPort_buffer (buffer : Buffer) (b : BoostVM) : BoostVM :=
  if portClosed b then b
  else sendToReadOnlyStream (bootUnpickle buffer) b.

(** The member calls that [perform] makes on a VM, other than the guarded
    block of [terminate]. *)
Inductive vm_op : (BoostVM -> BoostVM) -> Prop :=
| op_post evs : vm_op (post_all evs)
| op_receive v : vm_op (receiveOnVMPort v)
| op_receive_buffer buffer : vm_op (receiveOnVMPort_buffer buffer)
| op_pop : vm_op pop
| op_getStream : vm_op (fun b => snd (getStream b))
| op_closeStream : vm_op closeStream
| op_addMonitor m : vm_op (addMonitor m)
| op_set_time t : vm_op (set_time t)
| op_set_preempt p : vm_op (set_preempt p)
| op_set_preemptionTimer f :
    vm_op (fun b => set_preemptionTimer (f (preemptionTimer b)) b)
| op_set_alarmTimer f :
    vm_op (fun b => set_alarmTimer (f (alarmTimer b)) b)
| op_compose f g : vm_op f -> vm_op g -> vm_op (fun b => g (f b))
| op_id : vm_op (fun b => b).

(** An order on VM states that every member call respects. *)
Class VMOrder (R : BoostVM -> BoostVM -> Prop) : Prop := {
  vmo_refl : forall b, R b b;
  vmo_trans : forall a b c, R a b -> R b c -> R a c;
  vmo_op : forall f, vm_op f -> forall b, R b (f b);
  vmo_terminate :
    forall b evs, _terminated b = false -> R b (terminate_self evs b)
}.

(** [evolve R env env']: the same VMs, each moved along [R]. *)
Definition evolve (R : BoostVM -> BoostVM -> Prop)
    (env env' : BoostEnvironment) : Prop :=
  Forall2 R (by_rank env) (by_rank env')
  /\ _nextVMIdentifier env' = _nextVMIdentifier env.

(** [requestTermination], lines 221-223. *)
Definition requestTermination (this : VMHandle) (env : BoostEnvironment)
    : BoostEnvironment :=
  onVM this (postVMEvent (EvTerminate this)) env.

(** [tellMonitors], lines 230-238. *)
Definition tellMonitors (this : VMHandle) (env : BoostEnvironment)
    : BoostEnvironment :=
  match forVM this env with
  | Some b =>
      let deadVM := identifier b in
      fold_left
        (fun e vm => onVM vm (postVMEvent (EvTellTerminated vm deadVM)) e)
        (_monitors b) env
  | None => env
  end.

(** [terminate], lines 240-247. *)
Definition terminate (this : VMHandle) (env : BoostEnvironment)
    : BoostEnvironment :=
  match forVM this env with
  | Some b =>
      if negb (_terminated b) then
        let e1 := onVM this (set_terminated true) env in
        let e2 := onVM this (fun b => log DidCloseStream (closeStream b)) e1 in
        let e3 := onVM this (log DidTellMonitors) (tellMonitors this e2) in
        onVM this (fun b => log DidDeleteWork (set_work false b)) e3
      else env
  | None => env
  end.

(** Running a queued closure. *)
Definition runEvent (callback : VMEvent) (env : BoostEnvironment)
    : BoostEnvironment :=
  match callback with
  | EvTerminate this => terminate this env
  | EvReceiveBuffer to buffer => onVM to (receiveOnVMPort_buffer buffer) env
  | EvTellTerminated vm deadVM =>
      onVM vm (receiveOnVMPort (Tuple "terminated" (SmallInt deadVM))) env
  end.

(** The drain loop, lines 106-112; also returns the closures run, in the
    order they ran. *)
Fixpoint drain (fuel : nat) (this : VMHandle) (nextInvoke : Directive)
    (env : BoostEnvironment)
    : option (BoostEnvironment * Directive * list VMEvent) :=
  match events this env with
  | [] => Some (env, nextInvoke, [])
  | callback :: _ =>
      match fuel with
      | O => None
      | S fuel' =>
          let env1 := runEvent callback env in
          let env2 := onVM this pop env1 in
          '(env3, d, ran) ← drain fuel' this recInvokeAgainNow env2;
          Some (env3, d, callback :: ran)
      end
  end.

(** How the locked block of one loop iteration ends. *)
Inductive LoopStep : Type :=
| LoopBreak                     (* break: run() goes on to terminate() *)
| LoopAgain                     (* next iteration at once *)
| LoopWait (alarm : option Z).  (* blocks on the condition; alarm armed or not *)

(** The test of lines 99-100: "Is there anything left to do?" (true when
    there is nothing left). *)
Definition nothing_left (nextInvoke : Directive) (b : BoostVM) : bool :=
  negb (isRunning b)
  || (Directive_eqb nextInvoke recNeverInvokeAgain
      && (_asyncIONodeCount b =? 0)
      && (match _vmEventsCallbacks b with [] => true | _ => false end)).

(** The locked block of the loop body, lines 93-130. *)
Definition locked_block (fuel : nat) (this : VMHandle)
    (nextInvokePair : Directive * Z) (env : BoostEnvironment)
    : option (BoostEnvironment * LoopStep * list VMEvent) :=
  let nextInvoke := fst nextInvokePair in
  b ← forVM this env;
  if nothing_left nextInvoke b
  then Some (env, LoopBreak, [])
  else
    '(env1, nextInvoke1, ran) ← drain fuel this nextInvoke env;
    if negb (Directive_eqb nextInvoke1 recInvokeAgainNow) then
      if Directive_eqb nextInvoke1 recInvokeAgainLater then
        let arm b :=
          set_alarmTimer
            (async_wait (set_expires_at (snd nextInvokePair) (alarmTimer b))) b in
        Some (onVM this arm env1, LoopWait (Some (snd nextInvokePair)), ran)
      else Some (env1, LoopWait None, ran)
    else Some (env1, LoopAgain, ran).

(** The closures that the VM [b] would post to [this] on terminating. *)
Definition due (this : VMHandle) (b : BoostVM) : nat :=
  if _terminated b then O else count_occ Nat.eq_dec (_monitors b) this.

(** The closures that the VMs still running may post to [this]. *)
Definition pending_posts (this : VMHandle) (l : list BoostVM) : nat :=
  list_sum (map (due this) l).

(** Enough fuel for the drain loop of [this]. *)
Definition drain_fuel (this : VMHandle) (env : BoostEnvironment) : nat :=
  (length (events this env) + pending_posts this (by_rank env))%nat.

(** *** BoostEnvironment *)

(** The constructor, lines 318-324. *)
Definition new_BoostEnvironment : BoostEnvironment := mkEnv [] 1 0.

(** [addVM], lines 326-331; returns the handle of the new VM. *)
Definition addVM (env : BoostEnvironment) : VMHandle * BoostEnvironment :=
  (length (vms env),
   mkEnv (new_BoostVM (_nextVMIdentifier env) :: vms env)
         (_nextVMIdentifier env + 1) (_aliveVMs env + 1)).

(** The scan of [getVM], lines 336-339, over the list from its front; the
    handle of an element is the number of elements behind it. *)
Fixpoint getVM_scan (identifier' : Z) (l : list BoostVM) : option VMHandle :=
  match l with
  | [] => None
  | vm :: rest =>
      if identifier vm =? identifier' then Some (length rest)
      else getVM_scan identifier' rest
  end.

(** [getVM], lines 333-342. *)
Definition getVM (identifier' : Z) (env : BoostEnvironment) : res VMHandle :=
  match getVM_scan identifier' (vms env) with
  | Some vm => Ok vm
  | None => Raised "Invalid VM identifier: " [SmallInt identifier']
  end.

(** [listVMs], lines 344-352: the Oz list of identifiers. *)
Definition listVMs (env : BoostEnvironment) : list Z :=
  fold_left
    (fun list boostVM =>
       if isRunning boostVM then identifier boostVM :: list else list)
    (vms env) [].

(** The process: still running, or ended by [std::exit]. *)
Inductive Process : Type :=
| Running (env : BoostEnvironment)
| Exited (exitCode : Z).

(** The conversion of the [nativeint] exit code to the [int] parameter of
    [std::exit] at line 358: the value with the same residue modulo 2^32 in
    the range of [int]. *)
Definition int_of_nativeint (exitCode : Z) : Z :=
  (exitCode + 2 ^ 31) mod 2 ^ 32 - 2 ^ 31.

(** [killVM], lines 354-361. *)
Definition killVM (vm : VMHandle) (exitCode : Z) (env : BoostEnvironment)
    : Process :=
  match forVM vm env with
  | Some b =>
      if isRunning b then
        let env1 := requestTermination vm env in
        let env2 := set_aliveVMs (_aliveVMs env1 - 1) env1 in
        if _aliveVMs env2 =? 0 then Exited (int_of_nativeint exitCode)
        else Running env2
      else Running env
  | None => Running env
  end.

(** [sendToVMPort], lines 380-400. *)
Definition sendToVMPort (vm to : VMHandle) (value : Value)
    (env : BoostEnvironment) : res unit * BoostEnvironment :=
  match forVM to env, forVM vm env with
  | Some target, Some sender =>
      if portClosed target then (Ok tt, env)
      else
        match picklePack sender with
        | None => (Raised "Could not find property pickle.pack" [], env)
        | Some pack =>
            match pack value with
            | Raised msg args => (Raised msg args, env)
            | Ok buffer =>
                (Ok tt, onVM to (postVMEvent (EvReceiveBuffer to buffer)) env)
            end
        end
  | _, _ => (Ok tt, env)
  end.

(** *** The system as a whole *)

(** What the threads of the process do, one atomic piece at a time. *)
Inductive Action : Type :=
| ActAddVM
| ActGetVM (identifier' : Z)
| ActListVMs
| ActKillVM (vm : VMHandle) (exitCode : Z)
| ActSendToVMPort (vm to : VMHandle) (value : Value)
| ActGetStream (vm : VMHandle)
| ActCloseStream (vm : VMHandle)
| ActAddMonitor (vm monitor : VMHandle)
| ActStepBegin (this : VMHandle) (refTime clock : Z)
    (* run(), lines 78-84 *)
| ActPreemptionTimerExpire (this : VMHandle) (error : error_code) (now : Z)
| ActStepEnd (this : VMHandle) (nextInvokePair : Directive * Z)
    (* run(), lines 91-133, up to the wait or the end of the iteration *)
| ActWake (this : VMHandle)
    (* run(), line 133, after the wait *)
| ActTerminate (this : VMHandle).
    (* run(), line 136, after the loop is left *)

(** Lines 78-84 of [run]. *)
Definition step_begin (refTime clock : Z) (b : BoostVM) : BoostVM :=
  let b1 := set_time refTime b in
  set_preemptionTimer
    (async_wait (expires_from_now clock 1 (preemptionTimer b1))) b1.

(** Lines 91-133 of [run], from the return of the interpreter to the wait,
    to the next iteration, or to the [break] that leaves the loop (after
    which the thread runs [terminate], line 136). *)
Definition step_end (this : VMHandle) (nextInvokePair : Directive * Z)
    (env : BoostEnvironment) : option (BoostEnvironment * LoopStep * list VMEvent) :=
  let env0 := onVM this (fun b => set_preemptionTimer (cancel (preemptionTimer b)) b) env in
  '(env1, how, ran) ← locked_block (drain_fuel this env0) this nextInvokePair env0;
  match how with
  | LoopBreak => Some (env1, how, ran)
  | LoopAgain =>
      Some (onVM this (fun b => set_alarmTimer (cancel (alarmTimer b)) b) env1,
            how, ran)
  | LoopWait _ => Some (env1, how, ran)
  end.

Definition perform (a : Action) (env : BoostEnvironment) : Process :=
  match a with
  | ActAddVM => Running (snd (addVM env))
  | ActGetVM _ => Running env
  | ActListVMs => Running env
  | ActKillVM vm exitCode => killVM vm exitCode env
  | ActSendToVMPort vm to value => Running (snd (sendToVMPort vm to value env))
  | ActGetStream vm => Running (onVM vm (fun b => snd (getStream b)) env)
  | ActCloseStream vm => Running (onVM vm closeStream env)
  | ActAddMonitor vm monitor => Running (onVM vm (addMonitor monitor) env)
  | ActStepBegin this refTime clock =>
      Running (onVM this (step_begin refTime clock) env)
  | ActPreemptionTimerExpire this error now =>
      Running (onVM this (onPreemptionTimerExpire error now) env)
  | ActStepEnd this nextInvokePair =>
      match step_end this nextInvokePair env with
      | Some (env', _, _) => Running env'
      | None => Running env
      end
  | ActWake this =>
      Running (onVM this (fun b => set_alarmTimer (cancel (alarmTimer b)) b) env)
  | ActTerminate this => Running (terminate this env)
  end.

(** A run of the process: the actions in the order they take effect. *)
Fixpoint perform_all (acts : list Action) (env : BoostEnvironment) : Process :=
  match acts with
  | [] => Running env
  | a :: rest =>
      match perform a env with
      | Running env' => perform_all rest env'
      | Exited code => Exited code
      end
  end.

(** [run], lines 70-137, as the thread of the VM goes through it when the
    other threads leave the VM alone: each element of [steps] gives the two
    clock readings of lines 78 and 81 and what the interpreter returns at
    line 87; a wait ends before the next element.  [None] when the loop has
    not been left after [steps]. *)
Fixpoint run (steps : list (Z * Z * (Directive * Z))) (this : VMHandle)
    (env : BoostEnvironment) : option BoostEnvironment :=
  match steps with
  | [] => None
  | (refTime, clock, nextInvokePair) :: rest =>
      let env1 := onVM this (step_begin refTime clock) env in
      '(env2, how, _) ← step_end this nextInvokePair env1;
      match how with
      | LoopBreak => Some (terminate this env2)
      | LoopAgain => run rest this env2
      | LoopWait _ =>
          run rest this
            (onVM this (fun b => set_alarmTimer (cancel (alarmTimer b)) b) env2)
      end
  end.

End Collaborators.

(** Collaborators to run the model on: the unpickler wraps the first byte,
    the pickler is registered and writes one byte. *)
Definition sample_unpickle (buffer : Buffer) : Value :=
  match buffer with
  | [] => Atom "nil"
  | x :: _ => Tuple "byte" (SmallInt (Z.of_N (Byte.to_N x)))
  end.
Definition sample_pack (_ : BoostVM) : option (Value -> res Buffer) :=
  Some (fun v => match v with
                 | SmallInt _ => Ok [Byte.x01]
                 | Atom _ => Ok [Byte.x02]
                 | Tuple _ _ => Raised "cannot pickle" [v]
                 end).

(** The registry keeps the identifiers in creation order, all of them
    allocated: at least 1 and below the next identifier. *)
Definition registry_ok (env : BoostEnvironment) : Prop :=
  let ids := map identifier (by_rank env) in
  StronglySorted Z.lt ids
  /\ Forall (fun i => 1 <= i < _nextVMIdentifier env) ids
  /\ 1 <= _nextVMIdentifier env.

(** A process to run the model on: two VMs, the first monitoring the second
    and being sent a value by it, the second being killed. *)
Definition sample_acts : list Action :=
  [ActAddVM; ActAddVM; ActAddMonitor 1 0;
   ActSendToVMPort 1 0 (SmallInt 7); ActKillVM 1 3].

Definition sample_env : BoostEnvironment :=
  match perform_all sample_unpickle sample_pack sample_acts new_BoostEnvironment with
  | Running env => env
  | Exited _ => new_BoostEnvironment
  end.

(** The same process, with the loop of the killed VM run to its end. *)
Definition sample_end_acts : list Action :=
  sample_acts ++ [ActStepEnd 1 (recNeverInvokeAgain, 0);
                  ActStepEnd 1 (recNeverInvokeAgain, 0);
                  ActTerminate 1].

Definition sample_end : BoostEnvironment :=
  match perform_all sample_unpickle sample_pack sample_end_acts
          new_BoostEnvironment with
  | Running env => env
  | Exited _ => new_BoostEnvironment
  end.

(** The count of asynchronous I/O nodes, as far as this file moves it: one
    while the stream has been asked for and the port is still open; and the
    port is closed only after the stream has been asked for. *)
Definition count_ok (b : BoostVM) : Prop :=
  (portClosed b = true -> streamAsked b = true) /\
  _asyncIONodeCount b = (if streamAsked b && negb (portClosed b) then 1 else 0).

Definition keeps_count (b b' : BoostVM) : Prop := count_ok b -> count_ok b'.

(** A closed port stays closed, and its store is left alone. *)
Definition stays_closed (b b' : BoostVM) : Prop :=
  portClosed b = true -> portClosed b' = true /\ store b' = store b.

(** Monitors are only ever added, at the end of the list. *)
Definition monitors_grow (b b' : BoostVM) : Prop :=
  identifier b' = identifier b /\
  exists more, _monitors b' = _monitors b ++ more.

(** The value that a closure appends to the stream of [this], for the
    closures that deliver to [this]. *)
Definition delivery (bootUnpickle : Buffer -> Value) (this : VMHandle)
    (callback : VMEvent) : option Value :=
  match callback with
  | EvTerminate _ => None
  | EvReceiveBuffer to buffer =>
      if Nat.eqb to this then Some (bootUnpickle buffer) else None
  | EvTellTerminated vm deadVM =>
      if Nat.eqb vm this then Some (Tuple "terminated" (SmallInt deadVM))
      else None
  end.

Fixpoint deliveries (bootUnpickle : Buffer -> Value) (this : VMHandle)
    (q : list VMEvent) : option (list Value) :=
  match q with
  | [] => Some []
  | callback :: rest =>
      v ← delivery bootUnpickle this callback;
      vs ← deliveries bootUnpickle this rest;
      Some (v :: vs)
  end.

(** The identifier of a VM is its creation rank plus one, and the next
    identifier is the number of VMs plus one. *)
Definition ranked (env : BoostEnvironment) : Prop :=
  (forall vm b, forVM vm env = Some b -> identifier b = Z.of_nat vm + 1) /\
  _nextVMIdentifier env = Z.of_nat (length (vms env)) + 1.

(** No [killVM] among the actions. *)
Definition no_kill (acts : list Action) : bool :=
  forallb (fun a => match a with ActKillVM _ _ => false | _ => true end) acts.

End Boost.

(** ** Part III: the rest of the boot loader *)

Module Loader.

(** [std::string::substr(pos, count)] ([count = None] for [npos]): throws
    [std::out_of_range], here [None], when [pos] is beyond the size. *)
Definition substr (pos : nat) (count : option nat) (s : list ascii)
    : option (list ascii) :=
  if (length s <? pos)%nat then None
  else Some (match count with
             | Some n => take n (drop pos s)
             | None => drop pos s
             end).

(** [decodedURLToFilename], lines 299-306. *)
Definition decodedURLToFilename (url : list ascii) : option (list ascii) :=
  prefix ← substr 0 (Some 5%nat) url;
  if List.list_eq_dec Ascii.ascii_dec prefix (URL.str "file:") then substr 5 None url
  else Some url.

(** The file name as [std::ifstream] reads it, through [c_str()]: the
    characters before the first NUL. *)
Fixpoint c_str (s : list ascii) : list ascii :=
  match s with
  | [] => []
  | c :: rest => if Ascii.eqb c Ascii.zero then [] else c :: c_str rest
  end.

Section BootLoader.

Variable char_is_signed : bool.

(** What [std::ifstream input(filename, std::ios::binary)] finds under the
    name it is given: the bytes of the file when [input.is_open()]. *)
Variable open_binary : list ascii -> option (list Byte.byte).

(** The unpickler, which lives outside this file; it may raise. *)
Variable bootUnpickle : list Byte.byte -> Boost.res Boost.Value.

(** [defaultBootLoader], lines 308-315: the flag returned or the exception
    raised, and the contents of [result] after the call, which is assigned
    only when the unpickler returns; [None] stands for a read out of bounds
    or an exception of the loader's own code. *)
Definition defaultBootLoader (url : list ascii) (result : Boost.Value)
    : option (Boost.res bool * Boost.Value) :=
  decoded ← URL.decodeURL char_is_signed url;
  filename ← decodedURLToFilename decoded;
  match open_binary (c_str filename) with
  | None => Some (Boost.Ok false, result)
  | Some input =>
      match bootUnpickle input with
      | Boost.Ok unpickled => Some (Boost.Ok true, unpickled)
      | Boost.Raised msg args => Some (Boost.Raised msg args, result)
      end
  end.

End BootLoader.

(** The character for a hexadecimal digit [n] (0 to 15), in upper or lower
    case. *)
Definition hex_digit (upper : bool) (n : Z) : ascii :=
  if n <? 10 then URL.int_to_char (URL.lit "0" + n)
  else if upper then URL.int_to_char (URL.lit "A" + (n - 10))
  else URL.int_to_char (URL.lit "a" + (n - 10)).

(** Percent-encoding as URL encoders do it: the characters picked by [esc]
    are written as '%' and two hexadecimal digits, the others as they are. *)
Definition percent_encode (esc : ascii -> bool) (upper : bool)
    (s : list ascii) : list ascii :=
  flat_map
    (fun c =>
       if esc c then
         let n := URL.lit c in
         ["%"%char; hex_digit upper (n / 16); hex_digit upper (n mod 16)]
       else [c])
    s.

(** A file system to run the loader on: two files, "/x.ozf" and the empty
    "/empty.ozf"; and an unpickler that raises on an empty input. *)
Definition sample_open (filename : list ascii) : option (list Byte.byte) :=
  if List.list_eq_dec Ascii.ascii_dec filename (URL.str "/x.ozf") then Some [Byte.x2a]
  else if List.list_eq_dec Ascii.ascii_dec filename (URL.str "/empty.ozf") then Some []
  else None.

Definition sample_boot_unpickle (input : list Byte.byte) : Boost.res Boost.Value :=
  match input with
  | [] => Boost.Raised "empty pickle" []
  | _ => Boost.Ok (Boost.sample_unpickle input)
  end.

End Loader.

(** ** Part IV: UUIDs *)

Module UUIDs.

(** A [std::uint8_t] as the number it holds. *)
Definition uint8 (b : Byte.byte) : Z := Z.of_N (Byte.to_N b).

(** Arithmetic of [std::uint64_t]. *)
Definition wrap64 (z : Z) : Z := z mod 2 ^ 64.
Definition shl64 (x n : Z) : Z := wrap64 (Z.shiftl x n).
Definition add64 (x y : Z) : Z := wrap64 (x + y).

(** [bytes2uint64], lines 163-169; the reads [bytes[0]] to [bytes[7]] go
    through the bounds-checked lookup. *)
Definition bytes2uint64 (bytes : list Byte.byte) : option Z :=
  b0 ← bytes !! 0%nat; b1 ← bytes !! 1%nat;
  b2 ← bytes !! 2%nat; b3 ← bytes !! 3%nat;
  b4 ← bytes !! 4%nat; b5 ← bytes !! 5%nat;
  b6 ← bytes !! 6%nat; b7 ← bytes !! 7%nat;
  Some
    (add64 (add64 (add64 (add64 (add64 (add64 (add64
       (shl64 (uint8 b0) 56) (shl64 (uint8 b1) 48))
       (shl64 (uint8 b2) 40)) (shl64 (uint8 b3) 32))
       (shl64 (uint8 b4) 24)) (shl64 (uint8 b5) 16))
       (shl64 (uint8 b6) 8)) (shl64 (uint8 b7) 0)).

Record UUID := mkUUID { data0 : Z; data1 : Z }.

(** [genUUID], lines 154-161, given the sixteen bytes [uuid.data] that the
    generator returned. *)
Definition genUUID (uuid : list Byte.byte) : option UUID :=
  data0 ← bytes2uint64 uuid;
  data1 ← bytes2uint64 (drop 8 uuid);
  Some (mkUUID data0 data1).

(** The big-endian number written by a sequence of bytes. *)
Fixpoint big_endian (bytes : list Byte.byte) : Z :=
  match bytes with
  | [] => 0
  | b :: rest => uint8 b * 256 ^ Z.of_nat (length rest) + big_endian rest
  end.

End UUIDs.

(** * Properties *)

Import URL.

(** ** The URL decoder *)

Section URL_decoder.

Local Open Scope nat_scope.

Variable signed : bool.

Lemma find_None c s : find c s = None <-> ~ In c s.
Proof.
  induction s as [|d t IH]; simpl; [tauto|].
  destruct (Ascii.eqb_spec d c) as [->|Hne].
  - split; [discriminate | intros H; exfalso; apply H; now left].
  - destruct (find c t); simpl.
    + split; [discriminate|]. intros H. exfalso.
      assert (Hnin : ~ In c t) by (intros Hin; apply H; now right).
      apply IH in Hnin. discriminate.
    + split; [|reflexivity]. intros _ [Heq|Hin]; [congruence|].
      now apply (proj1 IH).
Qed.

Lemma scan_literal c t :
  Ascii.eqb c "%" = false \/ length t < 2 ->
  scan signed (c :: t) = c :: scan signed t.
Proof.
  intros H. destruct t as [|d1 [|d2 r]]; try reflexivity.
  destruct H as [H|H]; [|simpl in H; lia].
  simpl. now rewrite H.
Qed.

Lemma scan_escape d1 d2 r :
  scan signed ("%"%char :: d1 :: d2 :: r) = escape_byte signed d1 d2 :: scan signed r.
Proof. reflexivity. Qed.

Lemma scan_no_percent s : ~ In "%"%char s -> scan signed s = s.
Proof.
  induction s as [|c t IH]; intros H; [reflexivity|].
  rewrite scan_literal.
  - f_equal. apply IH. intros Hin. apply H. now right.
  - left. destruct (Ascii.eqb_spec c "%"); [|reflexivity].
    exfalso. apply H. now left.
Qed.

(** The indexed loop computes [scan] of what is left of the input, without
    ever reading out of bounds. *)
Lemma decode_loop_scan fuel : forall s i acc,
  length s - i <= fuel ->
  decode_loop signed fuel s i acc = Some (acc ++ scan signed (drop i s)).
Proof.
  induction fuel as [|fuel IH]; intros s i acc Hf; simpl.
  - destruct (Nat.ltb_spec i (length s)); [lia|].
    rewrite drop_ge by lia. now rewrite app_nil_r.
  - destruct (Nat.ltb_spec i (length s)) as [Hi|Hi].
    2:{ rewrite drop_ge by lia. now rewrite app_nil_r. }
    destruct (lookup_lt_is_Some_2 s i Hi) as [c Hc].
    rewrite Hc. cbn [mbind option_bind]. rewrite (drop_S _ _ _ Hc).
    destruct (Ascii.eqb c "%") eqn:Ec; cbn [andb].
    + destruct (Nat.ltb_spec (i + 2) (length s)) as [Hi2|Hi2].
      * destruct (lookup_lt_is_Some_2 s (i + 1)) as [d1 Hd1]; [lia|].
        destruct (lookup_lt_is_Some_2 s (i + 1 + 1)) as [d2 Hd2]; [lia|].
        rewrite Hd1, Hd2. cbn [mbind option_bind].
        rewrite IH by lia.
        replace (S i) with (i + 1) by lia.
        rewrite (drop_S _ _ _ Hd1).
        replace (S (i + 1)) with (i + 1 + 1) by lia.
        rewrite (drop_S _ _ _ Hd2).
        replace (S (i + 1 + 1)) with (i + 1 + 1 + 1) by lia.
        apply Ascii.eqb_eq in Ec. subst c.
        rewrite scan_escape. now rewrite <- app_assoc.
      * rewrite IH by lia. rewrite scan_literal.
        -- replace (i + 1) with (S i) by lia. now rewrite <- app_assoc.
        -- right. rewrite length_drop. lia.
    + rewrite IH by lia. rewrite scan_literal by now left.
      replace (i + 1) with (S i) by lia. now rewrite <- app_assoc.
Qed.

Lemma decodeURL_scan s : decodeURL signed s = Some (scan signed s).
Proof.
  unfold decodeURL. destruct (find "%" s) eqn:E.
  - rewrite decode_loop_scan by lia. reflexivity.
  - apply find_None in E. now rewrite scan_no_percent.
Qed.

(** The output splits at every index the loop stands at. *)
Lemma scan_split_reached : forall i s,
  reached s i = true ->
  scan signed s = scan signed (take i s) ++ scan signed (drop i s).
Proof.
  induction i as [i IH] using lt_wf_ind. intros s H.
  destruct i as [|i']; [reflexivity|].
  destruct s as [|c t]; [discriminate|].
  destruct t as [|d1 [|d2 r]].
  - simpl in H. destruct i'; [reflexivity | discriminate].
  - change (reached [d1] i' = true) in H.
    rewrite scan_literal by (right; simpl; lia).
    simpl take. simpl drop.
    rewrite (scan_literal c (take i' [d1])).
    2:{ right. rewrite length_take. simpl. lia. }
    rewrite (IH i' ltac:(lia) [d1] H) at 1. reflexivity.
  - simpl in H. destruct (Ascii.eqb_spec c "%") as [->|Hne].
    + destruct i' as [|[|i'']]; try discriminate.
      rewrite scan_escape. simpl take. simpl drop.
      rewrite scan_escape.
      rewrite (IH i'' ltac:(lia) r H) at 1. reflexivity.
    + change (reached (d1 :: d2 :: r) i' = true) in H.
      assert (Hc : Ascii.eqb c "%" = false) by now apply Ascii.eqb_neq.
      rewrite scan_literal by now left.
      simpl take. simpl drop.
      rewrite (scan_literal c (take i' _)) by now left.
      rewrite (IH i' ltac:(lia) _ H) at 1. reflexivity.
Qed.

Lemma hexDigitToValue_hex d a :
  hex_value d = Some a ->
  char_to_int signed (hexDigitToValue signed d) = a /\ (0 <= a < 16)%Z.
Proof.
  destruct signed;
    destruct d as [[] [] [] [] [] [] [] []]; vm_compute;
    intros H; try discriminate H; injection H as <-;
    (split; [reflexivity | split; [discriminate | reflexivity]]).
Qed.

Lemma lor_nibbles a b :
  (0 <= a < 16)%Z -> (0 <= b < 16)%Z ->
  Z.lor (Z.shiftl a 4) b = (16 * a + b)%Z.
Proof.
  intros Ha Hb.
  assert (Ea : exists n, n < 16 /\ a = Z.of_nat n)
    by (exists (Z.to_nat a); lia).
  assert (Eb : exists n, n < 16 /\ b = Z.of_nat n)
    by (exists (Z.to_nat b); lia).
  destruct Ea as (n & Hn & ->). destruct Eb as (m & Hm & ->).
  do 16 (destruct n as [|n]; [do 16 (destruct m as [|m]; [reflexivity|]); lia|]).
  lia.
Qed.

Lemma escape_byte_hex d1 d2 a b :
  hex_value d1 = Some a -> hex_value d2 = Some b ->
  escape_byte signed d1 d2 = int_to_char (16 * a + b).
Proof.
  intros H1 H2. unfold escape_byte.
  destruct (hexDigitToValue_hex _ _ H1) as [-> Ha].
  destruct (hexDigitToValue_hex _ _ H2) as [-> Hb].
  now rewrite lor_nibbles.
Qed.

(** C9 (as amended): [decodeURL] is total and never reads past the end of its
    input (every read is in bounds and the result is the left-to-right scan
    of the input); a string without '%' is returned unchanged; and for a '%'
    the left-to-right scan stands at, i.e. one that is not among the two
    characters consumed after an earlier '%': followed by fewer than two
    characters it is copied literally, and followed by two hexadecimal digits
    the three characters are replaced by the single byte they encode. *)
Theorem decodeURL_left_to_right :
  (forall s, decodeURL signed s = Some (scan signed s)) /\
  (forall s, ~ In "%"%char s -> decodeURL signed s = Some s) /\
  (forall s i,
      reached s i = true -> s !! i = Some "%"%char -> length s <= i + 2 ->
      decodeURL signed s
      = Some (scan signed (take i s) ++ "%"%char :: scan signed (drop (i + 1) s))) /\
  (forall s i d1 d2 a b,
      reached s i = true -> s !! i = Some "%"%char ->
      s !! (i + 1) = Some d1 -> s !! (i + 2) = Some d2 ->
      hex_value d1 = Some a -> hex_value d2 = Some b ->
      decodeURL signed s
      = Some (scan signed (take i s)
                ++ int_to_char (16 * a + b) :: scan signed (drop (i + 3) s))).
Proof.
  split; [exact decodeURL_scan|]. split.
  { intros s H. rewrite decodeURL_scan. now rewrite scan_no_percent. }
  split.
  - intros s i Hr Hc Hlen. rewrite decodeURL_scan.
    rewrite (scan_split_reached i s Hr). do 2 f_equal.
    rewrite (drop_S _ _ _ Hc). rewrite scan_literal.
    + now replace (i + 1) with (S i) by lia.
    + right. rewrite length_drop. lia.
  - intros s i d1 d2 a b Hr Hc H1 H2 Ha Hb. rewrite decodeURL_scan.
    rewrite (scan_split_reached i s Hr). do 2 f_equal.
    rewrite (drop_S _ _ _ Hc).
    replace (S i) with (i + 1) by lia. rewrite (drop_S _ _ _ H1).
    replace (S (i + 1)) with (i + 2) by lia. rewrite (drop_S _ _ _ H2).
    replace (S (i + 2)) with (i + 3) by lia.
    rewrite scan_escape. f_equal. now apply escape_byte_hex.
Qed.

End URL_decoder.

Lemma decodeURL_left_to_right_witness :
  decodeURL true (str "ab%4a%")
  = Some (scan true (take 2 (str "ab%4a%"))
            ++ int_to_char (16 * 4 + 10) :: scan true (drop (2 + 3) (str "ab%4a%")))
  /\ decodeURL true (str "ab%4a%")
     = Some (scan true (take 5 (str "ab%4a%"))
               ++ "%"%char :: scan true (drop (5 + 1) (str "ab%4a%")))
  /\ decodeURL true (str "file:/x.ozf") = Some (str "file:/x.ozf").
Proof.
  destruct (decodeURL_left_to_right true) as (_ & Hplain & Hshort & Hesc).
  split; [|split].
  - apply (Hesc (str "ab%4a%") 2%nat "4"%char "a"%char 4 10); reflexivity.
  - apply (Hshort (str "ab%4a%") 5%nat); [reflexivity | reflexivity | simpl; lia].
  - apply Hplain. simpl.
    intros H; repeat (destruct H as [H|H]; [discriminate H|]); exact H.
Defined.

(** C9 as stated fails: a '%' that is one of the two characters after an
    earlier '%' is consumed as a digit.  In "%%1" the second '%' has fewer
    than two characters after it and is not copied (the output is "Q"); in
    "%%41" the escape "%41" is not replaced by "A" (the output is "T1"). *)
Lemma decodeURL_consumes_percent_as_digit :
  (decodeURL true (str "%%1") = Some (str "Q")
   /\ decodeURL false (str "%%1") = Some (str "Q")
   /\ decodeURL true (str "%%41") = Some (str "T1")
   /\ decodeURL false (str "%%41") = Some (str "T1"))
  /\ ~ (forall signed s i,
          s !! i = Some "%"%char -> (length s <= i + 2)%nat ->
          exists out, decodeURL signed s = Some out /\ In "%"%char out)
  /\ ~ (forall signed s i d1 d2 a b,
          s !! i = Some "%"%char ->
          s !! (i + 1)%nat = Some d1 -> s !! (i + 2)%nat = Some d2 ->
          hex_value d1 = Some a -> hex_value d2 = Some b ->
          exists out, decodeURL signed s = Some out
                      /\ In (int_to_char (16 * a + b)) out).
Proof.
  split; [repeat split; reflexivity|]. split.
  - intros H.
    destruct (H true (str "%%1") 1%nat) as (out & Hout & Hin);
      [reflexivity | simpl; lia |].
    vm_compute in Hout. injection Hout as <-.
    destruct Hin as [Hin|[]]. discriminate Hin.
  - intros H.
    destruct (H true (str "%%41") 1%nat "4"%char "1"%char 4 1)
      as (out & Hout & Hin); try reflexivity.
    vm_compute in Hout. injection Hout as <-.
    destruct Hin as [Hin|[Hin|[]]]; discriminate Hin.
Qed.

Import Boost.

(** ** The preemption timer *)

Lemma preempt_n_expires n now b :
  expires_at (preemptionTimer (preempt_n n now b))
  = expires_at (preemptionTimer b) + Z.of_nat n.
Proof.
  induction n as [|n IH]; [simpl; lia|].
  cbn [preempt_n]. unfold onPreemptionTimerExpire. cbn.
  rewrite IH. lia.
Qed.

(** C7: a firing of the preemption timer that was not cancelled publishes the
    current reference time, raises the preemption request, and re-arms the
    timer one quantum (1 ms) after its previous deadline, whatever the
    current time; so after [n] firings in a row the deadline is the one set
    when the step began plus [n] quanta.  A cancelled wait changes nothing. *)
Theorem onPreemptionTimerExpire_rearms_from_deadline error now b :
  error <> operation_aborted ->
  (let b' := onPreemptionTimerExpire error now b in
   referenceTime b' = now /\
   preemptRequested b' = true /\
   expires_at (preemptionTimer b') = expires_at (preemptionTimer b) + 1 /\
   pending (preemptionTimer b') = true) /\
  (forall n nows refTime clock,
     expires_at (preemptionTimer (preempt_n n nows (step_begin refTime clock b)))
     = clock + 1 + Z.of_nat n) /\
  onPreemptionTimerExpire operation_aborted now b = b.
Proof.
  intros Herr. split; [|split].
  - unfold onPreemptionTimerExpire.
    destruct error; [| congruence |]; cbn; auto.
  - intros n nows refTime clock. rewrite preempt_n_expires. reflexivity.
  - reflexivity.
Qed.

Lemma onPreemptionTimerExpire_rearms_from_deadline_witness :
  let b := set_preemptionTimer (mkTimer 1000 true) (new_BoostVM 1) in
  let b' := onPreemptionTimerExpire success 5000 b in
  referenceTime b' = 5000 /\ preemptRequested b' = true /\
  expires_at (preemptionTimer b') = 1000 + 1 /\
  pending (preemptionTimer b') = true.
Proof.
  intros b b'.
  exact (proj1 (onPreemptionTimerExpire_rearms_from_deadline success 5000 b
                  ltac:(discriminate))).
Defined.

(** ** The stream *)

Lemma stream_from_snoc st r vs t v n :
  stream_from st r vs t ->
  st !! t = Some (Cons v n) ->
  stream_from st r (vs ++ [v]) n.
Proof.
  induction 1 as [r|r w r1 vs r' Hr Hs IH]; intros Ht; simpl.
  - econstructor; [exact Ht | constructor].
  - econstructor; [exact Hr | now apply IH].
Qed.

(** Binding an unbound variable and allocating new nodes leaves every path
    through list cells as it was. *)
Lemma stream_from_bind st r vs t u n more :
  stream_from st r vs t ->
  st !! u = Some ReadOnlyVariable ->
  stream_from (bindReadOnly u n (st ++ more)) r vs t.
Proof.
  intros H Hu. induction H as [r|r w r1 vs r' Hr Hs IH]; [constructor|].
  econstructor; [|exact IH].
  unfold bindReadOnly. rewrite list_lookup_insert_ne by congruence.
  rewrite lookup_app_l by (eapply lookup_lt_Some; eauto). exact Hr.
Qed.

(** An append to an open port adds the value at the end of what is read from
    any reference into the stream. *)
Lemma reads_receive head vs b v :
  reads head vs b -> portClosed b = false ->
  reads head (vs ++ [v]) (receiveOnVMPort v b).
Proof.
  intros (tail & Hpath & Hend) Hopen.
  unfold receiveOnVMPort, sendToReadOnlyStream. rewrite Hopen. cbn [negb].
  unfold portClosed in Hopen.
  destruct (_stream b) as [t|] eqn:Es; [|discriminate].
  destruct Hend as [-> Hvar].
  exists (length (store b)). destruct b; cbn in *. split.
  - eapply stream_from_snoc.
    + eapply (stream_from_bind _ _ _ _ tail _ [ReadOnlyVariable]); eauto.
    + unfold bindReadOnly. apply list_lookup_insert_eq.
      rewrite length_app. apply lookup_lt_Some in Hvar. simpl. lia.
  - split; [reflexivity|]. unfold bindReadOnly.
    rewrite list_lookup_insert_ne by (apply lookup_lt_Some in Hvar; lia).
    rewrite lookup_app_r by lia. now rewrite Nat.sub_diag.
Qed.

(** ** Handles and member calls *)

Lemma by_rank_onVM vm f env :
  by_rank (onVM vm f env) = alter f vm (by_rank env).
Proof. unfold by_rank, onVM. cbn. apply rev_involutive. Qed.

Lemma forVM_onVM vm m f env :
  forVM vm (onVM m f env)
  = if decide (m = vm) then f <$> forVM vm env else forVM vm env.
Proof.
  unfold forVM. rewrite by_rank_onVM, list_lookup_alter.
  destruct (decide (m = vm)); subst; reflexivity.
Qed.

Lemma forVM_onVM_eq vm f env :
  forVM vm (onVM vm f env) = f <$> forVM vm env.
Proof. rewrite forVM_onVM. destruct (decide (vm = vm)); [reflexivity|congruence]. Qed.

Lemma forVM_onVM_ne vm m f env :
  m <> vm -> forVM vm (onVM m f env) = forVM vm env.
Proof. intros. rewrite forVM_onVM. destruct (decide (m = vm)); [congruence|reflexivity]. Qed.

Lemma post_all_nil b : post_all [] b = b.
Proof. destruct b. unfold post_all, set_events. cbn. now rewrite app_nil_r. Qed.

Lemma post_all_app e1 e2 b : post_all e2 (post_all e1 b) = post_all (e1 ++ e2) b.
Proof. destruct b. unfold post_all, set_events. cbn. now rewrite app_assoc. Qed.

Lemma fold_tell_forVM d ms : forall env vm,
  forVM vm
    (fold_left (fun e m => onVM m (postVMEvent (EvTellTerminated m d)) e) ms env)
  = post_all (repeat (EvTellTerminated vm d) (count_occ Nat.eq_dec ms vm))
    <$> forVM vm env.
Proof.
  induction ms as [|m ms IH]; intros env vm; cbn [fold_left count_occ].
  - cbn. destruct (forVM vm env); cbn; [now rewrite post_all_nil | reflexivity].
  - rewrite IH, forVM_onVM.
    destruct (Nat.eq_dec m vm) as [->|Hne].
    + rewrite decide_True by reflexivity.
      destruct (forVM vm env) as [b|]; cbn; [|reflexivity].
      f_equal. change (postVMEvent (EvTellTerminated vm d) b)
        with (post_all [EvTellTerminated vm d] b).
      now rewrite post_all_app.
    + rewrite decide_False by assumption. reflexivity.
Qed.

Lemma fold_tell_counters d ms : forall env,
  let env' :=
    fold_left (fun e m => onVM m (postVMEvent (EvTellTerminated m d)) e) ms env in
  _nextVMIdentifier env' = _nextVMIdentifier env
  /\ _aliveVMs env' = _aliveVMs env.
Proof.
  induction ms as [|m ms IH]; intros env; cbn; [auto|].
  destruct (IH (onVM m (postVMEvent (EvTellTerminated m d)) env)) as [-> ->].
  auto.
Qed.

(** What [tellMonitors] does: to each VM, as many closures as it has entries
    in the monitor list, appended to its queue. *)
Lemma tellMonitors_forVM this env b :
  forVM this env = Some b ->
  forall vm, forVM vm (tellMonitors this env) = post_all (told vm b) <$> forVM vm env.
Proof.
  intros H vm. unfold tellMonitors. rewrite H. apply fold_tell_forVM.
Qed.

Lemma tellMonitors_counters this env :
  _nextVMIdentifier (tellMonitors this env) = _nextVMIdentifier env
  /\ _aliveVMs (tellMonitors this env) = _aliveVMs env.
Proof.
  unfold tellMonitors. destruct (forVM this env); [|auto].
  apply fold_tell_counters.
Qed.

Lemma closeStream_core b :
  identifier (closeStream b) = identifier b
  /\ _monitors (closeStream b) = _monitors b
  /\ _terminated (closeStream b) = _terminated b
  /\ _vmEventsCallbacks (closeStream b) = _vmEventsCallbacks b
  /\ journal (closeStream b) = journal b
  /\ _work (closeStream b) = _work b
  /\ _headOfStream (closeStream b) = _headOfStream b.
Proof.
  unfold closeStream.
  destruct (streamAsked b && negb (portClosed b)); [|tauto].
  destruct (_stream b); cbn; tauto.
Qed.

(** What [terminate] does on a running VM: the guarded block on the VM
    itself, and the closures of [tellMonitors] on every VM. *)
Lemma terminate_forVM this env b :
  forVM this env = Some b -> _terminated b = false ->
  forall vm,
    forVM vm (terminate this env)
    = (if decide (this = vm) then terminate_self (told vm b)
       else post_all (told vm b)) <$> forVM vm env.
Proof.
  intros H Ht vm. unfold terminate. rewrite H, Ht. cbn [negb].
  set (e1 := onVM this (set_terminated true) env).
  set (e2 := onVM this (fun b0 => log DidCloseStream (closeStream b0)) e1).
  set (b2 := log DidCloseStream (closeStream (set_terminated true b))).
  assert (H2 : forVM this e2 = Some b2).
  { unfold e2, e1. rewrite !forVM_onVM_eq, H. reflexivity. }
  assert (Htold : told vm b2 = told vm b).
  { unfold told, b2.
    destruct (closeStream_core (set_terminated true b)) as (Hi & Hm & _).
    cbn. now rewrite Hi, Hm. }
  rewrite !forVM_onVM, (tellMonitors_forVM this e2 b2 H2), Htold.
  unfold e2, e1. rewrite !forVM_onVM.
  destruct (decide (this = vm)) as [->|Hne]; [|reflexivity].
  rewrite H. reflexivity.
Qed.

Lemma terminate_counters this env :
  _nextVMIdentifier (terminate this env) = _nextVMIdentifier env
  /\ _aliveVMs (terminate this env) = _aliveVMs env.
Proof.
  unfold terminate. destruct (forVM this env) as [b|]; [|auto].
  destruct (_terminated b); cbn; [auto|].
  match goal with
  | |- context [tellMonitors this ?e] =>
      destruct (tellMonitors_counters this e) as [-> ->]
  end.
  auto.
Qed.

Lemma terminate_idle this env :
  (forall b, forVM this env = Some b -> _terminated b = true) ->
  terminate this env = env.
Proof.
  intros H. unfold terminate. destruct (forVM this env) as [b|]; [|reflexivity].
  now rewrite (H b eq_refl).
Qed.

(** ** Every action moves every VM along an order the member calls respect *)

Section Evolution.

Context (bootUnpickle : Buffer -> Value).
Context (picklePack : BoostVM -> option (Value -> res Buffer)).
Context (R : BoostVM -> BoostVM -> Prop) (Hord : VMOrder bootUnpickle R).

Lemma R_refl b : R b b.
Proof. exact (@vmo_refl bootUnpickle R Hord b). Qed.

Lemma R_trans a b c : R a b -> R b c -> R a c.
Proof. exact (@vmo_trans bootUnpickle R Hord a b c). Qed.

Lemma R_op f b : vm_op bootUnpickle f -> R b (f b).
Proof. intros Hf. exact (@vmo_op bootUnpickle R Hord f Hf b). Qed.

Lemma R_terminate b evs : _terminated b = false -> R b (terminate_self evs b).
Proof. exact (@vmo_terminate bootUnpickle R Hord b evs). Qed.

Lemma evolve_refl env : evolve R env env.
Proof.
  split; [|reflexivity]. apply Forall2_lookup. intros i.
  destruct (by_rank env !! i); constructor. apply R_refl.
Qed.

Lemma evolve_trans e1 e2 e3 : evolve R e1 e2 -> evolve R e2 e3 -> evolve R e1 e3.
Proof.
  intros [H1 N1] [H2 N2]. split; [|congruence].
  eapply Forall2_trans; [|exact H1|exact H2]. apply R_trans.
Qed.

Lemma evolve_fmap env env' (g : VMHandle -> BoostVM -> BoostVM) :
  (forall vm, forVM vm env' = g vm <$> forVM vm env) ->
  (forall vm b, forVM vm env = Some b -> R b (g vm b)) ->
  _nextVMIdentifier env' = _nextVMIdentifier env ->
  evolve R env env'.
Proof.
  intros Hg HR Hn. split; [|exact Hn]. apply Forall2_lookup. intros i.
  specialize (Hg i). specialize (HR i). unfold forVM in Hg, HR. rewrite Hg.
  destruct (by_rank env !! i) as [b|]; constructor. now apply HR.
Qed.

Lemma onVM_evolve vm f env : vm_op bootUnpickle f -> evolve R env (onVM vm f env).
Proof.
  intros Hf.
  apply (evolve_fmap _ _ (fun m b => if decide (vm = m) then f b else b));
    [| |reflexivity].
  - intros m. rewrite forVM_onVM.
    destruct (decide (vm = m)); [reflexivity|].
    now destruct (forVM m env).
  - intros m b _. destruct (decide (vm = m)); [now apply R_op | apply R_refl].
Qed.

Lemma terminate_evolve this env : evolve R env (terminate this env).
Proof.
  destruct (forVM this env) as [b|] eqn:Hb.
  2:{ unfold terminate. rewrite Hb. apply evolve_refl. }
  destruct (_terminated b) eqn:Ht.
  { unfold terminate. rewrite Hb, Ht. apply evolve_refl. }
  apply (evolve_fmap _ _
           (fun vm => if decide (this = vm) then terminate_self (told vm b)
                      else post_all (told vm b))).
  - now apply terminate_forVM.
  - intros vm b' Hb'. destruct (decide (this = vm)) as [->|Hne].
    + assert (b' = b) by congruence. subst b'. now apply R_terminate.
    + apply R_op; constructor.
  - apply terminate_counters.
Qed.

Lemma runEvent_evolve callback env : evolve R env (runEvent bootUnpickle callback env).
Proof.
  destruct callback; cbn [runEvent].
  - apply terminate_evolve.
  - apply onVM_evolve. constructor.
  - apply onVM_evolve. constructor.
Qed.

Lemma drain_evolve fuel : forall this d env env' d' ran,
  drain bootUnpickle fuel this d env = Some (env', d', ran) ->
  evolve R env env'.
Proof.
  induction fuel as [|fuel IH]; intros this d env env' d' ran H; cbn [drain] in H.
  - destruct (events this env); [|discriminate].
    injection H as <- <- <-. apply evolve_refl.
  - destruct (events this env) as [|callback q].
    { injection H as <- <- <-. apply evolve_refl. }
    destruct (drain bootUnpickle fuel this recInvokeAgainNow _)
      as [[[e3 d3] r3]|] eqn:E; [|discriminate].
    cbn in H. injection H as <- <- <-.
    eapply evolve_trans; [apply runEvent_evolve|].
    eapply evolve_trans; [apply (onVM_evolve this pop); apply op_pop|].
    eapply IH; exact E.
Qed.

Lemma locked_block_evolve fuel this pair env env' how ran :
  locked_block bootUnpickle fuel this pair env = Some (env', how, ran) ->
  evolve R env env'.
Proof.
  unfold locked_block. intros H.
  destruct (forVM this env) as [b|]; [|discriminate]. cbn in H.
  match type of H with
  | (if ?c then _ else _) = _ => destruct c
  end.
  { injection H as <- <- <-. apply evolve_refl. }
  destruct (drain bootUnpickle fuel this (fst pair) env)
    as [[[e1 d1] r1]|] eqn:E; [|discriminate].
  cbn in H. apply drain_evolve in E.
  destruct (negb (Directive_eqb d1 recInvokeAgainNow)).
  - destruct (Directive_eqb d1 recInvokeAgainLater);
      injection H as <- <- <-; [|exact E].
    eapply evolve_trans; [exact E|].
    apply onVM_evolve.
    apply (op_set_alarmTimer bootUnpickle
             (fun tm => async_wait (set_expires_at (snd pair) tm))).
  - injection H as <- <- <-. exact E.
Qed.

Lemma step_end_evolve this pair env env' how ran :
  step_end bootUnpickle this pair env = Some (env', how, ran) ->
  evolve R env env'.
Proof.
  unfold step_end. intros H.
  match type of H with
  | context [locked_block _ ?f _ _ ?e] =>
      destruct (locked_block bootUnpickle f this pair e)
        as [[[e1 h1] r1]|] eqn:E; [|discriminate]
  end.
  cbn in H. apply locked_block_evolve in E.
  eapply evolve_trans.
  { apply (onVM_evolve this (fun b => set_preemptionTimer (cancel (preemptionTimer b)) b)).
    apply (op_set_preemptionTimer bootUnpickle cancel). }
  eapply evolve_trans; [exact E|].
  destruct h1; injection H as <- <- <-.
  - apply evolve_refl.
  - apply onVM_evolve. apply (op_set_alarmTimer bootUnpickle cancel).
  - apply evolve_refl.
Qed.

Lemma set_aliveVMs_evolve n env : evolve R env (set_aliveVMs n env).
Proof. destruct (evolve_refl env) as [H1 H2]. split; assumption. Qed.

Lemma killVM_evolve vm exitCode env env' :
  killVM vm exitCode env = Running env' -> evolve R env env'.
Proof.
  unfold killVM. intros H.
  destruct (forVM vm env) as [b|].
  2:{ injection H as <-. apply evolve_refl. }
  destruct (isRunning b).
  2:{ injection H as <-. apply evolve_refl. }
  match type of H with
  | (if ?c then _ else _) = _ => destruct c; [discriminate|]
  end.
  injection H as <-.
  eapply evolve_trans; [|apply set_aliveVMs_evolve].
  unfold requestTermination. apply onVM_evolve.
  apply (op_post bootUnpickle [EvTerminate vm]).
Qed.

Lemma sendToVMPort_evolve vm to value env :
  evolve R env (snd (sendToVMPort picklePack vm to value env)).
Proof.
  unfold sendToVMPort.
  destruct (forVM to env) as [target|]; [|apply evolve_refl].
  destruct (forVM vm env) as [sender|]; [|apply evolve_refl].
  destruct (portClosed target); [apply evolve_refl|].
  destruct (picklePack sender) as [pack|]; [|apply evolve_refl].
  destruct (pack value) as [buffer|msg args]; [|apply evolve_refl].
  cbn. apply onVM_evolve. apply (op_post bootUnpickle [EvReceiveBuffer to buffer]).
Qed.

Lemma vm_op_preempt error now : vm_op bootUnpickle (onPreemptionTimerExpire error now).
Proof.
  unfold onPreemptionTimerExpire.
  destruct (negb (is_operation_aborted error)); [|apply op_id].
  apply (op_compose bootUnpickle (fun b => set_preempt true (set_time now b))
           (fun b => set_preemptionTimer
                       ((fun tm => async_wait (set_expires_at (expires_at tm + 1) tm))
                          (preemptionTimer b)) b)).
  - apply (op_compose bootUnpickle (set_time now) (set_preempt true)); constructor.
  - apply (op_set_preemptionTimer bootUnpickle
             (fun tm => async_wait (set_expires_at (expires_at tm + 1) tm))).
Qed.

Lemma vm_op_step_begin refTime clock : vm_op bootUnpickle (step_begin refTime clock).
Proof.
  unfold step_begin.
  apply (op_compose bootUnpickle (set_time refTime)
           (fun b => set_preemptionTimer
                       ((fun tm => async_wait (expires_from_now clock 1 tm))
                          (preemptionTimer b)) b)).
  - constructor.
  - apply (op_set_preemptionTimer bootUnpickle
             (fun tm => async_wait (expires_from_now clock 1 tm))).
Qed.

(** One action: either a VM is added, or every VM moves along [R]. *)
Lemma perform_cases a env env' :
  perform bootUnpickle picklePack a env = Running env' ->
  (a = ActAddVM /\ env' = snd (addVM env)) \/ evolve R env env'.
Proof.
  destruct a; cbn [perform]; intros H.
  - left. injection H as <-. auto.
  - right. injection H as <-. apply evolve_refl.
  - right. injection H as <-. apply evolve_refl.
  - right. eapply killVM_evolve; eauto.
  - right. injection H as <-. apply sendToVMPort_evolve.
  - right. injection H as <-. apply onVM_evolve. constructor.
  - right. injection H as <-. apply onVM_evolve. constructor.
  - right. injection H as <-. apply onVM_evolve. constructor.
  - right. injection H as <-. apply onVM_evolve. apply vm_op_step_begin.
  - right. injection H as <-. apply onVM_evolve. apply vm_op_preempt.
  - right. destruct (step_end bootUnpickle this nextInvokePair env)
      as [[[e h] r]|] eqn:E; injection H as <-.
    + eapply step_end_evolve; eauto.
    + apply evolve_refl.
  - right. injection H as <-. apply onVM_evolve.
    apply (op_set_alarmTimer bootUnpickle cancel).
  - right. injection H as <-. apply terminate_evolve.
Qed.

Lemma by_rank_addVM env :
  by_rank (snd (addVM env)) = by_rank env ++ [new_BoostVM (_nextVMIdentifier env)].
Proof. reflexivity. Qed.

(** Handles stay valid, and the VM behind a handle moves along [R]. *)
Lemma perform_all_forVM acts : forall env env' vm b,
  perform_all bootUnpickle picklePack acts env = Running env' ->
  forVM vm env = Some b ->
  exists b', forVM vm env' = Some b' /\ R b b'.
Proof.
  induction acts as [|a acts IH]; intros env env' vm b H Hb; cbn in H.
  - injection H as <-. exists b. split; [exact Hb | apply R_refl].
  - destruct (perform bootUnpickle picklePack a env) as [env1|] eqn:E;
      [|discriminate].
    assert (H1 : exists b1, forVM vm env1 = Some b1 /\ R b b1).
    { destruct (perform_cases _ _ _ E) as [[_ ->]|[HF _]].
      - exists b. split; [|apply R_refl].
        unfold forVM. rewrite by_rank_addVM. now apply lookup_app_l_Some.
      - eapply Forall2_lookup_l in HF; eauto. }
    destruct H1 as (b1 & Hb1 & R1).
    destruct (IH _ _ _ _ H Hb1) as (b' & Hb' & R').
    exists b'. split; [exact Hb'|]. eapply R_trans; eauto.
Qed.

(** A property of fresh VMs that [R] carries along holds of every VM of every
    state the process reaches. *)
Lemma perform_all_invariant (P : BoostVM -> Prop) acts : forall env env',
  (forall identifier, P (new_BoostVM identifier)) ->
  (forall b b', R b b' -> P b -> P b') ->
  perform_all bootUnpickle picklePack acts env = Running env' ->
  Forall P (by_rank env) -> Forall P (by_rank env').
Proof.
  induction acts as [|a acts IH]; intros env env' Hnew HR H HP; cbn in H.
  - now injection H as <-.
  - destruct (perform bootUnpickle picklePack a env) as [env1|] eqn:E;
      [|discriminate].
    apply (IH env1 env' Hnew HR H).
    destruct (perform_cases _ _ _ E) as [[_ ->]|[HF _]].
    + rewrite by_rank_addVM. apply Forall_app. split; [exact HP|].
      constructor; [apply Hnew | constructor].
    + apply Forall_lookup. intros i b' Hb'.
      destruct (Forall2_lookup_r _ _ _ _ _ HF Hb') as (b & Hb & Rb).
      eapply HR; [exact Rb|]. eapply Forall_lookup_1; eauto.
Qed.

End Evolution.

(** ** Three orders the member calls respect *)

Ltac unfold_ops :=
  unfold terminate_self, post_all, receiveOnVMPort, receiveOnVMPort_buffer,
    sendToReadOnlyStream, pop, getStream, closeStream, addMonitor,
    streamAsked, portClosed, log, set_time, set_preempt, set_store,
    set_count, set_preemptionTimer, set_alarmTimer, set_terminated, set_work,
    set_headOfStream, set_stream, set_events, set_monitors in *.

Ltac split_matches :=
  repeat match goal with
         | |- context [match ?x with _ => _ end] => destruct x eqn:?; cbn in *
         end.

Section Orders.

Context (bootUnpickle : Buffer -> Value).

Lemma receiveOnVMPort_buffer_eq buffer b :
  receiveOnVMPort_buffer bootUnpickle buffer b
  = receiveOnVMPort (bootUnpickle buffer) b.
Proof.
  unfold receiveOnVMPort_buffer, receiveOnVMPort. now destruct (portClosed b).
Qed.

Lemma same_identifier_order : VMOrder bootUnpickle same_identifier.
Proof.
  unfold same_identifier. split.
  - reflexivity.
  - intros a b c H1 H2. congruence.
  - intros f Hf. induction Hf; intros b; try congruence;
      try (unfold_ops; destruct b; cbn; split_matches; reflexivity).
  - intros b evs _. unfold terminate_self. cbn.
    now destruct (closeStream_core (set_terminated true b)) as (-> & _).
Qed.

Lemma terminates_once_frame b b' :
  journal b' = journal b -> _terminated b' = _terminated b ->
  _work b' = _work b -> terminates_once b b'.
Proof.
  intros Hj Ht Hw. unfold terminates_once, journal_ok.
  rewrite Hj, Ht, Hw. tauto.
Qed.

Lemma terminates_once_order : VMOrder bootUnpickle terminates_once.
Proof.
  split.
  - intros b. now apply terminates_once_frame.
  - intros a b c [H1 T1] [H2 T2]. split; auto.
  - intros f Hf. induction Hf; intros b;
      try (apply terminates_once_frame;
           unfold_ops; destruct b; cbn; split_matches; reflexivity).
    + destruct (IHHf1 b) as [H1 T1]. destruct (IHHf2 (f b)) as [H2 T2].
      split; auto.
  - intros b evs Ht. split.
    + intros [Hj Hw]. rewrite Ht in Hj, Hw.
      destruct (closeStream_core (set_terminated true b))
        as (_ & _ & Hct & _ & Hcj & Hcw & _).
      unfold journal_ok, terminate_self. cbn. rewrite Hcj, Hct. cbn.
      now rewrite Hj.
    + congruence.
Qed.

Lemma reads_frame head vs b b' :
  store b' = store b -> _stream b' = _stream b ->
  reads head vs b -> reads head vs b'.
Proof.
  intros Hs Ht (tail & Hp & He). exists tail. rewrite Hs, Ht. auto.
Qed.

Lemma reads_closeStream head vs b :
  reads head vs b -> reads head vs (closeStream b).
Proof.
  intros Hr. unfold closeStream.
  destruct (streamAsked b && negb (portClosed b)); [|exact Hr].
  destruct (_stream b) as [t|] eqn:Es; [|exact Hr].
  destruct Hr as (tail & Hp & He). rewrite Es in He. destruct He as [-> Hv].
  exists tail. destruct b; cbn in *. split.
  - pose proof (stream_from_bind _ _ _ _ tail Nil [] Hp Hv) as H.
    now rewrite app_nil_r in H.
  - unfold bindReadOnly. apply list_lookup_insert_eq.
    eapply lookup_lt_Some; eauto.
Qed.

Lemma stream_grows_refl b : stream_grows b b.
Proof.
  split; [auto|]. split; [auto|].
  intros head vs H. exists []. now rewrite app_nil_r.
Qed.

Lemma stream_grows_trans a b c :
  stream_grows a b -> stream_grows b c -> stream_grows a c.
Proof.
  intros (H1 & A1 & G1) (H2 & A2 & G2). split; [auto|]. split; [auto|].
  intros head vs H. destruct (G1 _ _ H) as (m1 & Hm1).
  destruct (G2 _ _ Hm1) as (m2 & Hm2).
  exists (m1 ++ m2). now rewrite app_assoc.
Qed.

Lemma stream_grows_frame b b' :
  store b' = store b -> _stream b' = _stream b ->
  _headOfStream b' = _headOfStream b -> stream_grows b b'.
Proof.
  intros Hs Ht Hh. split; [|split].
  - intros H head E. rewrite Hh in E. destruct (H head E) as (vs & Hvs).
    exists vs. eapply reads_frame; eauto.
  - unfold streamAsked. now rewrite Hh.
  - intros head vs H. exists []. rewrite app_nil_r. eapply reads_frame; eauto.
Qed.

Lemma stream_grows_receive v b : stream_grows b (receiveOnVMPort v b).
Proof.
  destruct (portClosed b) eqn:Hc.
  { unfold receiveOnVMPort. rewrite Hc. apply stream_grows_refl. }
  assert (Hh : _headOfStream (receiveOnVMPort v b) = _headOfStream b).
  { unfold_ops. destruct b; cbn in *. split_matches; reflexivity. }
  split; [|split].
  - intros H head E. rewrite Hh in E. destruct (H head E) as (vs & Hvs).
    exists (vs ++ [v]). now apply reads_receive.
  - unfold streamAsked. now rewrite Hh.
  - intros head vs H. exists [v]. now apply reads_receive.
Qed.

Lemma stream_grows_closeStream b : stream_grows b (closeStream b).
Proof.
  destruct (closeStream_core b) as (_ & _ & _ & _ & _ & _ & Hh).
  split; [|split].
  - intros H head E. rewrite Hh in E. destruct (H head E) as (vs & Hvs).
    exists vs. now apply reads_closeStream.
  - unfold streamAsked. now rewrite Hh.
  - intros head vs H. exists []. rewrite app_nil_r. now apply reads_closeStream.
Qed.

Lemma stream_grows_getStream b : stream_grows b (snd (getStream b)).
Proof.
  unfold getStream. destruct (_headOfStream b) eqn:E; cbn.
  2:{ apply stream_grows_refl. }
  split; [|split].
  - intros _ head Hhead. destruct b; discriminate Hhead.
  - intros _. destruct b; reflexivity.
  - intros head vs H. exists []. rewrite app_nil_r.
    eapply reads_frame; [| |exact H]; destruct b; reflexivity.
Qed.

Lemma stream_grows_order : VMOrder bootUnpickle stream_grows.
Proof.
  split.
  - apply stream_grows_refl.
  - apply stream_grows_trans.
  - intros f Hf. induction Hf; intros b;
      try (apply stream_grows_frame; destruct b; reflexivity).
    + apply stream_grows_receive.
    + rewrite receiveOnVMPort_buffer_eq. apply stream_grows_receive.
    + apply stream_grows_getStream.
    + apply stream_grows_closeStream.
    + eapply stream_grows_trans; [apply IHHf1 | apply IHHf2].
  - intros b evs _. unfold terminate_self.
    eapply stream_grows_trans;
      [apply (stream_grows_frame b (set_terminated true b)); destruct b; reflexivity|].
    eapply stream_grows_trans; [apply stream_grows_closeStream|].
    apply stream_grows_frame; destruct (closeStream _); reflexivity.
Qed.

End Orders.

(** ** The drain loop ends *)

Section Potential.

Local Open Scope nat_scope.

Variable this : VMHandle.

Lemma list_sum_cons x r : list_sum (x :: r) = x + list_sum r.
Proof. reflexivity. Qed.

Lemma sum_imap_same l : forall h : nat -> BoostVM -> BoostVM,
  (forall i b, l !! i = Some b -> due this (h i b) = due this b) ->
  list_sum (map (due this) (imap h l)) = list_sum (map (due this) l).
Proof.
  induction l as [|a l IH]; intros h H; [reflexivity|].
  cbn [imap map]. rewrite !list_sum_cons, (H 0 a eq_refl). f_equal.
  apply IH. intros i b Hb. apply (H (S i) b Hb).
Qed.

Lemma sum_imap_change l : forall (h : nat -> BoostVM -> BoostVM) t c,
  (forall i b, l !! i = Some b -> i <> t -> due this (h i b) = due this b) ->
  (forall b, l !! t = Some b -> due this (h t b) + c = due this b) ->
  is_Some (l !! t) ->
  list_sum (map (due this) (imap h l)) + c = list_sum (map (due this) l).
Proof.
  induction l as [|a l IH]; intros h t c Hne Heq [b Hb].
  { rewrite lookup_nil in Hb. discriminate. }
  cbn [imap map]. rewrite !list_sum_cons. destruct t as [|t].
  - rewrite (sum_imap_same l (h ∘ S)).
    + pose proof (Heq a eq_refl). lia.
    + intros i x Hx. apply (Hne (S i) x Hx). lia.
  - rewrite (Hne 0 a eq_refl) by lia.
    rewrite <- (IH (h ∘ S) t c).
    + lia.
    + intros i x Hx Hi. apply (Hne (S i) x Hx). lia.
    + intros x Hx. apply (Heq x Hx).
    + now exists b.
Qed.

End Potential.

Section Drain.

Local Open Scope nat_scope.

Context (bootUnpickle : Buffer -> Value).

Lemma by_rank_imap env env' (h : nat -> BoostVM -> BoostVM) :
  (forall vm, forVM vm env' = h vm <$> forVM vm env) ->
  by_rank env' = imap h (by_rank env).
Proof.
  intros H. apply list_eq. intros i. rewrite list_lookup_imap. apply H.
Qed.

Lemma map_alter_same {B} (g : BoostVM -> B) f l : forall i,
  (forall b, g (f b) = g b) -> map g (alter f i l) = map g l.
Proof.
  induction l as [|a l IH]; intros [|i] H; cbn; f_equal; auto.
Qed.

Lemma pending_onVM this vm f env :
  (forall b, due this (f b) = due this b) ->
  pending_posts this (by_rank (onVM vm f env)) = pending_posts this (by_rank env).
Proof.
  intros H. unfold pending_posts. rewrite by_rank_onVM.
  now rewrite map_alter_same.
Qed.

Lemma events_onVM this vm f env :
  (forall b, _vmEventsCallbacks (f b) = _vmEventsCallbacks b) ->
  events this (onVM vm f env) = events this env.
Proof.
  intros H. unfold events. rewrite forVM_onVM.
  destruct (decide (vm = this)); [|reflexivity].
  destruct (forVM this env); cbn; auto.
Qed.

Lemma events_pop this env :
  events this (onVM this pop env) = tail (events this env).
Proof.
  unfold events. rewrite forVM_onVM_eq. now destruct (forVM this env).
Qed.

Lemma receiveOnVMPort_quiet v b :
  _terminated (receiveOnVMPort v b) = _terminated b
  /\ _monitors (receiveOnVMPort v b) = _monitors b
  /\ _vmEventsCallbacks (receiveOnVMPort v b) = _vmEventsCallbacks b.
Proof. unfold_ops. destruct b; cbn. split_matches; auto. Qed.

Lemma terminate_self_events evs b :
  _vmEventsCallbacks (terminate_self evs b) = _vmEventsCallbacks b ++ evs.
Proof.
  destruct (closeStream_core (set_terminated true b)) as (_ & _ & _ & He & _).
  unfold terminate_self. cbn. now rewrite He.
Qed.

Lemma due_terminate_self this evs b : due this (terminate_self evs b) = 0.
Proof.
  destruct (closeStream_core (set_terminated true b)) as (_ & _ & Hct & _).
  unfold due, terminate_self. cbn. now rewrite Hct.
Qed.

(** Running [terminate] keeps the sum of the length of the queue of [this]
    and of what may still be posted to it. *)
Lemma terminate_potential this t env b :
  forVM this env = Some b ->
  exists added,
    events this (terminate t env) = events this env ++ added /\
    length added + pending_posts this (by_rank (terminate t env))
    = pending_posts this (by_rank env).
Proof.
  intros Hb.
  destruct (forVM t env) as [bt|] eqn:Ht.
  2:{ exists []. unfold terminate. rewrite Ht, app_nil_r. auto. }
  destruct (_terminated bt) eqn:Hterm.
  { exists []. unfold terminate. rewrite Ht, Hterm, app_nil_r. auto. }
  pose proof (terminate_forVM t env bt Ht Hterm) as Hall.
  exists (told this bt). split.
  - unfold events. rewrite Hall, Hb. cbn.
    destruct (decide (t = this)); [apply terminate_self_events | reflexivity].
  - rewrite (by_rank_imap _ _ _ Hall). unfold pending_posts, told.
    rewrite repeat_length, Nat.add_comm.
    apply sum_imap_change with (t := t).
    + intros i x _ Hi. rewrite decide_False by congruence.
      unfold due. destruct x; reflexivity.
    + intros x Hx. rewrite decide_True by reflexivity.
      assert (x = bt) by (unfold forVM in Ht; congruence). subst x.
      rewrite due_terminate_self. unfold due. now rewrite Hterm.
    + unfold forVM in Ht. eauto.
Qed.

Lemma runEvent_potential this callback env b :
  forVM this env = Some b ->
  exists added,
    events this (runEvent bootUnpickle callback env) = events this env ++ added /\
    length added + pending_posts this (by_rank (runEvent bootUnpickle callback env))
    = pending_posts this (by_rank env).
Proof.
  intros Hb. destruct callback as [t|to buffer|vm deadVM]; cbn [runEvent].
  - eapply terminate_potential; eauto.
  - exists []. rewrite app_nil_r. split.
    + apply events_onVM. intros x. rewrite receiveOnVMPort_buffer_eq.
      apply receiveOnVMPort_quiet.
    + apply pending_onVM. intros x. rewrite receiveOnVMPort_buffer_eq.
      destruct (receiveOnVMPort_quiet (bootUnpickle buffer) x) as (H1 & H2 & _).
      unfold due. now rewrite H1, H2.
  - exists []. rewrite app_nil_r. split.
    + apply events_onVM. intros x. apply receiveOnVMPort_quiet.
    + apply pending_onVM. intros x.
      destruct (receiveOnVMPort_quiet (Tuple "terminated" (SmallInt deadVM)) x)
        as (H1 & H2 & _).
      unfold due. now rewrite H1, H2.
Qed.

Lemma runEvent_valid this callback env :
  is_Some (forVM this env) ->
  is_Some (forVM this (runEvent bootUnpickle callback env)).
Proof.
  intros [b Hb].
  destruct (runEvent_evolve bootUnpickle same_identifier
              (same_identifier_order bootUnpickle) callback env) as [HF _].
  destruct (Forall2_lookup_l _ _ _ _ _ HF Hb) as (b' & Hb' & _). eauto.
Qed.

Lemma onVM_valid this vm f env :
  is_Some (forVM this env) -> is_Some (forVM this (onVM vm f env)).
Proof.
  intros [b Hb]. rewrite forVM_onVM, Hb.
  destruct (decide (vm = this)); cbn; eauto.
Qed.

(** With [drain_fuel] the drain loop runs to its end. *)
Lemma drain_total fuel : forall this d env,
  is_Some (forVM this env) ->
  drain_fuel this env <= fuel ->
  exists env' d' ran, drain bootUnpickle fuel this d env = Some (env', d', ran).
Proof.
  induction fuel as [|fuel IH]; intros this d env Hv Hf; cbn [drain].
  - unfold drain_fuel in Hf. destruct (events this env); [eauto|]. cbn in Hf. lia.
  - destruct (events this env) as [|callback q] eqn:Eq; [eauto|].
    destruct Hv as [b Hb].
    destruct (runEvent_potential this callback env b Hb) as (added & Hev & Hpot).
    destruct (IH this recInvokeAgainNow
                (onVM this pop (runEvent bootUnpickle callback env)))
      as (env' & d' & ran & Hd).
    + apply onVM_valid. apply runEvent_valid. eauto.
    + unfold drain_fuel in *. rewrite events_pop, Hev, Eq.
      rewrite pending_onVM by (intros x; destruct x; reflexivity).
      rewrite Eq in Hf. cbn in Hf |- *. rewrite length_app. lia.
    + rewrite Hd. cbn. eauto.
Qed.

(** What the drain loop returns: the queue is empty; the closures ran in the
    order of the queue, those posted meanwhile after those already there; and
    the directive is overridden as soon as one closure ran. *)
Lemma drain_facts fuel : forall this d env env' d' ran,
  is_Some (forVM this env) ->
  drain bootUnpickle fuel this d env = Some (env', d', ran) ->
  events this env' = [] /\
  (exists posted, ran = events this env ++ posted) /\
  (ran = [] -> d' = d /\ env' = env) /\
  (ran <> [] -> d' = recInvokeAgainNow).
Proof.
  induction fuel as [|fuel IH]; intros this d env env' d' ran Hv H;
    cbn [drain] in H.
  - destruct (events this env) eqn:Eq; [|discriminate].
    injection H as <- <- <-. rewrite Eq.
    repeat split; auto; [now exists [] | congruence].
  - destruct (events this env) as [|callback q] eqn:Eq.
    { injection H as <- <- <-. rewrite Eq.
      repeat split; auto; [now exists [] | congruence]. }
    destruct (drain bootUnpickle fuel this recInvokeAgainNow _)
      as [[[e3 d3] r3]|] eqn:E; [|discriminate].
    cbn in H. injection H as <- <- <-.
    destruct Hv as [b Hb].
    destruct (runEvent_potential this callback env b Hb) as (added & Hev & _).
    apply IH in E; [|apply onVM_valid, runEvent_valid; eauto].
    destruct E as (Hempty & (posted & Hran) & Hnil & Hcons).
    rewrite events_pop, Hev, Eq in Hran. cbn in Hran.
    split; [exact Hempty|]. split; [|split].
    + exists (added ++ posted). rewrite Hran. cbn. now rewrite app_assoc.
    + discriminate.
    + intros _. destruct r3 as [|x r3]; [now apply Hnil | apply Hcons; discriminate].
Qed.

End Drain.

(** ** One iteration of the scheduling loop *)

Section Loop.

Context (bootUnpickle : Buffer -> Value).

(** How the loop goes on after the drain, given the directive in force. *)
Lemma step_end_cases this pair env b :
  forVM this env = Some b ->
  let env0 :=
    onVM this (fun b => set_preemptionTimer (cancel (preemptionTimer b)) b) env in
  (nothing_left (fst pair) b = true /\
   step_end bootUnpickle this pair env = Some (env0, LoopBreak, []))
  \/
  (nothing_left (fst pair) b = false /\
   exists env1 d1 ran,
     drain bootUnpickle (drain_fuel this env0) this (fst pair) env0
     = Some (env1, d1, ran) /\
     exists env' how,
       step_end bootUnpickle this pair env = Some (env', how, ran) /\
       events this env' = events this env1 /\
       how = match d1 with
             | recInvokeAgainNow => LoopAgain
             | recInvokeAgainLater => LoopWait (Some (snd pair))
             | recNeverInvokeAgain => LoopWait None
             end).
Proof.
  intros Hb env0.
  assert (Hb0 : forVM this env0
                = Some (set_preemptionTimer (cancel (preemptionTimer b)) b)).
  { unfold env0. rewrite forVM_onVM_eq, Hb. reflexivity. }
  assert (Hn : forall d, nothing_left d
                 (set_preemptionTimer (cancel (preemptionTimer b)) b)
               = nothing_left d b) by (intros d; destruct b; reflexivity).
  unfold step_end, locked_block. fold env0. rewrite Hb0. cbn [mbind option_bind].
  rewrite Hn. destruct (nothing_left (fst pair) b) eqn:Hnl.
  - left. split; [reflexivity|]. reflexivity.
  - right. split; [reflexivity|].
    destruct (drain_total bootUnpickle (drain_fuel this env0) this (fst pair) env0)
      as (env1 & d1 & ran & Hd); [rewrite Hb0; eauto | lia |].
    exists env1, d1, ran. split; [exact Hd|]. rewrite Hd. cbn.
    destruct d1; cbn; eexists; eexists; (split; [reflexivity|]);
      (split; [|reflexivity]); try reflexivity;
      (apply events_onVM; intros x; destruct x; reflexivity).
Qed.

Lemma nothing_left_iff d b :
  nothing_left d b = true <->
  isRunning b = false \/
  (d = recNeverInvokeAgain /\ _asyncIONodeCount b = 0 /\ _vmEventsCallbacks b = []).
Proof.
  unfold nothing_left. rewrite orb_true_iff, !andb_true_iff, negb_true_iff.
  rewrite Z.eqb_eq.
  split.
  - intros [H|[[H1 H2] H3]]; [left; exact H | right].
    split; [now destruct d|]. split; [exact H2|].
    now destruct (_vmEventsCallbacks b).
  - intros [H|(H1 & H2 & H3)]; [left; exact H | right].
    subst d. rewrite H3. auto.
Qed.

(** C2: after one interpreter step, the loop is left (for [terminate])
    if and only if the VM was marked not running, or the directive is
    "never invoke again", the count of asynchronous I/O nodes is 0 and the
    queue of closures is empty; otherwise the iteration ends with the next
    iteration or with the wait. *)
Theorem loop_breaks_iff_nothing_left this pair env b :
  forVM this env = Some b ->
  exists env' how ran,
    step_end bootUnpickle this pair env = Some (env', how, ran) /\
    (how = LoopBreak <->
     isRunning b = false \/
     (fst pair = recNeverInvokeAgain /\ _asyncIONodeCount b = 0
      /\ _vmEventsCallbacks b = [])) /\
    (how <> LoopBreak -> how = LoopAgain \/ exists alarm, how = LoopWait alarm).
Proof.
  intros Hb.
  destruct (step_end_cases this pair env b Hb)
    as [[Hnl Hs]|(Hnl & env1 & d1 & ran & Hd & env' & how & Hs & _ & Hhow)].
  - eexists _, _, _. split; [exact Hs|]. split; [|congruence].
    split; [intros _; now apply nothing_left_iff | reflexivity].
  - exists env', how, ran. split; [exact Hs|]. split.
    + split.
      * intros ->. destruct d1; discriminate.
      * intros H. apply nothing_left_iff in H. congruence.
    + intros _. subst how. destruct d1; eauto.
Qed.

Lemma receiveOnVMPort_count v b :
  _headOfStream (receiveOnVMPort v b) = _headOfStream b
  /\ portClosed (receiveOnVMPort v b) = portClosed b
  /\ _asyncIONodeCount (receiveOnVMPort v b) = _asyncIONodeCount b.
Proof. unfold_ops. destruct b; cbn. split_matches; auto. Qed.

Lemma drain_empty fuel this d env :
  events this env = [] ->
  drain bootUnpickle fuel this d env = Some (env, d, []).
Proof. intros H. destruct fuel; cbn [drain]; now rewrite H. Qed.

Lemma deliveries_app this q1 q2 v1 v2 :
  deliveries bootUnpickle this q1 = Some v1 ->
  deliveries bootUnpickle this q2 = Some v2 ->
  deliveries bootUnpickle this (q1 ++ q2) = Some (v1 ++ v2).
Proof.
  revert v1. induction q1 as [|ev q1 IH]; intros v1 H1 H2; cbn in *.
  - injection H1 as <-. exact H2.
  - destruct (delivery bootUnpickle this ev) as [v|]; [|discriminate]. cbn in *.
    destruct (deliveries bootUnpickle this q1) as [vs|]; [|discriminate].
    cbn in *. injection H1 as <-. now rewrite (IH vs eq_refl H2).
Qed.

(** Running a closure that delivers to [this] is an append to its port. *)
Lemma runEvent_delivery this callback v env :
  delivery bootUnpickle this callback = Some v ->
  runEvent bootUnpickle callback env = onVM this (receiveOnVMPort v) env.
Proof.
  destruct callback as [t|to buffer|vm deadVM]; cbn; [discriminate| |].
  - destruct (Nat.eqb_spec to this) as [->|]; [|discriminate].
    intros H. injection H as <-. unfold onVM. do 2 f_equal.
    apply list_alter_ext; [|reflexivity].
    intros x _. apply receiveOnVMPort_buffer_eq.
  - destruct (Nat.eqb_spec vm this) as [->|]; [|discriminate].
    intros H. now injection H as <-.
Qed.

Lemma drain_deliveries this head q : forall fuel env b vs values d,
  forVM this env = Some b ->
  _vmEventsCallbacks b = q ->
  portClosed b = false ->
  reads head vs b ->
  deliveries bootUnpickle this q = Some values ->
  (length q <= fuel)%nat ->
  exists env' b',
    drain bootUnpickle fuel this d env
    = Some (env', match q with [] => d | _ => recInvokeAgainNow end, q) /\
    forVM this env' = Some b' /\
    _vmEventsCallbacks b' = [] /\
    portClosed b' = false /\
    _terminated b' = _terminated b /\
    reads head (vs ++ values) b' /\
    (forall other, other <> this -> forVM other env' = forVM other env).
Proof.
  induction q as [|ev rest IH]; intros fuel env b vs values d Hb Hq Ho Hr Hv Hf.
  - cbn in Hv. injection Hv as <-. exists env, b.
    rewrite drain_empty by (unfold events; now rewrite Hb).
    rewrite app_nil_r. auto 10.
  - destruct fuel as [|fuel]; [cbn in Hf; lia|].
    cbn in Hv.
    destruct (delivery bootUnpickle this ev) as [v|] eqn:Ev; [|discriminate].
    cbn in Hv.
    destruct (deliveries bootUnpickle this rest) as [vals|] eqn:Er; [|discriminate].
    cbn in Hv. injection Hv as <-.
    cbn [drain]. unfold events at 1. rewrite Hb, Hq.
    rewrite (runEvent_delivery this ev v env Ev).
    destruct (receiveOnVMPort_quiet v b) as (Ht1 & _ & Hq1).
    destruct (receiveOnVMPort_count v b) as (_ & Hp1 & _).
    set (b1 := receiveOnVMPort v b) in *.
    set (env2 := onVM this pop (onVM this (receiveOnVMPort v) env)).
    assert (Hb2 : forVM this env2 = Some (pop b1)).
    { unfold env2. rewrite !forVM_onVM_eq, Hb. reflexivity. }
    destruct (IH fuel env2 (pop b1) (vs ++ [v]) vals recInvokeAgainNow Hb2)
      as (env' & b' & Hd & Hb' & Hq' & Ho' & Ht' & Hr' & Hother).
    + unfold pop. cbn. rewrite Hq1, Hq. reflexivity.
    + change (portClosed b1 = false). congruence.
    + apply (reads_frame head (vs ++ [v]) b1 (pop b1));
        [reflexivity | reflexivity |].
      now apply reads_receive.
    + reflexivity.
    + cbn in Hf. lia.
    + exists env', b'. rewrite Hd. cbn.
      split; [now destruct rest|]. split; [exact Hb'|]. split; [exact Hq'|].
      split; [exact Ho'|]. split.
      { rewrite Ht'. change (_terminated b1 = _terminated b). exact Ht1. }
      split; [now rewrite <- app_assoc in Hr'|].
      intros other Hne. rewrite (Hother other Hne). unfold env2.
      now rewrite !forVM_onVM_ne by congruence.
Qed.

Lemma step_end_delivers this pair env b head vs values :
  forVM this env = Some b ->
  isRunning b = true ->
  portClosed b = false ->
  reads head vs b ->
  _vmEventsCallbacks b <> [] ->
  deliveries bootUnpickle this (_vmEventsCallbacks b) = Some values ->
  exists env' b',
    step_end bootUnpickle this pair env
    = Some (env', LoopAgain, _vmEventsCallbacks b) /\
    forVM this env' = Some b' /\
    _vmEventsCallbacks b' = [] /\
    portClosed b' = false /\
    isRunning b' = true /\
    reads head (vs ++ values) b' /\
    (forall other, other <> this -> forVM other env' = forVM other env).
Proof.
  intros Hb Hrun Ho Hr Hne Hv.
  set (env0 := onVM this
                 (fun b => set_preemptionTimer (cancel (preemptionTimer b)) b) env).
  set (b0 := set_preemptionTimer (cancel (preemptionTimer b)) b).
  assert (Hb0 : forVM this env0 = Some b0).
  { unfold env0. rewrite forVM_onVM_eq, Hb. reflexivity. }
  destruct (drain_deliveries this head (_vmEventsCallbacks b)
              (drain_fuel this env0) env0 b0 vs values (fst pair) Hb0)
    as (env1 & b1 & Hd & Hb1 & Hq1 & Ho1 & Ht1 & Hr1 & Hother);
    [reflexivity | exact Ho | | exact Hv | |].
  { apply (reads_frame head vs b b0); [reflexivity | reflexivity | exact Hr]. }
  { unfold drain_fuel, events. rewrite Hb0. cbn. lia. }
  assert (Hnl : nothing_left (fst pair) b0 = false).
  { destruct (nothing_left (fst pair) b0) eqn:E; [|reflexivity].
    apply nothing_left_iff in E. destruct E as [E|(_ & _ & E)].
    - change (isRunning b = false) in E. congruence.
    - now destruct Hne. }
  exists (onVM this (fun b => set_alarmTimer (cancel (alarmTimer b)) b) env1),
         (set_alarmTimer (cancel (alarmTimer b1)) b1).
  split.
  { unfold step_end, locked_block. fold env0. rewrite Hb0.
    cbn [mbind option_bind]. rewrite Hnl, Hd. cbn [mbind option_bind].
    destruct (_vmEventsCallbacks b) as [|ev rest]; [now destruct Hne|].
    reflexivity. }
  split; [rewrite forVM_onVM_eq, Hb1; reflexivity|].
  split; [exact Hq1|]. split; [exact Ho1|].
  split.
  { unfold isRunning in *. cbn. rewrite Ht1. exact Hrun. }
  split.
  { apply (reads_frame _ _ b1); [reflexivity | reflexivity | exact Hr1]. }
  intros other Hneq. rewrite forVM_onVM_ne by congruence.
  rewrite (Hother other Hneq). unfold env0.
  now rewrite forVM_onVM_ne by congruence.
Qed.

(** The drain loop as a fold: the state it returns is the one reached by
    running the closures of [ran] one after the other, each taken off the
    queue after it ran; and each of them was at the front of the queue when
    it ran. *)
Lemma drain_fold fuel : forall this d env env' d' ran,
  drain bootUnpickle fuel this d env = Some (env', d', ran) ->
  env' = fold_left
           (fun e callback => onVM this pop (runEvent bootUnpickle callback e))
           ran env /\
  (forall before callback after,
      ran = before ++ callback :: after ->
      exists rest,
        events this
          (fold_left
             (fun e callback => onVM this pop (runEvent bootUnpickle callback e))
             before env)
        = callback :: rest).
Proof.
  induction fuel as [|fuel IH]; intros this d env env' d' ran H; cbn [drain] in H.
  - destruct (events this env); [|discriminate]. injection H as <- <- <-.
    split; [reflexivity|]. intros [|x before] callback after E; discriminate E.
  - destruct (events this env) as [|front q] eqn:Eq.
    { injection H as <- <- <-.
      split; [reflexivity|]. intros [|x before] callback after E; discriminate E. }
    destruct (drain bootUnpickle fuel this recInvokeAgainNow _)
      as [[[e3 d3] r3]|] eqn:E; [|discriminate].
    cbn in H. injection H as <- <- <-.
    destruct (IH _ _ _ _ _ _ E) as [Henv Hfront].
    split; [exact Henv|].
    intros [|x before] callback after Hr; cbn [app] in Hr.
    + injection Hr as <- <-. exists q. exact Eq.
    + injection Hr as <- ->. cbn [fold_left].
      apply (Hfront before callback after eq_refl).
Qed.

(** What an iteration that does not leave the loop returns: the state after
    the drain, with the alarm armed before a wait asked for with a time, and
    cancelled before the next iteration. *)
Lemma step_end_result this pair env env' how ran :
  step_end bootUnpickle this pair env = Some (env', how, ran) ->
  how <> LoopBreak ->
  exists env1 d1,
    drain bootUnpickle
      (drain_fuel this
         (onVM this (fun b => set_preemptionTimer (cancel (preemptionTimer b)) b) env))
      this (fst pair)
      (onVM this (fun b => set_preemptionTimer (cancel (preemptionTimer b)) b) env)
    = Some (env1, d1, ran) /\
    env' = match how with
           | LoopAgain =>
               onVM this (fun b => set_alarmTimer (cancel (alarmTimer b)) b) env1
           | LoopWait (Some _) =>
               onVM this
                 (fun b =>
                    set_alarmTimer
                      (async_wait (set_expires_at (snd pair) (alarmTimer b))) b)
                 env1
           | _ => env1
           end.
Proof.
  unfold step_end, locked_block. intros H Hnb.
  set (env0 := onVM this
                 (fun b => set_preemptionTimer (cancel (preemptionTimer b)) b) env)
    in *.
  destruct (forVM this env0) as [b0|]; [|discriminate]. cbn [mbind option_bind] in H.
  destruct (nothing_left (fst pair) b0).
  { cbn in H. injection H as <- <- <-. congruence. }
  destruct (drain bootUnpickle (drain_fuel this env0) this (fst pair) env0)
    as [[[e1 d1] r1]|] eqn:E; [|discriminate].
  cbn [mbind option_bind] in H. exists e1, d1.
  destruct (negb (Directive_eqb d1 recInvokeAgainNow));
    [destruct (Directive_eqb d1 recInvokeAgainLater)|];
    cbn in H; injection H as <- <- <-; split; reflexivity.
Qed.

(** C3: when the loop is not left, the drain runs the queued closures in the
    order of the queue (those posted during the drain after those that were
    there) until the queue is empty: each closure that ran was at the front
    of the queue when it ran, and the state after the iteration is the one
    reached by calling them one after the other, each popped after its call
    (followed by the arming or the cancelling of the alarm); so the values
    that queued deliveries carry are read from the stream in the order of
    the queue.  If at least one closure ran, the iteration ends with the
    next iteration at once, whatever directive the interpreter returned: no
    alarm is armed and the thread does not wait.  If none ran, the directive
    of the interpreter decides. *)
Theorem drain_forces_invoke_again_now this pair env b env' how ran :
  forVM this env = Some b ->
  step_end bootUnpickle this pair env = Some (env', how, ran) ->
  how <> LoopBreak ->
  let env0 :=
    onVM this (fun b => set_preemptionTimer (cancel (preemptionTimer b)) b) env in
  let call_and_pop e callback :=
    onVM this pop
      match callback with
      | EvTerminate vm => terminate vm e
      | EvReceiveBuffer to buffer =>
          onVM to (receiveOnVMPort_buffer bootUnpickle buffer) e
      | EvTellTerminated vm deadVM =>
          onVM vm (receiveOnVMPort (Tuple "terminated" (SmallInt deadVM))) e
      end in
  (exists posted, ran = _vmEventsCallbacks b ++ posted) /\
  (forall before callback after,
      ran = before ++ callback :: after ->
      exists rest,
        events this (fold_left call_and_pop before env0) = callback :: rest) /\
  env' = match how with
         | LoopAgain =>
             onVM this (fun b => set_alarmTimer (cancel (alarmTimer b)) b)
               (fold_left call_and_pop ran env0)
         | LoopWait (Some _) =>
             onVM this
               (fun b =>
                  set_alarmTimer
                    (async_wait (set_expires_at (snd pair) (alarmTimer b))) b)
               (fold_left call_and_pop ran env0)
         | _ => fold_left call_and_pop ran env0
         end /\
  events this env' = [] /\
  (ran <> [] -> how = LoopAgain) /\
  (ran = [] ->
   how = match fst pair with
         | recInvokeAgainNow => LoopAgain
         | recInvokeAgainLater => LoopWait (Some (snd pair))
         | recNeverInvokeAgain => LoopWait None
         end) /\
  (forall head vs values,
      portClosed b = false ->
      reads head vs b ->
      deliveries bootUnpickle this (_vmEventsCallbacks b) = Some values ->
      exists b', forVM this env' = Some b' /\ reads head (vs ++ values) b').
Proof.
  intros Hb Hs Hnb env0 call_and_pop.
  destruct (step_end_result this pair env env' how ran Hs Hnb)
    as (e1 & d1' & Hdrain & Henv').
  fold env0 in Hdrain.
  destruct (drain_fold _ _ _ _ _ _ _ Hdrain) as [Hfold Hfront].
  change (fun e callback => onVM this pop (runEvent bootUnpickle callback e))
    with call_and_pop in Hfold, Hfront.
  assert (Hb0 : forVM this env0
                = Some (set_preemptionTimer (cancel (preemptionTimer b)) b)).
  { unfold env0. rewrite forVM_onVM_eq, Hb. reflexivity. }
  pose proof Hs as Hs0.
  destruct (step_end_cases this pair env b Hb)
    as [[Hnl Hs']|(Hnl & env1 & d1 & ran1 & Hd & env2 & how2 & Hs' & Hev & Hhow)];
    rewrite Hs' in Hs.
  { injection Hs as <- <- <-. congruence. }
  injection Hs as <- <- <-.
  apply drain_facts in Hd.
  2:{ rewrite forVM_onVM_eq, Hb. cbn. eauto. }
  destruct Hd as (Hempty & (posted & Hran) & Hnil & Hcons).
  split; [|split; [|split; [|split; [|split; [|split]]]]].
  - exists posted. rewrite Hran. f_equal.
    unfold events. now rewrite forVM_onVM_eq, Hb.
  - exact Hfront.
  - rewrite <- Hfold. exact Henv'.
  - congruence.
  - intros H. rewrite (Hcons H) in Hhow. exact Hhow.
  - intros H. destruct (Hnil H) as [-> _]. exact Hhow.
  - intros head vs values Ho Hr Hv.
    assert (Hrun : isRunning b = true).
    { destruct (isRunning b) eqn:E; [reflexivity|].
      assert (nothing_left (fst pair) b = true)
        by (apply nothing_left_iff; now left).
      congruence. }
    destruct (_vmEventsCallbacks b) as [|ev q] eqn:Eq.
    + cbn in Hv. injection Hv as <-. rewrite app_nil_r.
      rewrite drain_empty in Hdrain by (unfold events; rewrite Hb0; exact Eq).
      injection Hdrain as <- <- <-.
      assert (Hr0 : reads head vs
                      (set_preemptionTimer (cancel (preemptionTimer b)) b)).
      { apply (reads_frame head vs b); [reflexivity | reflexivity | exact Hr]. }
      rewrite Henv'.
      destruct how2 as [| |[t|]].
      * eexists. split; [exact Hb0 | exact Hr0].
      * eexists. split; [rewrite forVM_onVM_eq, Hb0; reflexivity|].
        eapply reads_frame; [| |exact Hr0]; reflexivity.
      * eexists. split; [rewrite forVM_onVM_eq, Hb0; reflexivity|].
        eapply reads_frame; [| |exact Hr0]; reflexivity.
      * eexists. split; [exact Hb0 | exact Hr0].
    + destruct (step_end_delivers this pair env b head vs values Hb Hrun Ho Hr)
        as (env'' & b' & Hs'' & Hb' & _ & _ & _ & Hr' & _).
      * rewrite Eq. discriminate.
      * rewrite Eq. exact Hv.
      * rewrite Hs0 in Hs''. injection Hs'' as -> _ _.
        exists b'. split; [exact Hb' | exact Hr'].
Qed.

End Loop.

Lemma loop_breaks_iff_nothing_left_witness :
  let env := snd (addVM new_BoostEnvironment) in
  exists env' how ran,
    step_end sample_unpickle 0%nat (recNeverInvokeAgain, 0) env
    = Some (env', how, ran) /\
    (how = LoopBreak <->
     isRunning (new_BoostVM 1) = false \/
     (fst (recNeverInvokeAgain, 0) = recNeverInvokeAgain
      /\ _asyncIONodeCount (new_BoostVM 1) = 0
      /\ _vmEventsCallbacks (new_BoostVM 1) = [])) /\
    (how <> LoopBreak -> how = LoopAgain \/ exists alarm, how = LoopWait alarm).
Proof.
  intros env.
  exact (loop_breaks_iff_nothing_left sample_unpickle 0%nat (recNeverInvokeAgain, 0) env
           (new_BoostVM 1) eq_refl).
Defined.


Lemma drain_forces_invoke_again_now_witness :
  exists env' b',
    step_end sample_unpickle 0%nat (recInvokeAgainLater, 50) sample_env
    = Some (env', LoopAgain, [EvReceiveBuffer 0 [Byte.x01]]) /\
    events 0%nat env' = [] /\
    forVM 0%nat env' = Some b' /\
    reads 0%nat ([] ++ [sample_unpickle [Byte.x01]]) b'.
Proof.
  assert (Hs : exists env',
             step_end sample_unpickle 0%nat (recInvokeAgainLater, 50) sample_env
             = Some (env', LoopAgain, [EvReceiveBuffer 0 [Byte.x01]]))
    by (vm_compute; eexists; reflexivity).
  destruct Hs as [env' Hs].
  assert (Hb : forVM 0%nat sample_env
               = Some (postVMEvent (EvReceiveBuffer 0 [Byte.x01]) (new_BoostVM 1)))
    by (vm_compute; reflexivity).
  assert (Hnb : LoopAgain <> LoopBreak) by discriminate.
  destruct (drain_forces_invoke_again_now sample_unpickle 0%nat
              (recInvokeAgainLater, 50) sample_env _ env' LoopAgain _ Hb Hs Hnb)
    as (_ & _ & _ & Hempty & _ & _ & Hreads).
  destruct (Hreads 0%nat [] [sample_unpickle [Byte.x01]]) as (b' & Hb' & Hr').
  - reflexivity.
  - exists 0%nat. split; [constructor|]. cbn. auto.
  - reflexivity.
  - exists env', b'. auto.
Defined.

(** ** The port and the kill request *)

Section Port.

Context (bootUnpickle : Buffer -> Value).
Context (picklePack : BoostVM -> option (Value -> res Buffer)).

(** C5: on a closed port an append (of a value or of a pickled buffer) changes
    nothing and raises nothing; on an open port it binds the open tail to a
    cell holding the value and a fresh open tail, which becomes the tail of
    the stream, all other nodes staying as they are.  [sendToVMPort] to a
    target whose port is closed returns with the environment unchanged, and a
    delivery closure that finds the port closed leaves every VM as it is. *)
Theorem append_to_closed_port_is_dropped :
  (forall value b, portClosed b = true -> receiveOnVMPort value b = b) /\
  (forall buffer b,
      portClosed b = true -> receiveOnVMPort_buffer bootUnpickle buffer b = b) /\
  (forall value b tail,
      _stream b = Some tail -> store b !! tail = Some ReadOnlyVariable ->
      let b' := receiveOnVMPort value b in
      let newTail := length (store b) in
      store b' !! tail = Some (Cons value newTail) /\
      store b' !! newTail = Some ReadOnlyVariable /\
      _stream b' = Some newTail /\
      length (store b') = S (length (store b)) /\
      (forall r, r <> tail -> (r < length (store b))%nat ->
                 store b' !! r = store b !! r)) /\
  (forall buffer b,
      portClosed b = false ->
      receiveOnVMPort_buffer bootUnpickle buffer b
      = receiveOnVMPort (bootUnpickle buffer) b) /\
  (forall vm to value env target,
      forVM to env = Some target -> portClosed target = true ->
      sendToVMPort picklePack vm to value env = (Ok tt, env)) /\
  (forall to buffer env target,
      forVM to env = Some target -> portClosed target = true ->
      forall vm, forVM vm (runEvent bootUnpickle (EvReceiveBuffer to buffer) env)
                 = forVM vm env).
Proof.
  split; [|split; [|split; [|split; [|split]]]].
  - intros value b H. unfold receiveOnVMPort. now rewrite H.
  - intros buffer b H. unfold receiveOnVMPort_buffer. now rewrite H.
  - intros value b tail Hs Hv b' newTail. subst b' newTail.
    pose proof (lookup_lt_Some _ _ _ Hv) as Hlt.
    unfold receiveOnVMPort, sendToReadOnlyStream, portClosed, bindReadOnly.
    rewrite Hs. destruct b; cbn in *.
    split; [|split; [|split; [|split]]].
    + apply list_lookup_insert_eq. rewrite length_app. cbn. lia.
    + rewrite list_lookup_insert_ne by lia.
      rewrite lookup_app_r by lia. now rewrite Nat.sub_diag.
    + reflexivity.
    + rewrite length_insert, length_app. cbn. lia.
    + intros r Hr Hlen. rewrite list_lookup_insert_ne by congruence.
      now rewrite lookup_app_l.
  - intros buffer b _. apply receiveOnVMPort_buffer_eq.
  - intros vm to value env target Ht Hc. unfold sendToVMPort.
    rewrite Ht, Hc. now destruct (forVM vm env).
  - intros to buffer env target Ht Hc vm. cbn [runEvent].
    rewrite forVM_onVM. destruct (decide (to = vm)) as [<-|]; [|reflexivity].
    rewrite Ht. cbn. unfold receiveOnVMPort_buffer. now rewrite Hc.
Qed.

(** C4: in every state the process reaches, on a VM whose stream has not been
    asked for, [getStream] returns the head of the stream, marks the stream
    as asked and adds one to the count of asynchronous I/O nodes, leaving the
    stream itself as it is; from then on, whatever the process does, every
    [getStream] on that VM raises and changes nothing, while the reference
    that was returned still leads through all the values appended so far to
    the tail of the stream, and an append to the open port adds its value at
    the end of what is read from it. *)
Theorem getStream_grants_the_stream_once acts env vm b :
  perform_all bootUnpickle picklePack acts new_BoostEnvironment = Running env ->
  forVM vm env = Some b ->
  (forall head,
      _headOfStream b = Some head ->
      let b1 := snd (getStream b) in
      fst (getStream b) = Ok head /\
      streamAsked b1 = true /\
      _asyncIONodeCount b1 = _asyncIONodeCount b + 1 /\
      store b1 = store b /\ _stream b1 = _stream b /\
      forall acts2 env2,
        perform_all bootUnpickle picklePack acts2
          (onVM vm (fun b => snd (getStream b)) env) = Running env2 ->
        exists b2,
          forVM vm env2 = Some b2 /\
          getStream b2 = (Raised stream_once_msg [], b2) /\
          exists vs,
            reads head vs b2 /\
            forall value, portClosed b2 = false ->
                          reads head (vs ++ [value]) (receiveOnVMPort value b2)) /\
  (streamAsked b = true -> getStream b = (Raised stream_once_msg [], b)).
Proof.
  intros Hreach Hb. split.
  - intros head Hhead b1.
    assert (Hinv : Forall head_reads (by_rank env)).
    { eapply (perform_all_invariant bootUnpickle picklePack stream_grows
                (stream_grows_order bootUnpickle) head_reads);
        [| |exact Hreach|constructor].
      - intros i h Hh. injection Hh as <-. exists [], 0%nat.
        split; [constructor|]. cbn. auto.
      - intros x y (H & _). exact H. }
    destruct (Forall_lookup_1 _ _ _ _ Hinv Hb head Hhead) as (vs & Hvs).
    assert (E1 : getStream b
                 = (Ok head, set_headOfStream None
                               (set_count (_asyncIONodeCount b + 1) b))).
    { unfold getStream. now rewrite Hhead. }
    subst b1. rewrite E1. cbn [fst snd].
    split; [reflexivity|]. split; [now destruct b|].
    split; [now destruct b|]. split; [now destruct b|].
    split; [now destruct b|].
    intros acts2 env2 H2.
    set (b1 := set_headOfStream None (set_count (_asyncIONodeCount b + 1) b)).
    assert (Hb1 : forVM vm (onVM vm (fun b => snd (getStream b)) env) = Some b1).
    { rewrite forVM_onVM_eq, Hb. cbn. now rewrite E1. }
    destruct (perform_all_forVM bootUnpickle picklePack stream_grows
                (stream_grows_order bootUnpickle) _ _ _ _ _ H2 Hb1)
      as (b2 & Hb2 & _ & Hasked & Hgrow).
    exists b2. split; [exact Hb2|]. split.
    + specialize (Hasked eq_refl). unfold streamAsked in Hasked.
      unfold getStream. now destruct (_headOfStream b2).
    + destruct (Hgrow head vs) as (more & Hmore).
      { eapply reads_frame; [| |exact Hvs]; now destruct b. }
      exists (vs ++ more). split; [exact Hmore|].
      intros value Hopen. now apply reads_receive.
  - intros H. unfold streamAsked in H. unfold getStream.
    now destruct (_headOfStream b).
Qed.

Lemma int_of_nativeint_small exitCode :
  - 2 ^ 31 <= exitCode < 2 ^ 31 -> int_of_nativeint exitCode = exitCode.
Proof.
  unfold int_of_nativeint.
  change (2 ^ 32) with 4294967296. change (2 ^ 31) with 2147483648.
  intros H. rewrite Z.mod_small by lia. lia.
Qed.

Lemma int_of_nativeint_range exitCode :
  - 2 ^ 31 <= int_of_nativeint exitCode < 2 ^ 31 /\
  (int_of_nativeint exitCode - exitCode) mod 2 ^ 32 = 0.
Proof.
  unfold int_of_nativeint.
  change (2 ^ 32) with 4294967296. change (2 ^ 31) with 2147483648.
  split; [pose proof (Z.mod_pos_bound (exitCode + 2147483648) 4294967296); lia|].
  Z.div_mod_to_equations. lia.
Qed.


End Port.



Lemma getStream_grants_the_stream_once_witness :
  exists b,
    forVM 0%nat sample_env = Some b /\
    forall head,
      _headOfStream b = Some head ->
      fst (getStream b) = Ok head /\
      streamAsked (snd (getStream b)) = true /\
      _asyncIONodeCount (snd (getStream b)) = _asyncIONodeCount b + 1.
Proof.
  eexists. split; [vm_compute; reflexivity|].
  intros head Hhead.
  destruct (getStream_grants_the_stream_once sample_unpickle sample_pack
              sample_acts sample_env 0%nat _ eq_refl eq_refl) as [H _].
  destruct (H head Hhead) as (H1 & H2 & H3 & _).
  auto.
Defined.


Lemma append_to_closed_port_is_dropped_witness :
  let b := closeStream (snd (getStream (new_BoostVM 1))) in
  receiveOnVMPort (SmallInt 5) b = b
  /\ receiveOnVMPort_buffer sample_unpickle [Byte.x01] b = b
  /\ sendToVMPort sample_pack 0%nat 0%nat (SmallInt 5)
       (onVM 0%nat (fun _ => b) (snd (addVM new_BoostEnvironment)))
     = (Ok tt, onVM 0%nat (fun _ => b) (snd (addVM new_BoostEnvironment))).
Proof.
  intros b.
  destruct (append_to_closed_port_is_dropped sample_unpickle sample_pack)
    as (Hv & Hb & _ & _ & Hs & _).
  split; [apply Hv; reflexivity|].
  split; [apply Hb; reflexivity|].
  apply (Hs 0%nat 0%nat (SmallInt 5) _ b); reflexivity.
Defined.

(** ** The registry *)

Section Registry.

Context (bootUnpickle : Buffer -> Value).
Context (picklePack : BoostVM -> option (Value -> res Buffer)).

Lemma map_identifier_evolve l l' :
  Forall2 same_identifier l l' -> map identifier l' = map identifier l.
Proof. induction 1 as [|x y l l' H _ IH]; cbn; [reflexivity|]. now rewrite H, IH. Qed.

Lemma sorted_snoc l x :
  StronglySorted Z.lt l -> Forall (fun i => i < x) l ->
  StronglySorted Z.lt (l ++ [x]).
Proof.
  induction 1 as [|a l Hs IH Ha]; intros Hx; cbn.
  - constructor; constructor.
  - apply Forall_cons_1 in Hx as [Hax Hx]. constructor; [now apply IH|].
    apply Forall_app. split; [exact Ha|]. constructor; [exact Hax|constructor].
Qed.

Lemma registry_ok_new : registry_ok new_BoostEnvironment.
Proof. split; [constructor|]. split; [constructor|]. cbn. lia. Qed.

Lemma registry_ok_perform a env env' :
  perform bootUnpickle picklePack a env = Running env' ->
  registry_ok env -> registry_ok env'.
Proof.
  intros H (Hs & Hr & H1).
  destruct (perform_cases bootUnpickle picklePack same_identifier
              (same_identifier_order bootUnpickle) _ _ _ H)
    as [[_ ->]|[HF Hn]]; unfold registry_ok.
  - rewrite by_rank_addVM, map_app. cbn. split; [|split].
    + apply sorted_snoc; [exact Hs|].
      eapply Forall_impl; [exact Hr|]. cbn. intros i Hi. lia.
    + apply Forall_app. split.
      * eapply Forall_impl; [exact Hr|]. cbn. intros i Hi. lia.
      * constructor; [lia|constructor].
    + lia.
  - rewrite (map_identifier_evolve _ _ HF), Hn. auto.
Qed.

Lemma registry_ok_reachable acts : forall env env',
  perform_all bootUnpickle picklePack acts env = Running env' ->
  registry_ok env -> registry_ok env'.
Proof.
  induction acts as [|a acts IH]; intros env env' H Hok; cbn in H.
  - now injection H as <-.
  - destruct (perform bootUnpickle picklePack a env) as [env1|] eqn:E;
      [|discriminate].
    eapply IH; [exact H|]. eapply registry_ok_perform; eauto.
Qed.

Lemma getVM_scan_None identifier' l :
  getVM_scan identifier' l = None <->
  Forall (fun b => identifier b <> identifier') l.
Proof.
  induction l as [|b l IH]; cbn.
  - split; [constructor|reflexivity].
  - destruct (Z.eqb_spec (identifier b) identifier') as [E|E].
    + split; [discriminate|]. intros H. apply Forall_cons_1 in H as [H _]. congruence.
    + rewrite IH. split; [now constructor|].
      intros H. now apply Forall_cons_1 in H as [_ H].
Qed.

Lemma getVM_scan_Some identifier' l vm :
  getVM_scan identifier' l = Some vm ->
  exists front b back,
    l = front ++ b :: back /\
    Forall (fun x => identifier x <> identifier') front /\
    identifier b = identifier' /\
    vm = length back.
Proof.
  induction l as [|x l IH]; cbn; [discriminate|].
  destruct (Z.eqb_spec (identifier x) identifier') as [E|E].
  - intros H. injection H as <-. exists [], x, l. repeat split; auto.
  - intros H. destruct (IH H) as (front & b & back & -> & Hf & Hb & Hvm).
    exists (x :: front), b, back. repeat split; auto.
Qed.

Lemma forVM_split env front b back :
  vms env = front ++ b :: back -> forVM (length back) env = Some b.
Proof.
  intros H. unfold forVM, by_rank. rewrite H, rev_app_distr. cbn.
  rewrite <- app_assoc. cbn.
  rewrite lookup_app_r by (rewrite length_rev; lia).
  now rewrite length_rev, Nat.sub_diag.
Qed.

(** C8: [getVM] scans the list from its front and returns the first VM with
    the identifier asked for, whether it has terminated or not; it raises
    exactly when no VM of the list has that identifier, as is the case, in
    every state the process reaches, for an identifier that was never
    allocated (below 1, or from the next identifier on); any VM of the list
    with the identifier, running or not, makes it succeed. *)
Theorem getVM_raises_iff_no_match :
  (forall identifier' env,
      getVM identifier' env = Raised "Invalid VM identifier: " [SmallInt identifier']
      <-> Forall (fun b => identifier b <> identifier') (vms env)) /\
  (forall identifier' env vm,
      getVM identifier' env = Ok vm ->
      exists front b back,
        vms env = front ++ b :: back /\
        Forall (fun x => identifier x <> identifier') front /\
        identifier b = identifier' /\
        forVM vm env = Some b) /\
  (forall identifier' env,
      (exists vm, getVM identifier' env = Ok vm) \/
      getVM identifier' env = Raised "Invalid VM identifier: " [SmallInt identifier']) /\
  (forall acts env identifier',
      perform_all bootUnpickle picklePack acts new_BoostEnvironment = Running env ->
      identifier' < 1 \/ _nextVMIdentifier env <= identifier' ->
      getVM identifier' env = Raised "Invalid VM identifier: " [SmallInt identifier']) /\
  (forall identifier' env b,
      In b (vms env) -> identifier b = identifier' ->
      exists vm, getVM identifier' env = Ok vm).
Proof.
  assert (Hiff : forall identifier' env,
      getVM identifier' env = Raised "Invalid VM identifier: " [SmallInt identifier']
      <-> Forall (fun b => identifier b <> identifier') (vms env)).
  { intros i env. rewrite <- getVM_scan_None. unfold getVM.
    destruct (getVM_scan i (vms env)); split; congruence. }
  split; [exact Hiff|]. split; [|split; [|split]].
  - intros i env vm H. unfold getVM in H.
    destruct (getVM_scan i (vms env)) as [vm'|] eqn:E; [|discriminate].
    injection H as ->.
    destruct (getVM_scan_Some _ _ _ E) as (front & b & back & Hl & Hf & Hb & ->).
    exists front, b, back. repeat split; auto. eapply forVM_split; eauto.
  - intros i env. unfold getVM. destruct (getVM_scan i (vms env)); eauto.
  - intros acts env i Hreach Hi. apply Hiff.
    destruct (registry_ok_reachable acts _ _ Hreach registry_ok_new)
      as (_ & Hr & _).
    unfold by_rank in Hr.
    apply List.Forall_forall. intros b Hin Heq.
    rewrite List.Forall_forall in Hr.
    specialize (Hr (identifier b)).
    assert (In (identifier b) (map identifier (rev (vms env)))) as Hin'.
    { apply in_map. now apply in_rev in Hin. }
    apply Hr in Hin'. lia.
  - intros i env b Hin Hb. unfold getVM.
    destruct (getVM_scan i (vms env)) as [vm|] eqn:E; [eauto|].
    apply getVM_scan_None in E. rewrite List.Forall_forall in E.
    now destruct (E b Hin).
Qed.

Lemma fold_listVMs l : forall acc,
  fold_left
    (fun list boostVM =>
       if isRunning boostVM then identifier boostVM :: list else list) l acc
  = map identifier (List.filter isRunning (rev l)) ++ acc.
Proof.
  induction l as [|b l IH]; intros acc; cbn; [reflexivity|].
  rewrite IH, List.filter_app, map_app. cbn.
  destruct (isRunning b); cbn; now rewrite <- app_assoc.
Qed.

Lemma listVMs_by_rank env :
  listVMs env = map identifier (List.filter isRunning (by_rank env)).
Proof. unfold listVMs. rewrite fold_listVMs. apply app_nil_r. Qed.

Lemma sorted_filter (P : BoostVM -> bool) l :
  StronglySorted Z.lt (map identifier l) ->
  StronglySorted Z.lt (map identifier (List.filter P l)).
Proof.
  induction l as [|b l IH]; cbn; intros H; [constructor|].
  apply StronglySorted_inv in H as [Hs Hb].
  destruct (P b); cbn; [|now apply IH].
  constructor; [now apply IH|].
  rewrite !List.Forall_forall in *. intros x Hx. apply Hb.
  apply in_map_iff in Hx as (y & <- & Hy). apply in_map.
  now apply List.filter_In in Hy as [Hy _].
Qed.

(** C10: [addVM] puts the new VM at the front of the list; [listVMs] conses
    during its front-to-back traversal, so its result lists, in creation
    order, the identifiers of exactly the VMs whose termination flag is not
    set; in every state the process reaches this is ascending order of
    identifiers. *)
Theorem listVMs_running_in_creation_order :
  (forall env,
      vms (snd (addVM env)) = new_BoostVM (_nextVMIdentifier env) :: vms env /\
      _nextVMIdentifier (snd (addVM env)) = _nextVMIdentifier env + 1) /\
  (forall env,
      listVMs env = map identifier (List.filter isRunning (rev (vms env)))) /\
  (forall env x,
      In x (listVMs env) <->
      exists b, In b (vms env) /\ identifier b = x /\ _terminated b = false) /\
  (forall acts env,
      perform_all bootUnpickle picklePack acts new_BoostEnvironment = Running env ->
      StronglySorted Z.lt (listVMs env)).
Proof.
  split; [intros env; split; reflexivity|].
  split; [exact listVMs_by_rank|]. split.
  - intros env x. rewrite listVMs_by_rank, in_map_iff. unfold by_rank.
    split.
    + intros (b & Hb & Hin). apply List.filter_In in Hin as [Hin Hrun].
      exists b. split; [now apply in_rev|]. split; [exact Hb|].
      unfold isRunning in Hrun. now destruct (_terminated b).
    + intros (b & Hin & Hb & Ht). exists b. split; [exact Hb|].
      apply List.filter_In. split; [now apply in_rev in Hin|].
      unfold isRunning. now rewrite Ht.
  - intros acts env Hreach. rewrite listVMs_by_rank. apply sorted_filter.
    now destruct (registry_ok_reachable acts _ _ Hreach registry_ok_new).
Qed.

End Registry.

Lemma getVM_raises_iff_no_match_witness :
  getVM 3 sample_env = Raised "Invalid VM identifier: " [SmallInt 3]
  /\ getVM 0 sample_env = Raised "Invalid VM identifier: " [SmallInt 0]
  /\ exists front b back,
       vms sample_env = front ++ b :: back /\
       Forall (fun x => identifier x <> 1) front /\
       identifier b = 1 /\ forVM 0%nat sample_env = Some b.
Proof.
  destruct (getVM_raises_iff_no_match sample_unpickle sample_pack)
    as (_ & Hfound & _ & Hnever & _).
  split; [|split].
  - apply (Hnever sample_acts sample_env 3 eq_refl). right.
    vm_compute. discriminate.
  - apply (Hnever sample_acts sample_env 0 eq_refl). left. lia.
  - apply (Hfound 1 sample_env 0%nat). reflexivity.
Defined.

(** C8 as stated fails: the scan does not test whether a VM is running.  In
    the sample process run to its end the second VM has terminated and is
    not listed by [listVMs], so that no running VM has the identifier 2, and
    [getVM] still returns it. *)
Lemma getVM_returns_a_terminated_VM :
  getVM 2 sample_end = Ok 1%nat
  /\ (_terminated <$> forVM 1%nat sample_end) = Some true
  /\ ~ In 2 (listVMs sample_end)
  /\ ~ (exists b, In b (vms sample_end) /\ identifier b = 2 /\ isRunning b = true)
  /\ ~ (forall identifier' env,
          getVM identifier' env
          = Raised "Invalid VM identifier: " [SmallInt identifier']
          <-> ~ (exists b, In b (vms env) /\ identifier b = identifier'
                           /\ isRunning b = true)).
Proof.
  assert (Efound : getVM 2 sample_end = Ok 1%nat) by (vm_compute; reflexivity).
  assert (Elist : listVMs sample_end = [1]) by (vm_compute; reflexivity).
  assert (Evms : map (fun b => (identifier b, isRunning b)) (vms sample_end)
                 = [(2, false); (1, true)]) by (vm_compute; reflexivity).
  assert (Hnone : ~ (exists b, In b (vms sample_end) /\ identifier b = 2
                               /\ isRunning b = true)).
  { intros (b & Hin & Hi & Hr).
    apply (in_map (fun b => (identifier b, isRunning b))) in Hin.
    rewrite Evms, Hi, Hr in Hin.
    destruct Hin as [H|[H|[]]]; discriminate H. }
  split; [exact Efound|]. split; [vm_compute; reflexivity|]. split.
  { rewrite Elist. intros [H|[]]. discriminate H. }
  split; [exact Hnone|].
  intros H. apply (H 2 sample_end) in Hnone. rewrite Efound in Hnone.
  discriminate Hnone.
Qed.

Lemma listVMs_running_in_creation_order_witness :
  StronglySorted Z.lt (listVMs sample_env)
  /\ (In 2 (listVMs sample_env) <->
      exists b, In b (vms sample_env) /\ identifier b = 2 /\ _terminated b = false).
Proof.
  destruct (listVMs_running_in_creation_order sample_unpickle sample_pack)
    as (_ & _ & Hin & Hsorted).
  split.
  - apply (Hsorted sample_acts sample_env). reflexivity.
  - apply Hin.
Defined.

(** ** Termination *)

Section Termination.

Context (bootUnpickle : Buffer -> Value).
Context (picklePack : BoostVM -> option (Value -> res Buffer)).

Lemma perform_all_app a1 : forall a2 env,
  perform_all bootUnpickle picklePack (a1 ++ a2) env
  = match perform_all bootUnpickle picklePack a1 env with
    | Running e => perform_all bootUnpickle picklePack a2 e
    | Exited c => Exited c
    end.
Proof.
  induction a1 as [|a a1 IH]; intros a2 env; cbn; [reflexivity|].
  destruct (perform bootUnpickle picklePack a env); [apply IH|reflexivity].
Qed.

Lemma journal_ok_reachable acts env :
  perform_all bootUnpickle picklePack acts new_BoostEnvironment = Running env ->
  forall vm b, forVM vm env = Some b -> journal_ok b.
Proof.
  intros Hreach vm b Hb.
  assert (Hinv : Forall journal_ok (by_rank env)).
  { eapply (perform_all_invariant bootUnpickle picklePack terminates_once
              (terminates_once_order bootUnpickle) journal_ok);
      [| |exact Hreach|constructor].
    - intros i. split; reflexivity.
    - intros x y [H _]. exact H. }
  eapply Forall_lookup_1; eauto.
Qed.

Lemma closeStream_set_terminated t b :
  closeStream (set_terminated t b) = set_terminated t (closeStream b).
Proof. unfold_ops. destruct b; cbn. split_matches; reflexivity. Qed.

Lemma terminate_ends_terminated acts env this b :
  perform_all bootUnpickle picklePack acts new_BoostEnvironment = Running env ->
  forVM this env = Some b ->
  exists b',
    forVM this (terminate this env) = Some b' /\ _terminated b' = true /\
    journal b' = [DidCloseStream; DidTellMonitors; DidDeleteWork] /\
    _work b' = false.
Proof.
  intros Hreach Hb.
  assert (Hreach' : perform_all bootUnpickle picklePack
                      (acts ++ [ActTerminate this]) new_BoostEnvironment
                    = Running (terminate this env)).
  { rewrite perform_all_app, Hreach. reflexivity. }
  assert (Hterm : exists b', forVM this (terminate this env) = Some b'
                             /\ _terminated b' = true).
  { destruct (_terminated b) eqn:Ht.
    - exists b. split; [|exact Ht].
      rewrite terminate_idle; [exact Hb|]. intros x Hx. congruence.
    - exists (terminate_self (told this b) b). split.
      + rewrite (terminate_forVM this env b Hb Ht), Hb. cbn.
        now rewrite decide_True by reflexivity.
      + unfold terminate_self. rewrite closeStream_set_terminated.
        now destruct (closeStream b). }
  destruct Hterm as (b' & Hb' & Ht').
  exists b'. split; [exact Hb'|]. split; [exact Ht'|].
  destruct (journal_ok_reachable _ _ Hreach' this b' Hb') as [Hj Hw].
  rewrite Ht' in Hj, Hw. auto.
Qed.

(** When [run] returns, it returns from [terminate], called on a state the
    process reaches by the actions of the loop. *)
Lemma run_reaches steps this : forall env env',
  run bootUnpickle steps this env = Some env' ->
  exists acts2 env2,
    perform_all bootUnpickle picklePack acts2 env = Running env2 /\
    env' = terminate this env2 /\
    is_Some (forVM this env2).
Proof.
  induction steps as [|[[refTime clock] pair] rest IH]; intros env env' H;
    cbn [run] in H; [discriminate|].
  set (env1 := onVM this (step_begin refTime clock) env) in *.
  destruct (step_end bootUnpickle this pair env1) as [[[env2 how] ran]|] eqn:Hs;
    [|discriminate].
  cbn in H.
  assert (Hvalid : is_Some (forVM this env2)).
  { destruct (forVM this env1) as [b1|] eqn:Hb1.
    - destruct (step_end_evolve bootUnpickle same_identifier
                  (same_identifier_order bootUnpickle) _ _ _ _ _ _ Hs) as [HF _].
      destruct (Forall2_lookup_l _ _ _ _ _ HF Hb1) as (b2 & Hb2 & _). eauto.
    - unfold step_end, locked_block in Hs.
      rewrite forVM_onVM_eq, Hb1 in Hs. discriminate Hs. }
  assert (Hp : perform_all bootUnpickle picklePack
                 [ActStepBegin this refTime clock; ActStepEnd this pair] env
               = Running env2).
  { cbn. fold env1. now rewrite Hs. }
  destruct how.
  - injection H as <-. eauto.
  - destruct (IH _ _ H) as (acts2 & env3 & Hacts & -> & Hv).
    exists ([ActStepBegin this refTime clock; ActStepEnd this pair] ++ acts2), env3.
    split; [|auto]. now rewrite perform_all_app, Hp.
  - destruct (IH _ _ H) as (acts2 & env3 & Hacts & -> & Hv).
    exists ([ActStepBegin this refTime clock; ActStepEnd this pair; ActWake this]
              ++ acts2), env3.
    split; [|auto]. rewrite perform_all_app.
    replace (perform_all bootUnpickle picklePack
               [ActStepBegin this refTime clock; ActStepEnd this pair; ActWake this]
               env)
      with (Running (onVM this
                       (fun b => set_alarmTimer (cancel (alarmTimer b)) b) env2)).
    + exact Hacts.
    + cbn. fold env1. now rewrite Hs.
Qed.

(** C1: in every state the process reaches, the journal of each VM agrees
    with its termination flag: nothing while the flag is clear, and once it
    is set each effect of the guarded block exactly once (the stream closed
    as by [closeStream], the monitors told, the work released).  [terminate]
    on a running VM sets the flag, performs these effects, and appends to the
    queue of every VM one closure for each of its entries in the monitor
    list; [terminate] on a terminated VM changes nothing; the flag is never
    reset and the journal of a terminated VM never changes again, whatever
    the process does; and the call of [terminate] that follows the loop
    always ends with the VM terminated and each effect performed once, so
    that this is the state of the VM whenever [run] returns. *)
Theorem terminate_takes_effect_once acts env :
  perform_all bootUnpickle picklePack acts new_BoostEnvironment = Running env ->
  (forall vm b, forVM vm env = Some b -> journal_ok b) /\
  (forall this b,
      forVM this env = Some b -> _terminated b = false ->
      exists b',
        forVM this (terminate this env) = Some b' /\
        _terminated b' = true /\
        journal b' = [DidCloseStream; DidTellMonitors; DidDeleteWork] /\
        _work b' = false /\
        store b' = store (closeStream b) /\
        _stream b' = _stream (closeStream b) /\
        _asyncIONodeCount b' = _asyncIONodeCount (closeStream b) /\
        forall vm bv,
          forVM vm env = Some bv ->
          events vm (terminate this env) = _vmEventsCallbacks bv ++ told vm b) /\
  (forall this b,
      forVM this env = Some b -> _terminated b = true ->
      terminate this env = env) /\
  (forall acts2 env2 vm b,
      forVM vm env = Some b -> _terminated b = true ->
      perform_all bootUnpickle picklePack acts2 env = Running env2 ->
      exists b2,
        forVM vm env2 = Some b2 /\ _terminated b2 = true /\
        journal b2 = journal b /\ _work b2 = _work b) /\
  (forall this b,
      forVM this env = Some b ->
      exists b',
        forVM this (terminate this env) = Some b' /\ _terminated b' = true /\
        journal b' = [DidCloseStream; DidTellMonitors; DidDeleteWork] /\
        _work b' = false) /\
  (forall steps this env',
      run bootUnpickle steps this env = Some env' ->
      exists b',
        forVM this env' = Some b' /\ _terminated b' = true /\
        journal b' = [DidCloseStream; DidTellMonitors; DidDeleteWork] /\
        _work b' = false).
Proof.
  intros Hreach.
  pose proof (journal_ok_reachable acts env Hreach) as Hok.
  split; [exact Hok|]. split; [|split; [|split; [|split]]].
  - intros this b Hb Ht.
    pose proof (terminate_forVM this env b Hb Ht) as Hall.
    exists (terminate_self (told this b) b). split.
    { rewrite Hall, Hb. cbn. now rewrite decide_True by reflexivity. }
    destruct (Hok this b Hb) as [Hj _]. rewrite Ht in Hj.
    unfold terminate_self. rewrite closeStream_set_terminated.
    destruct (closeStream_core b) as (_ & _ & _ & _ & Hcj & _).
    destruct (closeStream b) eqn:Ec. cbn in *.
    split; [reflexivity|]. split; [now rewrite Hcj, Hj|].
    split; [reflexivity|]. split; [reflexivity|]. split; [reflexivity|].
    split; [reflexivity|].
    intros vm bv Hbv. unfold events. rewrite Hall, Hbv. cbn.
    destruct (decide (this = vm)); [apply terminate_self_events|reflexivity].
  - intros this b Hb Ht. apply terminate_idle. intros b' Hb'. congruence.
  - intros acts2 env2 vm b Hb Ht H2.
    destruct (perform_all_forVM bootUnpickle picklePack terminates_once
                (terminates_once_order bootUnpickle) _ _ _ _ _ H2 Hb)
      as (b2 & Hb2 & Hj2 & Ht2).
    exists b2. split; [exact Hb2|]. split; [now apply Ht2|].
    destruct (Hj2 (Hok vm b Hb)) as [Hjb2 Hwb2].
    destruct (Hok vm b Hb) as [Hjb Hwb].
    rewrite (Ht2 Ht) in Hjb2, Hwb2. rewrite Ht in Hjb, Hwb.
    split; congruence.
  - intros this b Hb. eapply terminate_ends_terminated; eauto.
  - intros steps this env' Hrun.
    destruct (run_reaches steps this env env' Hrun)
      as (acts2 & env2 & Hacts & -> & [b2 Hb2]).
    eapply (terminate_ends_terminated (acts ++ acts2)); [|exact Hb2].
    now rewrite perform_all_app, Hreach.
Qed.

End Termination.

Lemma terminate_takes_effect_once_witness :
  exists b,
    forVM 1%nat sample_end = Some b /\
    _terminated b = true /\
    journal_ok b.
Proof.
  assert (E : perform_all sample_unpickle sample_pack sample_end_acts
                new_BoostEnvironment = Running sample_end)
    by (vm_compute; reflexivity).
  eexists. split; [vm_compute; reflexivity|]. split; [reflexivity|].
  refine (proj1 (terminate_takes_effect_once sample_unpickle sample_pack
                   sample_end_acts sample_end E) 1%nat _ _).
  vm_compute; reflexivity.
Defined.

(** The two orders of a kill racing with the end of the program: the kill
    closure is queued before the test of the loop (the drain runs it, the next
    iteration leaves the loop and [terminate] is called again), or between
    the test and the call of [terminate] (the closure stays in the queue).
    Either way the journal holds each effect once. *)
Example kill_before_the_test :
  match perform_all sample_unpickle sample_pack
          [ActAddVM; ActAddVM; ActKillVM 0 3;
           ActStepEnd 0 (recNeverInvokeAgain, 0);
           ActStepEnd 0 (recNeverInvokeAgain, 0);
           ActTerminate 0]
          new_BoostEnvironment with
  | Running env =>
      (journal <$> forVM 0%nat env)
      = Some [DidCloseStream; DidTellMonitors; DidDeleteWork]
  | Exited _ => False
  end.
Proof. reflexivity. Qed.

Example kill_after_the_test :
  match perform_all sample_unpickle sample_pack
          [ActAddVM; ActAddVM;
           ActStepEnd 0 (recNeverInvokeAgain, 0); ActKillVM 0 3;
           ActTerminate 0]
          new_BoostEnvironment with
  | Running env =>
      (journal <$> forVM 0%nat env)
      = Some [DidCloseStream; DidTellMonitors; DidDeleteWork]
      /\ events 0%nat env = [EvTerminate 0]
  | Exited _ => False
  end.
Proof. split; reflexivity. Qed.

(** [run] on the killed VM of the sample process: the first iteration drains
    the kill closure, the second leaves the loop. *)
Example run_returns_after_kill :
  match run sample_unpickle
          [(10, 10, (recNeverInvokeAgain, 0)); (11, 11, (recInvokeAgainNow, 0))]
          1%nat sample_env with
  | Some env =>
      (_terminated <$> forVM 1%nat env) = Some true
      /\ events 0%nat env
         = [EvReceiveBuffer 0 [Byte.x01]; EvTellTerminated 0 2]
  | None => False
  end.
Proof. vm_compute. split; reflexivity. Qed.

(** * Further properties *)

(** ** Percent-encoding and the boot loader *)

Section Loader_facts.

Import Loader.

Local Open Scope nat_scope.

Variable signed : bool.

Lemma lit_bounds c : (0 <= lit c < 256)%Z.
Proof. destruct c as [[] [] [] [] [] [] [] []]; vm_compute; split; congruence. Qed.

Lemma int_to_char_lit c : int_to_char (lit c) = c.
Proof. destruct c as [[] [] [] [] [] [] [] []]; reflexivity. Qed.

Lemma hex_value_hex_digit upper n :
  (0 <= n < 16)%Z -> hex_value (hex_digit upper n) = Some n.
Proof.
  intros Hn.
  assert (E : exists k, k < 16 /\ n = Z.of_nat k) by (exists (Z.to_nat n); lia).
  destruct E as (k & Hk & ->).
  destruct upper; do 16 (destruct k as [|k]; [reflexivity|]); lia.
Qed.

Lemma escape_byte_hex_digits upper c :
  escape_byte signed (hex_digit upper (lit c / 16)) (hex_digit upper (lit c mod 16))
  = c.
Proof.
  pose proof (lit_bounds c) as Hc.
  rewrite (escape_byte_hex signed _ _ (lit c / 16) (lit c mod 16)).
  - rewrite <- Z.div_mod by lia. apply int_to_char_lit.
  - apply hex_value_hex_digit. split; [apply Z.div_pos; lia|].
    apply Z.div_lt_upper_bound; lia.
  - apply hex_value_hex_digit. apply Z.mod_pos_bound. lia.
Qed.

Lemma scan_percent_encode esc upper s :
  esc "%"%char = true -> scan signed (percent_encode esc upper s) = s.
Proof.
  intros Hesc. induction s as [|c s IH]; [reflexivity|].
  cbn [percent_encode flat_map]. fold (percent_encode esc upper s).
  destruct (esc c) eqn:Ec.
  - cbn [app]. rewrite scan_escape, IH. f_equal. apply escape_byte_hex_digits.
  - cbn [app]. rewrite scan_literal, IH; [reflexivity|].
    left. apply Ascii.eqb_neq. intros ->. congruence.
Qed.

(** X2: [decodeURL] undoes percent-encoding: whatever set of characters the
    encoder writes as escapes, in upper- or lower-case digits, as long as it
    escapes '%' itself, decoding the encoded string gives the string back. *)
Theorem decodeURL_percent_encode esc upper s :
  esc "%"%char = true ->
  decodeURL signed (percent_encode esc upper s) = Some s.
Proof.
  intros Hesc. rewrite decodeURL_scan. f_equal. now apply scan_percent_encode.
Qed.

Lemma scan_length_bounds n : forall s,
  length s <= n ->
  length (scan signed s) <= length s /\ length s <= 3 * length (scan signed s).
Proof.
  induction n as [|n IH]; intros s Hn.
  - destruct s; [cbn; lia | cbn in Hn; lia].
  - destruct s as [|c t]; [cbn; lia|].
    destruct t as [|d1 [|d2 r]].
    + cbn. lia.
    + cbn. lia.
    + destruct (Ascii.eqb c "%") eqn:Ec.
      * apply Ascii.eqb_eq in Ec. subst c. rewrite scan_escape.
        destruct (IH r) as [H1 H2]; [cbn in Hn; lia|]. cbn [length]. lia.
      * rewrite scan_literal by now left.
        destruct (IH (d1 :: d2 :: r)) as [H1 H2]; [cbn in Hn |- *; lia|].
        cbn [length] in *. lia.
Qed.

(** X3: the output of [decodeURL] is never longer than its input (so the
    capacity reserved at line 283 is never exceeded), and never shorter than
    a third of it. *)
Theorem decodeURL_length s decoded :
  decodeURL signed s = Some decoded ->
  length decoded <= length s /\ length s <= 3 * length decoded.
Proof.
  rewrite decodeURL_scan. intros H. injection H as <-.
  now apply (scan_length_bounds (length s)).
Qed.

Lemma reached_literal c l i :
  Ascii.eqb c "%" = false -> reached (c :: l) (S i) = reached l i.
Proof. intros H. destruct l as [|x [|y r]]; cbn; now rewrite ?H. Qed.

Lemma reached_0 s : reached s 0 = true.
Proof. now destruct s. Qed.

Lemma reached_cut n : forall s1 s2,
  length s1 <= n ->
  (forall k, length s1 - 2 <= k -> k < length s1 -> s1 !! k <> Some "%"%char) ->
  reached (s1 ++ s2) (length s1) = true.
Proof.
  induction n as [|n IH]; intros s1 s2 Hn Hcut.
  - destruct s1; [apply reached_0 | cbn in Hn; lia].
  - destruct s1 as [|c t]; [apply reached_0|].
    destruct (Ascii.eqb c "%") eqn:Ec.
    + apply Ascii.eqb_eq in Ec. subst c.
      destruct t as [|d1 [|d2 t']].
      * exfalso. apply (Hcut 0); cbn; [lia | lia | reflexivity].
      * exfalso. apply (Hcut 0); cbn; [lia | lia | reflexivity].
      * cbn [app length reached]. cbn. apply IH; [cbn in Hn; lia|].
        intros k Hk1 Hk2. specialize (Hcut (S (S (S k)))). cbn in Hcut.
        apply Hcut; lia.
    + cbn [app length]. rewrite reached_literal by exact Ec.
      apply IH; [cbn in Hn; lia|].
      intros k Hk1 Hk2. specialize (Hcut (S k)). cbn in Hcut. apply Hcut; lia.
Qed.

(** X4: [decodeURL] distributes over a concatenation whose first part has no
    '%' among its last two characters: no escape straddles the cut. *)
Theorem decodeURL_app s1 s2 d1 d2 :
  (forall k, length s1 - 2 <= k -> k < length s1 -> s1 !! k <> Some "%"%char) ->
  decodeURL signed s1 = Some d1 ->
  decodeURL signed s2 = Some d2 ->
  decodeURL signed (s1 ++ s2) = Some (d1 ++ d2).
Proof.
  intros Hcut H1 H2. rewrite decodeURL_scan in *.
  injection H1 as <-. injection H2 as <-. f_equal.
  rewrite (scan_split_reached signed (length s1) (s1 ++ s2)).
  - now rewrite take_app_length, drop_app_length.
  - now apply (reached_cut (length s1)).
Qed.

Section BootLoader_facts.

Context (open_binary : list ascii -> option (list Byte.byte)).
Context (bootUnpickle : list Byte.byte -> res Value).

Lemma decodedURLToFilename_file path :
  decodedURLToFilename (str "file:" ++ path) = Some path.
Proof.
  unfold decodedURLToFilename.
  change (substr 0 (Some 5) (str "file:" ++ path)) with (Some (str "file:")).
  cbn [mbind option_bind].
  destruct (List.list_eq_dec ascii_dec (str "file:") (str "file:")) as [_|Hne];
    [reflexivity | now contradiction Hne].
Qed.

Lemma decodedURLToFilename_other url :
  take 5 url <> str "file:" -> decodedURLToFilename url = Some url.
Proof.
  intros H. unfold decodedURLToFilename.
  change (substr 0 (Some 5) url) with (Some (take 5 url)).
  cbn [mbind option_bind].
  destruct (List.list_eq_dec ascii_dec (take 5 url) (str "file:")) as [E|_];
    [now contradiction H | reflexivity].
Qed.

Lemma decodedURLToFilename_total url :
  exists filename, decodedURLToFilename url = Some filename.
Proof.
  destruct (List.list_eq_dec ascii_dec (take 5 url) (str "file:")) as [E|E].
  - exists (drop 5 url). rewrite <- (take_drop 5 url) at 1. rewrite E.
    apply decodedURLToFilename_file.
  - exists url. now apply decodedURLToFilename_other.
Qed.

Lemma c_str_no_nul name : ~ In Ascii.zero name -> c_str name = name.
Proof.
  induction name as [|c name IH]; intros H; cbn [c_str]; [reflexivity|].
  destruct (Ascii.eqb_spec c Ascii.zero) as [->|_].
  - destruct H. now left.
  - rewrite IH; [reflexivity|]. intros Hin. apply H. now right.
Qed.

Lemma c_str_cut name rest :
  ~ In Ascii.zero name -> c_str (name ++ Ascii.zero :: rest) = name.
Proof.
  induction name as [|c name IH]; intros H; cbn [c_str app]; [reflexivity|].
  destruct (Ascii.eqb_spec c Ascii.zero) as [->|_].
  - destruct H. now left.
  - rewrite IH; [reflexivity|]. intros Hin. apply H. now right.
Qed.

(** X5: the code of the default boot loader itself never throws and never
    reads out of bounds: the call returns false, returns true, or raises
    what the unpickler raised; [result] is assigned only when it returns
    true.  The file it opens is named by the decoded URL with one leading
    "file:" taken off (the prefix is recognised after decoding, so also when
    it is written with escapes), cut at its first NUL: for a
    percent-encoded "file:" followed by a path it opens the path, for a
    percent-encoded name that does not start with "file:" it opens the
    name, in both cases up to the first NUL. *)
Theorem defaultBootLoader_opens_decoded_path :
  (forall url result,
      exists outcome r,
        defaultBootLoader signed open_binary bootUnpickle url result
        = Some (outcome, r)
        /\ (outcome <> Ok true -> r = result)
        /\ (outcome = Ok false ->
            exists filename,
              decodedURLToFilename (scan signed url) = Some filename /\
              open_binary (c_str filename) = None)
        /\ (forall msg args,
               outcome = Raised msg args ->
               exists input, bootUnpickle input = Raised msg args)) /\
  (forall esc upper path result,
      esc "%"%char = true ->
      defaultBootLoader signed open_binary bootUnpickle
        (percent_encode esc upper (str "file:" ++ path)) result
      = Some (match open_binary (c_str path) with
              | None => (Ok false, result)
              | Some input =>
                  match bootUnpickle input with
                  | Ok unpickled => (Ok true, unpickled)
                  | Raised msg args => (Raised msg args, result)
                  end
              end)) /\
  (forall esc upper name result,
      esc "%"%char = true -> take 5 name <> str "file:" ->
      defaultBootLoader signed open_binary bootUnpickle
        (percent_encode esc upper name) result
      = Some (match open_binary (c_str name) with
              | None => (Ok false, result)
              | Some input =>
                  match bootUnpickle input with
                  | Ok unpickled => (Ok true, unpickled)
                  | Raised msg args => (Raised msg args, result)
                  end
              end)) /\
  (forall name, ~ In Ascii.zero name -> c_str name = name) /\
  (forall name rest,
      ~ In Ascii.zero name -> c_str (name ++ Ascii.zero :: rest) = name).
Proof.
  split; [|split; [|split; [|split]]].
  - intros url result. unfold defaultBootLoader.
    rewrite decodeURL_scan. cbn [mbind option_bind].
    destruct (decodedURLToFilename_total (scan signed url)) as (f & Hf).
    rewrite Hf. cbn [mbind option_bind].
    destruct (open_binary (c_str f)) as [input|] eqn:Eo.
    + destruct (bootUnpickle input) as [unpickled|msg args] eqn:Eu;
        eexists _, _; (split; [reflexivity|]).
      * split; [congruence|]. split; [discriminate|]. discriminate.
      * split; [reflexivity|]. split; [discriminate|].
        intros msg' args' H. injection H as <- <-. eauto.
    + eexists _, _. split; [reflexivity|]. split; [reflexivity|].
      split; [eauto | discriminate].
  - intros esc upper path result Hesc. unfold defaultBootLoader.
    rewrite decodeURL_scan, scan_percent_encode by exact Hesc.
    cbn [mbind option_bind].
    rewrite decodedURLToFilename_file. cbn [mbind option_bind].
    destruct (open_binary (c_str path)) as [input|]; [|reflexivity].
    now destruct (bootUnpickle input).
  - intros esc upper name result Hesc Hname. unfold defaultBootLoader.
    rewrite decodeURL_scan, scan_percent_encode by exact Hesc.
    cbn [mbind option_bind].
    rewrite decodedURLToFilename_other by exact Hname. cbn [mbind option_bind].
    destruct (open_binary (c_str name)) as [input|]; [|reflexivity].
    now destruct (bootUnpickle input).
  - exact c_str_no_nul.
  - exact c_str_cut.
Qed.

End BootLoader_facts.

End Loader_facts.

Lemma decodeURL_percent_encode_witness :
  decodeURL true
    (Loader.percent_encode (fun c => Ascii.eqb c "%" || Ascii.eqb c " ") true
       (str "100% of a b"))
  = Some (str "100% of a b").
Proof.
  apply (decodeURL_percent_encode true). reflexivity.
Defined.

Lemma decodeURL_length_witness :
  (length (str "a/b") <= length (str "a%2Fb"))%nat
  /\ (length (str "a%2Fb") <= 3 * length (str "a/b"))%nat.
Proof.
  apply (decodeURL_length true (str "a%2Fb") (str "a/b")). reflexivity.
Defined.

Lemma decodeURL_app_witness :
  decodeURL true (str "%41bc" ++ str "%42") = Some (str "Abc" ++ str "B").
Proof.
  apply (decodeURL_app true (str "%41bc") (str "%42")); [|reflexivity|reflexivity].
  intros k Hk1 Hk2. cbn in Hk1, Hk2.
  destruct k as [|[|[|[|[|k]]]]]; try lia; discriminate.
Defined.

Lemma defaultBootLoader_opens_decoded_path_witness :
  Loader.defaultBootLoader true Loader.sample_open Loader.sample_boot_unpickle
    (Loader.percent_encode
       (fun c => Ascii.eqb c "%" || Ascii.eqb c Ascii.zero) false
       (str "file:" ++ str "/x.ozf" ++ Ascii.zero :: str "junk"))
    (Atom "unset")
  = Some (Ok true, sample_unpickle [Byte.x2a])
  /\ Loader.defaultBootLoader true Loader.sample_open Loader.sample_boot_unpickle
       (Loader.percent_encode (fun c => negb (Ascii.eqb c "/")) false
          (str "file:" ++ str "/empty.ozf"))
       (Atom "unset")
     = Some (Raised "empty pickle" [], Atom "unset").
Proof.
  split.
  - exact (proj1 (proj2 (defaultBootLoader_opens_decoded_path true
                           Loader.sample_open Loader.sample_boot_unpickle))
             (fun c => Ascii.eqb c "%" || Ascii.eqb c Ascii.zero) false
             (str "/x.ozf" ++ Ascii.zero :: str "junk")
             (Atom "unset") eq_refl).
  - exact (proj1 (proj2 (defaultBootLoader_opens_decoded_path true
                           Loader.sample_open Loader.sample_boot_unpickle))
             (fun c => negb (Ascii.eqb c "/")) false (str "/empty.ozf")
             (Atom "unset") eq_refl).
Defined.

(** ** UUIDs *)

Section UUID_facts.

Import UUIDs.

Lemma uint8_bounds b : 0 <= uint8 b < 256.
Proof. pose proof (Byte.to_N_bounded b). unfold uint8. lia. Qed.

Lemma uint8_inj a b : uint8 a = uint8 b -> a = b.
Proof.
  unfold uint8. intros H. apply N2Z.inj in H.
  pose proof (Byte.of_to_N a) as Ha. pose proof (Byte.of_to_N b) as Hb.
  congruence.
Qed.

Lemma big_endian_bounds bytes :
  0 <= big_endian bytes < 256 ^ Z.of_nat (length bytes).
Proof.
  induction bytes as [|b rest IH]; cbn [big_endian length]; [cbn; lia|].
  pose proof (uint8_bounds b). rewrite Nat2Z.inj_succ, Z.pow_succ_r by lia.
  nia.
Qed.

Lemma big_endian_inj b1 : forall b2,
  length b1 = length b2 -> big_endian b1 = big_endian b2 -> b1 = b2.
Proof.
  induction b1 as [|x r1 IH]; intros [|y r2] Hlen H; try discriminate Hlen;
    [reflexivity|].
  injection Hlen as Hlen. cbn [big_endian] in H. rewrite Hlen in H.
  pose proof (big_endian_bounds r1) as B1. rewrite Hlen in B1.
  pose proof (big_endian_bounds r2) as B2.
  pose proof (uint8_bounds x). pose proof (uint8_bounds y).
  assert (uint8 x = uint8 y /\ big_endian r1 = big_endian r2) as [Hx Hr].
  { apply (Z.div_mod_unique (256 ^ Z.of_nat (length r2))); [lia | lia | lia]. }
  f_equal; [now apply uint8_inj | now apply IH].
Qed.

Lemma bytes2uint64_eight b0 b1 b2 b3 b4 b5 b6 b7 rest :
  bytes2uint64 (b0 :: b1 :: b2 :: b3 :: b4 :: b5 :: b6 :: b7 :: rest)
  = Some (big_endian [b0; b1; b2; b3; b4; b5; b6; b7]).
Proof.
  pose proof (uint8_bounds b0). pose proof (uint8_bounds b1).
  pose proof (uint8_bounds b2). pose proof (uint8_bounds b3).
  pose proof (uint8_bounds b4). pose proof (uint8_bounds b5).
  pose proof (uint8_bounds b6). pose proof (uint8_bounds b7).
  cbn [bytes2uint64 lookup list_lookup mbind option_bind big_endian length].
  f_equal. unfold add64, shl64, wrap64.
  rewrite !Z.shiftl_mul_pow2 by lia.
  change (2 ^ 64) with 18446744073709551616.
  change (2 ^ 56) with 72057594037927936.
  change (2 ^ 48) with 281474976710656.
  change (2 ^ 40) with 1099511627776.
  change (2 ^ 32) with 4294967296.
  change (2 ^ 24) with 16777216.
  change (2 ^ 16) with 65536.
  change (2 ^ 8) with 256.
  change (2 ^ 0) with 1.
  change (256 ^ Z.of_nat 7) with 72057594037927936.
  change (256 ^ Z.of_nat 6) with 281474976710656.
  change (256 ^ Z.of_nat 5) with 1099511627776.
  change (256 ^ Z.of_nat 4) with 4294967296.
  change (256 ^ Z.of_nat 3) with 16777216.
  change (256 ^ Z.of_nat 2) with 65536.
  change (256 ^ Z.of_nat 1) with 256.
  change (256 ^ Z.of_nat 0) with 1.
  Z.div_mod_to_equations. lia.
Qed.

Lemma bytes2uint64_long bytes :
  (8 <= length bytes)%nat ->
  bytes2uint64 bytes = Some (big_endian (take 8 bytes)).
Proof.
  intros H.
  do 8 (destruct bytes as [|? bytes]; [cbn in H; lia|]).
  apply bytes2uint64_eight.
Qed.

Lemma bytes2uint64_short bytes :
  (length bytes < 8)%nat -> bytes2uint64 bytes = None.
Proof.
  intros H.
  do 8 (destruct bytes as [|? bytes]; [reflexivity|]).
  cbn in H. lia.
Qed.

Lemma genUUID_sixteen uuid :
  length uuid = 16%nat ->
  genUUID uuid
  = Some (mkUUID (big_endian (take 8 uuid)) (big_endian (drop 8 uuid))).
Proof.
  intros H. unfold genUUID.
  rewrite (bytes2uint64_long uuid) by (rewrite H; lia).
  cbn [mbind option_bind].
  rewrite (bytes2uint64_long (drop 8 uuid)) by (rewrite length_drop, H; cbn; lia).
  cbn [mbind option_bind].
  rewrite (take_ge (drop 8 uuid)) by (rewrite length_drop, H; cbn; lia).
  reflexivity.
Qed.

(** X1: [bytes2uint64] reads eight bytes as one big-endian number below
    2^64, without overflow, and reads out of bounds when given fewer; so
    [genUUID] keeps all 128 bits of the sixteen bytes it is given: two
    different byte sequences never give the same UUID. *)
Theorem genUUID_keeps_all_bits :
  (forall bytes,
      (8 <= length bytes)%nat ->
      bytes2uint64 bytes = Some (big_endian (take 8 bytes))
      /\ 0 <= big_endian (take 8 bytes) < 2 ^ 64) /\
  (forall bytes, (length bytes < 8)%nat -> bytes2uint64 bytes = None) /\
  (forall uuid,
      length uuid = 16%nat ->
      genUUID uuid
      = Some (mkUUID (big_endian (take 8 uuid)) (big_endian (drop 8 uuid)))) /\
  (forall uuid1 uuid2,
      length uuid1 = 16%nat -> length uuid2 = 16%nat ->
      genUUID uuid1 = genUUID uuid2 -> uuid1 = uuid2).
Proof.
  split; [|split; [|split]].
  - intros bytes H. split; [now apply bytes2uint64_long|].
    pose proof (big_endian_bounds (take 8 bytes)) as B.
    rewrite length_take, Nat.min_l in B by lia. exact B.
  - apply bytes2uint64_short.
  - apply genUUID_sixteen.
  - intros u1 u2 H1 H2 H.
    rewrite !genUUID_sixteen in H by assumption.
    injection H as Ha Hb.
    apply big_endian_inj in Ha; [|rewrite !length_take; lia].
    apply big_endian_inj in Hb; [|rewrite !length_drop; lia].
    rewrite <- (take_drop 8 u1), <- (take_drop 8 u2). congruence.
Qed.

End UUID_facts.

Lemma genUUID_keeps_all_bits_witness :
  UUIDs.bytes2uint64
    [Byte.x01; Byte.x02; Byte.x03; Byte.x04; Byte.x05; Byte.x06; Byte.x07;
     Byte.x08; Byte.xff]
  = Some (UUIDs.big_endian
            (take 8 [Byte.x01; Byte.x02; Byte.x03; Byte.x04; Byte.x05;
                     Byte.x06; Byte.x07; Byte.x08; Byte.xff]))
  /\ UUIDs.bytes2uint64 [Byte.x01; Byte.x02] = None.
Proof.
  destruct genUUID_keeps_all_bits as (Hlong & Hshort & _).
  split.
  - apply Hlong. cbn. lia.
  - apply Hshort. cbn. lia.
Defined.

(** ** The stream and its count *)

Section Stream_facts.

Context (bootUnpickle : Buffer -> Value).
Context (picklePack : BoostVM -> option (Value -> res Buffer)).

Lemma count_ok_frame b b' :
  _headOfStream b' = _headOfStream b ->
  portClosed b' = portClosed b ->
  _asyncIONodeCount b' = _asyncIONodeCount b ->
  count_ok b -> count_ok b'.
Proof.
  intros Hh Hp Hc. unfold count_ok, streamAsked. now rewrite Hh, Hp, Hc.
Qed.

Lemma count_ok_getStream b : count_ok b -> count_ok (snd (getStream b)).
Proof.
  intros Hok. unfold getStream.
  destruct (_headOfStream b) as [head|] eqn:Eh; cbn; [|exact Hok].
  destruct Hok as [Hp Hc].
  unfold count_ok, streamAsked, portClosed in *. rewrite Eh in *.
  destruct b; cbn in *. destruct _stream0; cbn in *.
  - split; [reflexivity | lia].
  - discriminate (Hp eq_refl).
Qed.

Lemma count_ok_closeStream b : count_ok b -> count_ok (closeStream b).
Proof.
  intros Hok. unfold closeStream.
  destruct (streamAsked b && negb (portClosed b)) eqn:E; [|exact Hok].
  destruct Hok as [Hp Hc].
  rewrite E in Hc. apply andb_true_iff in E as [Ea Eo].
  unfold count_ok, streamAsked, portClosed in *.
  destruct b; cbn in *. destruct _stream0; cbn in *; [|discriminate Eo].
  destruct _headOfStream0; [discriminate Ea|]. cbn. split; [reflexivity | lia].
Qed.

Lemma keeps_count_order : VMOrder bootUnpickle keeps_count.
Proof.
  unfold keeps_count. split.
  - auto.
  - auto.
  - intros f Hf. induction Hf; intros b Hc;
      try (revert Hc; apply count_ok_frame; destruct b; reflexivity).
    + revert Hc. destruct (receiveOnVMPort_count v b) as (H1 & H2 & H3).
      now apply count_ok_frame.
    + rewrite receiveOnVMPort_buffer_eq. revert Hc.
      destruct (receiveOnVMPort_count (bootUnpickle buffer) b) as (H1 & H2 & H3).
      now apply count_ok_frame.
    + now apply count_ok_getStream.
    + now apply count_ok_closeStream.
    + auto.
  - intros b evs _ Hc. unfold terminate_self.
    assert (H1 : count_ok (closeStream (set_terminated true b))).
    { apply count_ok_closeStream. revert Hc.
      apply count_ok_frame; destruct b; reflexivity. }
    revert H1. apply count_ok_frame; destruct (closeStream _); reflexivity.
Qed.

Lemma count_ok_reachable acts env :
  perform_all bootUnpickle picklePack acts new_BoostEnvironment = Running env ->
  forall vm b, forVM vm env = Some b -> count_ok b.
Proof.
  intros Hreach vm b Hb.
  assert (Hinv : Forall count_ok (by_rank env)).
  { eapply (perform_all_invariant bootUnpickle picklePack keeps_count
              keeps_count_order count_ok);
      [| |exact Hreach|constructor].
    - intros i. split; [discriminate | reflexivity].
    - intros x y H. exact H. }
  eapply Forall_lookup_1; eauto.
Qed.

(** X6: as far as the actions of this file go, the count of asynchronous I/O
    nodes of a VM is 1 exactly while its stream has been asked for and its
    port is still open, and 0 otherwise, in every state the process reaches;
    so a running VM with an empty queue whose interpreter returns "never
    invoke again" leaves its loop unless it has asked for its stream and not
    closed it, in which case it waits, with no alarm. *)
Theorem stream_asked_and_open_keeps_the_loop acts env this b :
  perform_all bootUnpickle picklePack acts new_BoostEnvironment = Running env ->
  forVM this env = Some b ->
  _asyncIONodeCount b = (if streamAsked b && negb (portClosed b) then 1 else 0) /\
  (portClosed b = true -> streamAsked b = true) /\
  (isRunning b = true -> _vmEventsCallbacks b = [] ->
   forall t, exists env',
     step_end bootUnpickle this (recNeverInvokeAgain, t) env
     = Some (env',
             if streamAsked b && negb (portClosed b) then LoopWait None
             else LoopBreak,
             [])).
Proof.
  intros Hreach Hb.
  destruct (count_ok_reachable acts env Hreach this b Hb) as [Hp Hc].
  split; [exact Hc|]. split; [exact Hp|].
  intros Hrun Hq t.
  destruct (step_end_cases bootUnpickle this (recNeverInvokeAgain, t) env b Hb)
    as [[Hnl Hs]|(Hnl & env1 & d1 & ran & Hd & env' & how & Hs & _ & Hhow)].
  - apply nothing_left_iff in Hnl. destruct Hnl as [Hnr|(_ & H0 & _)];
      [congruence|].
    rewrite H0 in Hc.
    destruct (streamAsked b && negb (portClosed b)); [discriminate|].
    eauto.
  - assert (Hne : streamAsked b && negb (portClosed b) = true).
    { destruct (streamAsked b && negb (portClosed b)); [reflexivity|].
      exfalso. assert (nothing_left recNeverInvokeAgain b = true);
        [|cbn in Hnl; congruence].
      apply nothing_left_iff. right. auto. }
    rewrite Hne.
    rewrite drain_empty in Hd.
    2:{ unfold events. rewrite forVM_onVM_eq, Hb. cbn. exact Hq. }
    injection Hd as <- <- <-. cbn in Hhow. subst how. eauto.
Qed.

Lemma closeStream_closed b : portClosed b = true -> closeStream b = b.
Proof.
  intros H. unfold closeStream. rewrite H. cbn. now rewrite andb_false_r.
Qed.

Lemma closeStream_not_asked b : streamAsked b = false -> closeStream b = b.
Proof. intros H. unfold closeStream. now rewrite H. Qed.

Lemma receiveOnVMPort_closed v b : portClosed b = true -> receiveOnVMPort v b = b.
Proof. intros H. unfold receiveOnVMPort. now rewrite H. Qed.

Lemma stays_closed_frame b b' :
  _stream b' = _stream b -> store b' = store b -> stays_closed b b'.
Proof. intros Hs Ht. unfold stays_closed, portClosed. rewrite Hs. auto. Qed.

Lemma stays_closed_order : VMOrder bootUnpickle stays_closed.
Proof.
  split.
  - intros b. now apply stays_closed_frame.
  - intros a b c H1 H2 Ha. destruct (H1 Ha) as [Hb E1].
    destruct (H2 Hb) as [Hc E2]. split; [exact Hc | congruence].
  - intros f Hf. induction Hf; intros b;
      try (apply stays_closed_frame; destruct b; reflexivity).
    + intros H. now rewrite receiveOnVMPort_closed.
    + intros H. now rewrite receiveOnVMPort_buffer_eq, receiveOnVMPort_closed.
    + apply stays_closed_frame; unfold getStream;
        destruct (_headOfStream b); destruct b; reflexivity.
    + intros H. now rewrite closeStream_closed.
    + intros H. destruct (IHHf1 b H) as [H1 E1].
      destruct (IHHf2 (f b) H1) as [H2 E2]. split; [exact H2 | congruence].
  - intros b evs _ H. unfold terminate_self.
    rewrite closeStream_closed by (destruct b; exact H).
    destruct b; cbn in *. auto.
Qed.

(** Reading a stream up to its end gives one result only. *)
Lemma stream_from_functional st head vs t :
  stream_from st head vs t ->
  forall vs' t' n n',
    st !! t = Some n -> (forall v r, n <> Cons v r) ->
    stream_from st head vs' t' ->
    st !! t' = Some n' -> (forall v r, n' <> Cons v r) ->
    vs = vs' /\ t = t'.
Proof.
  induction 1 as [r|r v r1 vs r' Hr Hs IH]; intros vs' t' n n' Hn Hnc H' Hn' Hnc'.
  - inversion H' as [|? v' r1' ? ? Hr' Hs']; subst; [auto|].
    rewrite Hn in Hr'. injection Hr' as ->. now destruct (Hnc v' r1').
  - inversion H' as [|? v' r1' ? ? Hr' Hs']; subst.
    + rewrite Hn' in Hr. injection Hr as ->. now destruct (Hnc' v r1).
    + rewrite Hr in Hr'. injection Hr' as <- <-.
      destruct (IH _ _ _ _ Hn Hnc Hs' Hn' Hnc') as [-> ->]. auto.
Qed.

Lemma reads_functional head vs vs' b :
  reads head vs b -> reads head vs' b -> vs = vs'.
Proof.
  intros (t & Hp & He) (t' & Hp' & He').
  destruct (_stream b) as [s|].
  - destruct He as [_ He]. destruct He' as [_ He'].
    eapply stream_from_functional; eauto; discriminate.
  - eapply stream_from_functional; eauto; discriminate.
Qed.

(** X7: [closeStream] does nothing while the stream has not been asked for
    (the port stays open) and nothing on a closed port, so it is idempotent;
    on a stream that was asked for and is open it takes one from the count
    of asynchronous I/O nodes and ends the stream with nil after the values
    it holds; and once the port is closed, whatever the process does
    afterwards, the stream read from any reference keeps exactly the values
    it had. *)
Theorem closeStream_ends_the_stream_for_good :
  (forall b, streamAsked b = false -> closeStream b = b) /\
  (forall b, closeStream (closeStream b) = closeStream b) /\
  (forall b head vs,
      streamAsked b = true -> portClosed b = false -> reads head vs b ->
      portClosed (closeStream b) = true /\
      _asyncIONodeCount (closeStream b) = _asyncIONodeCount b - 1 /\
      reads head vs (closeStream b)) /\
  (forall acts env env2 vm b head vs,
      forVM vm env = Some b -> portClosed b = true -> reads head vs b ->
      perform_all bootUnpickle picklePack acts env = Running env2 ->
      exists b2,
        forVM vm env2 = Some b2 /\ portClosed b2 = true /\
        reads head vs b2 /\
        forall vs', reads head vs' b2 -> vs' = vs).
Proof.
  split; [exact closeStream_not_asked|]. split; [|split].
  - intros b. destruct (portClosed (closeStream b)) eqn:E.
    + now apply closeStream_closed.
    + assert (H : closeStream b = b); [|rewrite H; exact H].
      unfold closeStream in *.
      destruct (streamAsked b && negb (portClosed b)); [|reflexivity].
      destruct (_stream b); [|reflexivity]. destruct b; discriminate E.
  - intros b head vs Ha Ho Hr. split; [|split].
    + unfold closeStream. rewrite Ha, Ho. cbn.
      unfold portClosed in Ho. destruct (_stream b); [|discriminate Ho].
      now destruct b.
    + unfold closeStream. rewrite Ha, Ho. cbn.
      unfold portClosed in Ho. destruct (_stream b); [|discriminate Ho].
      now destruct b.
    + now apply reads_closeStream.
  - intros acts env env2 vm b head vs Hb Hc Hr Hacts.
    destruct (perform_all_forVM bootUnpickle picklePack stays_closed
                stays_closed_order _ _ _ _ _ Hacts Hb) as (b2 & Hb2 & Hstay).
    destruct (Hstay Hc) as [Hc2 Hstore].
    assert (Hr2 : reads head vs b2).
    { apply (reads_frame head vs b b2); [exact Hstore| |exact Hr].
      unfold portClosed in Hc, Hc2.
      destruct (_stream b), (_stream b2); congruence. }
    exists b2. split; [exact Hb2|]. split; [exact Hc2|]. split; [exact Hr2|].
    intros vs' Hr'. eapply reads_functional; eauto.
Qed.

End Stream_facts.

Lemma stream_asked_and_open_keeps_the_loop_witness :
  exists env',
    step_end sample_unpickle 0%nat (recNeverInvokeAgain, 0)
      (snd (addVM new_BoostEnvironment))
    = Some (env', LoopBreak, []).
Proof.
  destruct (stream_asked_and_open_keeps_the_loop sample_unpickle sample_pack
              [ActAddVM] (snd (addVM new_BoostEnvironment)) 0%nat
              (new_BoostVM 1) eq_refl eq_refl) as (_ & _ & H).
  exact (H eq_refl eq_refl 0).
Defined.

Lemma closeStream_ends_the_stream_for_good_witness :
  let b := snd (getStream (new_BoostVM 1)) in
  portClosed (closeStream b) = true /\
  _asyncIONodeCount (closeStream b) = _asyncIONodeCount b - 1 /\
  reads 0%nat [] (closeStream b).
Proof.
  intros b.
  apply (proj1 (proj2 (proj2 (closeStream_ends_the_stream_for_good
                                sample_unpickle sample_pack))));
    [reflexivity | reflexivity |].
  exists 0%nat. split; [constructor|]. cbn. auto.
Defined.

(** ** Messages *)

Section Messages.

Context (bootUnpickle : Buffer -> Value).
Context (picklePack : BoostVM -> option (Value -> res Buffer)).

(** X8: a running VM whose port is open and whose queue holds only closures
    that deliver to it runs them all in one iteration of its loop: the
    values are appended to its stream in the order of the queue, after the
    values already there, the queue ends empty, the next iteration follows
    at once, and no other VM is touched. *)
Theorem queued_messages_reach_the_stream_in_order
    this pair env b head vs values :
  forVM this env = Some b ->
  isRunning b = true ->
  portClosed b = false ->
  reads head vs b ->
  _vmEventsCallbacks b <> [] ->
  deliveries bootUnpickle this (_vmEventsCallbacks b) = Some values ->
  exists env' b',
    step_end bootUnpickle this pair env
    = Some (env', LoopAgain, _vmEventsCallbacks b) /\
    forVM this env' = Some b' /\
    _vmEventsCallbacks b' = [] /\
    reads head (vs ++ values) b' /\
    (forall other, other <> this -> forVM other env' = forVM other env).
Proof.
  intros Hb Hrun Ho Hr Hne Hv.
  destruct (step_end_delivers bootUnpickle this pair env b head vs values
              Hb Hrun Ho Hr Hne Hv)
    as (env' & b' & Hs & Hb' & Hq' & _ & _ & Hr' & Hother).
  exists env', b'. auto.
Qed.

(** X9: [sendToVMPort] to a VM whose port is open raises, with the
    environment unchanged, when the sender has no [pickle.pack] property or
    when pickling raises; otherwise it appends one closure to the queue of
    the target and touches nothing else.  If the target is running and its
    queue holds only deliveries, its next iteration appends the unpickled
    buffer to its stream after the values queued before, so that the value
    sent itself arrives when unpickling undoes pickling. *)
Theorem sendToVMPort_delivers_through_the_queue
    vm to value env sender target :
  forVM vm env = Some sender ->
  forVM to env = Some target ->
  portClosed target = false ->
  (picklePack sender = None ->
   sendToVMPort picklePack vm to value env
   = (Raised "Could not find property pickle.pack" [], env)) /\
  (forall pack msg args,
      picklePack sender = Some pack -> pack value = Raised msg args ->
      sendToVMPort picklePack vm to value env = (Raised msg args, env)) /\
  (forall pack buffer,
      picklePack sender = Some pack -> pack value = Ok buffer ->
      exists env1,
        sendToVMPort picklePack vm to value env = (Ok tt, env1) /\
        events to env1 = _vmEventsCallbacks target ++ [EvReceiveBuffer to buffer] /\
        (forall other, other <> to -> forVM other env1 = forVM other env) /\
        _aliveVMs env1 = _aliveVMs env /\
        (forall head vs earlier pair,
            isRunning target = true ->
            reads head vs target ->
            deliveries bootUnpickle to (_vmEventsCallbacks target) = Some earlier ->
            exists env2 target2,
              step_end bootUnpickle to pair env1
              = Some (env2, LoopAgain,
                      _vmEventsCallbacks target ++ [EvReceiveBuffer to buffer]) /\
              forVM to env2 = Some target2 /\
              reads head (vs ++ earlier ++ [bootUnpickle buffer]) target2 /\
              (bootUnpickle buffer = value ->
               reads head (vs ++ earlier ++ [value]) target2))).
Proof.
  intros Hs Ht Ho. unfold sendToVMPort. rewrite Hs, Ht, Ho.
  split; [|split].
  - intros ->. reflexivity.
  - intros pack msg args -> ->. reflexivity.
  - intros pack buffer -> ->.
    set (env1 := onVM to (postVMEvent (EvReceiveBuffer to buffer)) env).
    set (target1 := postVMEvent (EvReceiveBuffer to buffer) target).
    assert (Ht1 : forVM to env1 = Some target1).
    { unfold env1. rewrite forVM_onVM_eq, Ht. reflexivity. }
    exists env1. split; [reflexivity|].
    split; [unfold events; now rewrite Ht1|].
    split; [intros other Hne; unfold env1; now rewrite forVM_onVM_ne by congruence|].
    split; [reflexivity|].
    intros head vs earlier pair Hrun Hr He.
    destruct (step_end_delivers bootUnpickle to pair env1 target1 head vs
                (earlier ++ [bootUnpickle buffer]) Ht1)
      as (env2 & target2 & Hstep & Ht2 & _ & _ & _ & Hr2 & _).
    + exact Hrun.
    + exact Ho.
    + apply (reads_frame head vs target target1); [reflexivity|reflexivity|exact Hr].
    + unfold target1, postVMEvent. cbn. now destruct (_vmEventsCallbacks target).
    + unfold target1, postVMEvent. cbn. apply deliveries_app; [exact He|].
      cbn. now rewrite Nat.eqb_refl.
    + exists env2, target2. split; [exact Hstep|]. split; [exact Ht2|].
      split; [exact Hr2|]. intros <-. exact Hr2.
Qed.

End Messages.

Lemma queued_messages_reach_the_stream_in_order_witness :
  exists env' b',
    step_end sample_unpickle 0%nat (recInvokeAgainLater, 50) sample_env
    = Some (env', LoopAgain, [EvReceiveBuffer 0 [Byte.x01]]) /\
    forVM 0%nat env' = Some b' /\
    _vmEventsCallbacks b' = [] /\
    reads 0%nat ([] ++ [sample_unpickle [Byte.x01]]) b' /\
    (forall other, other <> 0%nat -> forVM other env' = forVM other sample_env).
Proof.
  refine (queued_messages_reach_the_stream_in_order sample_unpickle 0%nat
            (recInvokeAgainLater, 50) sample_env
            (postVMEvent (EvReceiveBuffer 0 [Byte.x01]) (new_BoostVM 1))
            0%nat [] [sample_unpickle [Byte.x01]] _ _ _ _ _ _).
  - vm_compute. reflexivity.
  - reflexivity.
  - reflexivity.
  - exists 0%nat. split; [constructor|]. cbn. auto.
  - discriminate.
  - reflexivity.
Defined.

Lemma sendToVMPort_delivers_through_the_queue_witness :
  sendToVMPort sample_pack 1%nat 0%nat (Tuple "t" (SmallInt 1)) sample_env
  = (Raised "cannot pickle" [Tuple "t" (SmallInt 1)], sample_env).
Proof.
  refine (proj1 (proj2 (sendToVMPort_delivers_through_the_queue
                          sample_unpickle sample_pack 1%nat 0%nat
                          (Tuple "t" (SmallInt 1)) sample_env _ _ _ _ _))
            _ _ _ _ _).
  - vm_compute. reflexivity.
  - vm_compute. reflexivity.
  - reflexivity.
  - reflexivity.
  - reflexivity.
Defined.

(** ** Monitors *)

Section Monitor_facts.

Context (bootUnpickle : Buffer -> Value).
Context (picklePack : BoostVM -> option (Value -> res Buffer)).

Lemma monitors_grow_frame b b' :
  identifier b' = identifier b -> _monitors b' = _monitors b ->
  monitors_grow b b'.
Proof.
  intros Hi Hm. split; [exact Hi|]. exists []. now rewrite app_nil_r.
Qed.

Lemma monitors_grow_order : VMOrder bootUnpickle monitors_grow.
Proof.
  split.
  - intros b. now apply monitors_grow_frame.
  - intros a b c [I1 [m1 M1]] [I2 [m2 M2]]. split; [congruence|].
    exists (m1 ++ m2). now rewrite M2, M1, app_assoc.
  - intros f Hf. induction Hf; intros b;
      try (apply monitors_grow_frame; unfold_ops; destruct b; cbn;
           split_matches; reflexivity).
    + split; [reflexivity|]. exists [m]. reflexivity.
    + destruct (IHHf1 b) as [I1 [m1 M1]].
      destruct (IHHf2 (f b)) as [I2 [m2 M2]].
      split; [congruence|]. exists (m1 ++ m2). now rewrite M2, M1, app_assoc.
  - intros b evs _.
    destruct (closeStream_core (set_terminated true b)) as (Hi & Hm & _).
    apply monitors_grow_frame; unfold terminate_self; cbn;
      [rewrite Hi | rewrite Hm]; reflexivity.
Qed.

Lemma deliveries_told this d n :
  deliveries bootUnpickle this (repeat (EvTellTerminated this d) n)
  = Some (repeat (Tuple "terminated" (SmallInt d)) n).
Proof.
  induction n as [|n IH]; [reflexivity|].
  cbn [repeat deliveries delivery]. rewrite Nat.eqb_refl, IH. reflexivity.
Qed.

(** X10: a monitor added to a VM stays in its list whatever the process
    does afterwards, and the identifier of the VM stays the same.  When the
    VM then terminates, a running monitor whose port is open reads, at its
    next iteration and after the values already queued, one tuple
    [terminated(identifier)] for each time it was added. *)
Theorem monitor_is_told_of_termination acts env0 env this monitor b0 :
  forVM this env0 = Some b0 ->
  perform_all bootUnpickle picklePack acts (onVM this (addMonitor monitor) env0)
  = Running env ->
  exists b,
    forVM this env = Some b /\
    identifier b = identifier b0 /\
    (1 <= count_occ Nat.eq_dec (_monitors b) monitor)%nat /\
    (_terminated b = false -> monitor <> this ->
     forall m head vs earlier pair,
       forVM monitor env = Some m ->
       isRunning m = true ->
       portClosed m = false ->
       reads head vs m ->
       deliveries bootUnpickle monitor (_vmEventsCallbacks m) = Some earlier ->
       exists env' m',
         step_end bootUnpickle monitor pair (terminate this env)
         = Some (env', LoopAgain, _vmEventsCallbacks m ++ told monitor b) /\
         forVM monitor env' = Some m' /\
         reads head
           (vs ++ earlier ++
            repeat (Tuple "terminated" (SmallInt (identifier b0)))
              (count_occ Nat.eq_dec (_monitors b) monitor)) m').
Proof.
  intros Hb0 Hrun.
  assert (Hb1 : forVM this (onVM this (addMonitor monitor) env0)
                = Some (addMonitor monitor b0)).
  { rewrite forVM_onVM_eq, Hb0. reflexivity. }
  destruct (perform_all_forVM bootUnpickle picklePack monitors_grow
              monitors_grow_order acts _ _ _ _ Hrun Hb1)
    as (b & Hb & Hi & more & Hm).
  exists b. split; [exact Hb|]. split; [exact Hi|].
  assert (Hc : (1 <= count_occ Nat.eq_dec (_monitors b) monitor)%nat).
  { rewrite Hm. unfold addMonitor. cbn. rewrite !count_occ_app. cbn.
    destruct (Nat.eq_dec monitor monitor); [lia|congruence]. }
  split; [exact Hc|].
  intros Ht Hne m head vs earlier pair Hmon Hrunning Hopen Hr He.
  set (m1 := post_all (told monitor b) m).
  assert (Hm1 : forVM monitor (terminate this env) = Some m1).
  { rewrite (terminate_forVM this env b Hb Ht), Hmon.
    rewrite decide_False by congruence. reflexivity. }
  destruct (step_end_delivers bootUnpickle monitor pair (terminate this env) m1
              head vs
              (earlier ++ repeat (Tuple "terminated" (SmallInt (identifier b)))
                            (count_occ Nat.eq_dec (_monitors b) monitor)) Hm1)
    as (env' & m' & Hs & Hm' & _ & _ & _ & Hr' & _).
  - exact Hrunning.
  - exact Hopen.
  - apply (reads_frame head vs m m1); [reflexivity | reflexivity | exact Hr].
  - unfold m1, post_all, told. cbn.
    destruct (count_occ Nat.eq_dec (_monitors b) monitor); [lia|].
    cbn. now destruct (_vmEventsCallbacks m).
  - unfold m1, post_all. cbn. apply deliveries_app; [exact He|].
    apply deliveries_told.
  - exists env', m'. split; [exact Hs|]. split; [exact Hm'|].
    change (identifier (addMonitor monitor b0)) with (identifier b0) in Hi.
    rewrite <- Hi. exact Hr'.
Qed.

End Monitor_facts.

Lemma monitor_is_told_of_termination_witness :
  exists b,
    forVM 1%nat sample_env = Some b /\
    identifier b = 2 /\
    (1 <= count_occ Nat.eq_dec (_monitors b) 0)%nat.
Proof.
  destruct (monitor_is_told_of_termination sample_unpickle sample_pack
              [ActSendToVMPort 1 0 (SmallInt 7); ActKillVM 1 3]
              (snd (addVM (snd (addVM new_BoostEnvironment))))
              sample_env 1%nat 0%nat (new_BoostVM 2) eq_refl eq_refl)
    as (b & Hb & Hi & Hc & _).
  exists b. auto.
Defined.

(** ** Identifiers and handles *)

Section Registry_facts.

Context (bootUnpickle : Buffer -> Value).
Context (picklePack : BoostVM -> option (Value -> res Buffer)).

Lemma by_rank_length env : length (by_rank env) = length (vms env).
Proof. unfold by_rank. apply length_rev. Qed.

Lemma ranked_new : ranked new_BoostEnvironment.
Proof.
  split; [|reflexivity]. intros vm b H. unfold forVM in H. cbn in H.
  now rewrite lookup_nil in H.
Qed.

Lemma ranked_perform a env env' :
  perform bootUnpickle picklePack a env = Running env' ->
  ranked env -> ranked env'.
Proof.
  intros H [Hid Hn].
  destruct (perform_cases bootUnpickle picklePack same_identifier
              (same_identifier_order bootUnpickle) _ _ _ H)
    as [[_ ->]|[HF Hnext]].
  - split.
    + intros vm b. unfold forVM. rewrite by_rank_addVM. intros Hb.
      apply lookup_app_Some in Hb as [Hb|[Hlen Hb]].
      * now apply Hid.
      * apply list_lookup_singleton_Some in Hb as [Hz <-]. cbn.
        rewrite by_rank_length in *. lia.
    + cbn [addVM snd _nextVMIdentifier vms length]. lia.
  - split.
    + intros vm b' Hb'.
      destruct (Forall2_lookup_r _ _ _ _ _ HF Hb') as (b & Hb & Rb).
      unfold same_identifier in Rb. rewrite Rb. now apply Hid.
    + rewrite Hnext, Hn. f_equal. f_equal. rewrite <- !by_rank_length.
      eapply Forall2_length; eauto.
Qed.

Lemma ranked_reachable acts : forall env env',
  perform_all bootUnpickle picklePack acts env = Running env' ->
  ranked env -> ranked env'.
Proof.
  induction acts as [|a acts IH]; intros env env' H Hok; cbn in H.
  - now injection H as <-.
  - destruct (perform bootUnpickle picklePack a env) as [env1|] eqn:E;
      [|discriminate].
    eapply IH; [exact H|]. eapply ranked_perform; eauto.
Qed.

Lemma getVM_scan_ranked identifier' : forall l,
  (forall k b, rev l !! k = Some b -> identifier b = Z.of_nat k + 1) ->
  1 <= identifier' <= Z.of_nat (length l) ->
  getVM_scan identifier' l = Some (Z.to_nat (identifier' - 1)).
Proof.
  induction l as [|x l IH]; intros Hid Hr; cbn [getVM_scan length] in *; [cbn in Hr; lia|].
  assert (Hx : identifier x = Z.of_nat (length l) + 1).
  { apply Hid. cbn. rewrite lookup_app_r by (rewrite length_rev; lia).
    rewrite length_rev, Nat.sub_diag. reflexivity. }
  destruct (Z.eqb_spec (identifier x) identifier') as [E|E].
  - f_equal. lia.
  - apply IH; [|lia]. intros k b Hb. apply Hid. cbn.
    apply lookup_app_l_Some. exact Hb.
Qed.

Lemma getVM_ranked env vm b :
  ranked env -> forVM vm env = Some b -> getVM (identifier b) env = Ok vm.
Proof.
  intros [Hid Hn] Hb. unfold getVM.
  pose proof (Hid vm b Hb) as Hi.
  assert (Hlt : (vm < length (vms env))%nat).
  { rewrite <- by_rank_length. eapply lookup_lt_Some. exact Hb. }
  rewrite (getVM_scan_ranked (identifier b) (vms env)); [| exact Hid | lia].
  f_equal. lia.
Qed.

(** X11: in every state the process reaches, identifiers are the creation
    ranks counted from one: the VM behind a handle [vm] has the identifier
    [vm + 1] and [getVM] of that identifier gives the handle back, so every
    identifier from 1 up to the next one is found; and the identifier given
    to a new VM by [addVM] names that VM whatever the process does
    afterwards. *)
Theorem identifiers_name_handles acts env :
  perform_all bootUnpickle picklePack acts new_BoostEnvironment = Running env ->
  _nextVMIdentifier env = Z.of_nat (length (vms env)) + 1 /\
  (forall vm b,
      forVM vm env = Some b ->
      identifier b = Z.of_nat vm + 1 /\ getVM (identifier b) env = Ok vm) /\
  (forall identifier',
      1 <= identifier' < _nextVMIdentifier env ->
      exists b,
        getVM identifier' env = Ok (Z.to_nat (identifier' - 1)) /\
        forVM (Z.to_nat (identifier' - 1)) env = Some b /\
        identifier b = identifier') /\
  (forall acts2 env2,
      perform_all bootUnpickle picklePack acts2 (snd (addVM env)) = Running env2 ->
      getVM (_nextVMIdentifier env) env2 = Ok (fst (addVM env)) /\
      exists b2,
        forVM (fst (addVM env)) env2 = Some b2 /\
        identifier b2 = _nextVMIdentifier env).
Proof.
  intros Hrun.
  assert (Hok : ranked env) by (eapply ranked_reachable; [exact Hrun | apply ranked_new]).
  split; [apply Hok|]. split; [|split].
  - intros vm b Hb. split; [now apply Hok | now apply getVM_ranked].
  - intros identifier' Hr. destruct Hok as [Hid Hn].
    assert (Hlt : (Z.to_nat (identifier' - 1) < length (by_rank env))%nat)
      by (rewrite by_rank_length; lia).
    apply lookup_lt_is_Some_2 in Hlt as [b Hb]. exists b.
    assert (Hi : identifier b = identifier').
    { rewrite (Hid _ _ Hb). lia. }
    split; [|split; [exact Hb | exact Hi]].
    rewrite <- Hi at 1. apply getVM_ranked; [split; assumption | exact Hb].
  - intros acts2 env2 Hrun2.
    assert (Hok1 : ranked (snd (addVM env))).
    { apply (ranked_perform ActAddVM env); [reflexivity | exact Hok]. }
    assert (Hb1 : forVM (fst (addVM env)) (snd (addVM env))
                  = Some (new_BoostVM (_nextVMIdentifier env))).
    { unfold forVM. rewrite by_rank_addVM. cbn [addVM fst].
      rewrite lookup_app_r by (rewrite by_rank_length; lia).
      now rewrite by_rank_length, Nat.sub_diag. }
    destruct (perform_all_forVM bootUnpickle picklePack same_identifier
                (same_identifier_order bootUnpickle) acts2 _ _ _ _ Hrun2 Hb1)
      as (b2 & Hb2 & Hi).
    unfold same_identifier in Hi. cbn in Hi.
    split; [|exists b2; auto].
    rewrite <- Hi. apply getVM_ranked; [|exact Hb2].
    eapply ranked_reachable; eauto.
Qed.

End Registry_facts.

Lemma identifiers_name_handles_witness :
  getVM 2 sample_env = Ok 1%nat.
Proof.
  destruct (proj1 (proj2 (proj2 (identifiers_name_handles sample_unpickle sample_pack
                      sample_acts sample_env eq_refl))) 2)
    as (b & H & _); [vm_compute; split; congruence|].
  exact H.
Defined.

(** ** The count of alive VMs, and the end of a killed VM *)

Section Lifecycle_facts.

Context (bootUnpickle : Buffer -> Value).
Context (picklePack : BoostVM -> option (Value -> res Buffer)).

Lemma runEvent_alive callback env :
  _aliveVMs (runEvent bootUnpickle callback env) = _aliveVMs env.
Proof.
  destruct callback; cbn [runEvent];
    [apply terminate_counters | reflexivity | reflexivity].
Qed.

Lemma drain_alive fuel : forall this d env env' d' ran,
  drain bootUnpickle fuel this d env = Some (env', d', ran) ->
  _aliveVMs env' = _aliveVMs env.
Proof.
  induction fuel as [|fuel IH]; intros this d env env' d' ran H; cbn [drain] in H.
  - destruct (events this env); [|discriminate]. now injection H as <- <- <-.
  - destruct (events this env) as [|callback q].
    { now injection H as <- <- <-. }
    destruct (drain bootUnpickle fuel this recInvokeAgainNow _)
      as [[[e3 d3] r3]|] eqn:E; [|discriminate].
    cbn in H. injection H as <- <- <-.
    apply IH in E. rewrite E. cbn. apply runEvent_alive.
Qed.

Lemma locked_block_alive fuel this pair env env' how ran :
  locked_block bootUnpickle fuel this pair env = Some (env', how, ran) ->
  _aliveVMs env' = _aliveVMs env.
Proof.
  unfold locked_block. intros H.
  destruct (forVM this env) as [b|]; [|discriminate]. cbn in H.
  match type of H with
  | (if ?c then _ else _) = _ => destruct c
  end.
  { now injection H as <- <- <-. }
  destruct (drain bootUnpickle fuel this (fst pair) env)
    as [[[e1 d1] r1]|] eqn:E; [|discriminate].
  cbn in H. apply drain_alive in E.
  destruct (negb (Directive_eqb d1 recInvokeAgainNow)).
  - destruct (Directive_eqb d1 recInvokeAgainLater);
      injection H as <- <- <-; exact E.
  - injection H as <- <- <-. exact E.
Qed.

Lemma step_end_alive this pair env env' how ran :
  step_end bootUnpickle this pair env = Some (env', how, ran) ->
  _aliveVMs env' = _aliveVMs env.
Proof.
  unfold step_end. intros H.
  match type of H with
  | context [locked_block _ ?f _ _ ?e] =>
      destruct (locked_block bootUnpickle f this pair e)
        as [[[e1 h1] r1]|] eqn:E; [|discriminate]
  end.
  cbn in H. apply locked_block_alive in E.
  destruct h1; injection H as <- <- <-; exact E.
Qed.

Lemma sendToVMPort_alive vm to value env :
  _aliveVMs (snd (sendToVMPort picklePack vm to value env)) = _aliveVMs env.
Proof.
  unfold sendToVMPort.
  destruct (forVM to env) as [target|]; [|reflexivity].
  destruct (forVM vm env) as [sender|]; [|reflexivity].
  destruct (portClosed target); [reflexivity|].
  destruct (picklePack sender) as [pack|]; [|reflexivity].
  destruct (pack value); reflexivity.
Qed.

Lemma perform_alive a env env' :
  no_kill [a] = true ->
  perform bootUnpickle picklePack a env = Running env' ->
  _aliveVMs env' - Z.of_nat (length (vms env'))
  = _aliveVMs env - Z.of_nat (length (vms env)).
Proof.
  intros Hk H.
  destruct (perform_cases bootUnpickle picklePack same_identifier
              (same_identifier_order bootUnpickle) _ _ _ H)
    as [[_ ->]|[HF _]].
  { cbn [addVM snd _aliveVMs vms length]. lia. }
  apply Forall2_length in HF. rewrite !by_rank_length in HF. rewrite HF.
  f_equal.
  destruct a; cbn [perform] in H; try discriminate Hk;
    try (injection H as <-; reflexivity).
  - injection H as <-. cbn [addVM snd vms length] in HF. lia.
  - injection H as <-. apply sendToVMPort_alive.
  - destruct (step_end bootUnpickle this nextInvokePair env)
      as [[[e h] r]|] eqn:E; injection H as <-; [|reflexivity].
    eapply step_end_alive; eauto.
  - injection H as <-. apply terminate_counters.
Qed.

Lemma perform_all_alive acts : forall env env',
  no_kill acts = true ->
  perform_all bootUnpickle picklePack acts env = Running env' ->
  _aliveVMs env' - Z.of_nat (length (vms env'))
  = _aliveVMs env - Z.of_nat (length (vms env)).
Proof.
  induction acts as [|a acts IH]; intros env env' Hk H; cbn in H.
  - now injection H as <-.
  - destruct (perform bootUnpickle picklePack a env) as [env1|] eqn:E;
      [|discriminate].
    cbn [no_kill forallb] in Hk. apply andb_true_iff in Hk as [Ha Hk].
    rewrite (IH env1 env' Hk H).
    apply (perform_alive a); [|exact E].
    cbn [no_kill forallb]. now rewrite Ha.
Qed.

Lemma killVM_running vm exitCode env b :
  forVM vm env = Some b -> isRunning b = true ->
  killVM vm exitCode env
  = if _aliveVMs env - 1 =? 0 then Exited (int_of_nativeint exitCode)
    else Running (set_aliveVMs (_aliveVMs env - 1)
                    (onVM vm (postVMEvent (EvTerminate vm)) env)).
Proof.
  intros Hb Hrun. unfold killVM, requestTermination. rewrite Hb, Hrun.
  reflexivity.
Qed.

(** X12: the count of alive VMs moves only in [addVM] and [killVM]: as long
    as no VM is killed it is the number of VMs ever created, also after VMs
    have left their loops and terminated.  [killVM] counts calls, not VMs:
    killing a VM a second time before its thread has run the first kill
    closure takes one more from the count, and ends the process when that
    makes zero. *)
Theorem alive_count_moves_only_in_addVM_and_killVM :
  (forall acts env,
      no_kill acts = true ->
      perform_all bootUnpickle picklePack acts new_BoostEnvironment = Running env ->
      _aliveVMs env = Z.of_nat (length (vms env))) /\
  (forall vm c1 c2 env b,
      forVM vm env = Some b -> isRunning b = true ->
      (_aliveVMs env = 2 ->
       perform_all bootUnpickle picklePack [ActKillVM vm c1; ActKillVM vm c2] env
       = Exited (int_of_nativeint c2)) /\
      (_aliveVMs env <> 1 -> _aliveVMs env <> 2 ->
       exists env',
         perform_all bootUnpickle picklePack [ActKillVM vm c1; ActKillVM vm c2] env
         = Running env' /\
         _aliveVMs env' = _aliveVMs env - 2 /\
         events vm env'
         = _vmEventsCallbacks b ++ [EvTerminate vm; EvTerminate vm])).
Proof.
  split.
  - intros acts env Hk Hrun.
    pose proof (perform_all_alive acts _ _ Hk Hrun) as H. cbn in H. lia.
  - intros vm c1 c2 env b Hb Hrun.
    set (e1 := set_aliveVMs (_aliveVMs env - 1)
                 (onVM vm (postVMEvent (EvTerminate vm)) env)).
    assert (Hb1 : forVM vm e1 = Some (postVMEvent (EvTerminate vm) b)).
    { change (forVM vm e1)
        with (forVM vm (onVM vm (postVMEvent (EvTerminate vm)) env)).
      rewrite forVM_onVM_eq, Hb. reflexivity. }
    assert (Hrun1 : isRunning (postVMEvent (EvTerminate vm) b) = true)
      by exact Hrun.
    cbn [perform_all perform]. rewrite (killVM_running vm c1 env b Hb Hrun).
    fold e1. split.
    + intros H2. destruct (Z.eqb_spec (_aliveVMs env - 1) 0) as [E|E]; [lia|].
      rewrite (killVM_running vm c2 e1 _ Hb1 Hrun1).
      change (_aliveVMs e1) with (_aliveVMs env - 1).
      destruct (Z.eqb_spec (_aliveVMs env - 1 - 1) 0) as [E'|E']; [reflexivity|lia].
    + intros H1 H2. destruct (Z.eqb_spec (_aliveVMs env - 1) 0) as [E|E]; [lia|].
      rewrite (killVM_running vm c2 e1 _ Hb1 Hrun1).
      change (_aliveVMs e1) with (_aliveVMs env - 1).
      destruct (Z.eqb_spec (_aliveVMs env - 1 - 1) 0) as [E'|E']; [lia|].
      eexists. split; [reflexivity|]. split; [cbn; lia|].
      unfold events.
      match goal with
      | |- context [forVM vm (set_aliveVMs ?n ?e)] =>
          change (forVM vm (set_aliveVMs n e)) with (forVM vm e)
      end.
      rewrite forVM_onVM_eq, Hb1. cbn. now rewrite <- app_assoc.
Qed.

Lemma terminate_sets_the_flag t env :
  is_Some (forVM t env) ->
  exists bt, forVM t (terminate t env) = Some bt /\ _terminated bt = true.
Proof.
  intros [b Hb]. destruct (_terminated b) eqn:Ht.
  - exists b. split; [|exact Ht].
    rewrite terminate_idle; [exact Hb|]. intros x Hx. congruence.
  - exists (terminate_self (told t b) b). split.
    + rewrite (terminate_forVM t env b Hb Ht), Hb. cbn.
      now rewrite decide_True by reflexivity.
    + destruct (closeStream_core (set_terminated true b)) as (_ & _ & Hc & _).
      unfold terminate_self. cbn. exact Hc.
Qed.

Lemma stays_terminated env env' t bt :
  evolve terminates_once env env' ->
  forVM t env = Some bt -> _terminated bt = true ->
  exists bt', forVM t env' = Some bt' /\ _terminated bt' = true.
Proof.
  intros [HF _] Hb Ht.
  destruct (Forall2_lookup_l _ _ _ _ _ HF Hb) as (bt' & Hb' & _ & Hk).
  exists bt'. auto.
Qed.

(** A closure of [requestTermination] that the drain loop ran has terminated
    its VM by the end of the loop. *)
Lemma drain_runs_terminate fuel : forall this d env env' d' ran t,
  drain bootUnpickle fuel this d env = Some (env', d', ran) ->
  In (EvTerminate t) ran ->
  is_Some (forVM t env) ->
  exists bt, forVM t env' = Some bt /\ _terminated bt = true.
Proof.
  induction fuel as [|fuel IH]; intros this d env env' d' ran t H Hin Hv;
    cbn [drain] in H.
  - destruct (events this env); [|discriminate].
    injection H as <- <- <-. destruct Hin.
  - destruct (events this env) as [|callback q].
    { injection H as <- <- <-. destruct Hin. }
    destruct (drain bootUnpickle fuel this recInvokeAgainNow _)
      as [[[e3 d3] r3]|] eqn:E; [|discriminate].
    cbn in H. injection H as <- <- <-.
    destruct Hin as [->|Hin].
    + cbn [runEvent] in E.
      destruct (terminate_sets_the_flag t env Hv) as (bt & Hbt & Ht).
      apply (stays_terminated (terminate t env) e3 t bt); [|exact Hbt|exact Ht].
      eapply (evolve_trans bootUnpickle terminates_once
                (terminates_once_order bootUnpickle)).
      * apply (onVM_evolve bootUnpickle terminates_once
                 (terminates_once_order bootUnpickle) this pop). apply op_pop.
      * eapply (drain_evolve bootUnpickle terminates_once
                  (terminates_once_order bootUnpickle)). exact E.
    + eapply IH; [exact E | exact Hin |].
      apply onVM_valid. apply runEvent_valid. exact Hv.
Qed.

Lemma step_end_runs_terminate this pair env env' how ran t :
  step_end bootUnpickle this pair env = Some (env', how, ran) ->
  In (EvTerminate t) ran ->
  is_Some (forVM t env) ->
  exists bt, forVM t env' = Some bt /\ _terminated bt = true.
Proof.
  unfold step_end, locked_block. intros H Hin Hv.
  set (env0 := onVM this
                 (fun b => set_preemptionTimer (cancel (preemptionTimer b)) b) env)
    in *.
  assert (Hv0 : is_Some (forVM t env0)) by (apply onVM_valid; exact Hv).
  destruct (forVM this env0) as [b0|]; [|discriminate]. cbn [mbind option_bind] in H.
  destruct (nothing_left (fst pair) b0).
  { cbn in H. injection H as <- <- <-. destruct Hin. }
  destruct (drain bootUnpickle (drain_fuel this env0) this (fst pair) env0)
    as [[[e1 d1] r1]|] eqn:E; [|discriminate].
  cbn [mbind option_bind] in H.
  assert (Hran : ran = r1 /\ evolve terminates_once e1 env').
  { destruct (negb (Directive_eqb d1 recInvokeAgainNow));
      [destruct (Directive_eqb d1 recInvokeAgainLater)|];
      cbn in H; injection H as <- <- <-; (split; [reflexivity|]).
    - apply (onVM_evolve bootUnpickle terminates_once
               (terminates_once_order bootUnpickle)).
      apply (op_set_alarmTimer bootUnpickle
               (fun tm => async_wait (set_expires_at (snd pair) tm))).
    - apply (evolve_refl bootUnpickle terminates_once
               (terminates_once_order bootUnpickle)).
    - apply (onVM_evolve bootUnpickle terminates_once
               (terminates_once_order bootUnpickle)).
      apply (op_set_alarmTimer bootUnpickle cancel). }
  destruct Hran as [-> Hev].
  destruct (drain_runs_terminate _ _ _ _ _ _ _ t E Hin Hv0) as (bt & Hbt & Ht).
  eapply stays_terminated; eauto.
Qed.


End Lifecycle_facts.

Lemma alive_count_moves_only_in_addVM_and_killVM_witness :
  _aliveVMs (snd (addVM (snd (addVM new_BoostEnvironment)))) = 2.
Proof.
  exact (proj1 (alive_count_moves_only_in_addVM_and_killVM
                  sample_unpickle sample_pack)
           [ActAddVM; ActAddVM] _ eq_refl eq_refl).
Defined.


(** ** The list of VMs over the life of a VM *)

Section ListVMs_facts.

Context (bootUnpickle : Buffer -> Value).
Context (picklePack : BoostVM -> option (Value -> res Buffer)).

Lemma vm_op_keeps_life f :
  vm_op bootUnpickle f ->
  forall b, identifier (f b) = identifier b /\ _terminated (f b) = _terminated b.
Proof.
  induction 1; intros b;
    try (unfold_ops; destruct b; cbn; split_matches; auto; fail).
  destruct (IHvm_op1 b) as [I1 T1]. destruct (IHvm_op2 (f b)) as [I2 T2].
  split; congruence.
Qed.

Lemma listVMs_alter f vm l :
  (forall b, identifier (f b) = identifier b /\ _terminated (f b) = _terminated b) ->
  map identifier (List.filter isRunning (alter f vm l))
  = map identifier (List.filter isRunning l).
Proof.
  intros Hf. revert vm. induction l as [|x l IH]; intros [|vm]; cbn;
    try reflexivity.
  - destruct (Hf x) as [Hi Ht]. unfold isRunning. rewrite Ht.
    destruct (negb (_terminated x)); cbn; [rewrite Hi|]; reflexivity.
  - specialize (IH vm). destruct (isRunning x); cbn; now rewrite IH.
Qed.

Lemma listVMs_onVM vm f env :
  vm_op bootUnpickle f -> listVMs (onVM vm f env) = listVMs env.
Proof.
  intros Hf. rewrite !listVMs_by_rank, by_rank_onVM.
  apply listVMs_alter. now apply vm_op_keeps_life.
Qed.

Lemma In_listVMs env x :
  In x (listVMs env) <->
  exists vm c, forVM vm env = Some c /\ identifier c = x /\ _terminated c = false.
Proof.
  rewrite listVMs_by_rank, in_map_iff. split.
  - intros (c & Hi & Hin). apply List.filter_In in Hin as [Hin Hr].
    apply list_elem_of_In in Hin. apply list_elem_of_lookup in Hin as [vm Hvm].
    exists vm, c. unfold isRunning in Hr. apply negb_true_iff in Hr. auto.
  - intros (vm & c & Hc & Hi & Ht). exists c. split; [exact Hi|].
    apply List.filter_In. split.
    + apply list_elem_of_In. eapply list_elem_of_lookup_2. exact Hc.
    + unfold isRunning. now rewrite Ht.
Qed.

(** X14: what [listVMs] returns over the life of a VM.  [addVM] adds the
    new identifier at its end; nothing but [addVM] and the termination of a
    VM changes it: in particular a killed VM is still listed until its
    thread has run the kill closure.  In every state the process reaches,
    [terminate] removes the identifier of its VM and no other. *)
Theorem listVMs_follows_the_lifecycle :
  (forall env,
      listVMs (snd (addVM env)) = listVMs env ++ [_nextVMIdentifier env]) /\
  (forall a env env',
      match a with
      | ActAddVM | ActStepEnd _ _ | ActTerminate _ => False
      | _ => True
      end ->
      perform bootUnpickle picklePack a env = Running env' ->
      listVMs env' = listVMs env) /\
  (forall acts env this b,
      perform_all bootUnpickle picklePack acts new_BoostEnvironment = Running env ->
      forVM this env = Some b ->
      forall x,
        In x (listVMs (terminate this env)) <->
        In x (listVMs env) /\ x <> identifier b).
Proof.
  split; [|split].
  - intros env. rewrite !listVMs_by_rank, by_rank_addVM.
    rewrite List.filter_app, map_app. reflexivity.
  - intros a env env' Hk H.
    destruct a; cbn [perform] in H; try destruct Hk;
      try (injection H as <-; reflexivity);
      try (injection H as <-; apply listVMs_onVM; constructor; fail).
    + unfold killVM in H. destruct (forVM vm env) as [b|]; [|now injection H as <-].
      destruct (isRunning b); [|now injection H as <-].
      match type of H with
      | (if ?c then _ else _) = _ => destruct c; [discriminate|]
      end.
      injection H as <-.
      apply (listVMs_onVM vm (postVMEvent (EvTerminate vm))).
      apply (op_post bootUnpickle [EvTerminate vm]).
    + injection H as <-. unfold sendToVMPort.
      destruct (forVM to env) as [target|]; [|reflexivity].
      destruct (forVM vm env) as [sender|]; [|reflexivity].
      destruct (portClosed target); [reflexivity|].
      destruct (picklePack sender) as [pack|]; [|reflexivity].
      destruct (pack value) as [buffer|msg args]; [|reflexivity].
      apply (listVMs_onVM to (postVMEvent (EvReceiveBuffer to buffer))).
      apply (op_post bootUnpickle [EvReceiveBuffer to buffer]).
    + injection H as <-. apply listVMs_onVM. apply vm_op_step_begin.
    + injection H as <-. apply listVMs_onVM. apply vm_op_preempt.
  - intros acts env this b Hrun Hb x.
    assert (Hok : ranked env).
    { eapply (ranked_reachable bootUnpickle picklePack); [exact Hrun|].
      apply ranked_new. }
    destruct Hok as [Hid _].
    rewrite !In_listVMs.
    destruct (_terminated b) eqn:Ht.
    + rewrite terminate_idle by (intros y Hy; congruence).
      split; [|tauto].
      intros (vm & c & Hc & Hi & Hrunning). split; [eauto|].
      intros ->. pose proof (Hid _ _ Hc) as H1. pose proof (Hid _ _ Hb) as H2.
      assert (vm = this) by lia. subst vm. congruence.
    + pose proof (terminate_forVM this env b Hb Ht) as Hall. split.
      * intros (vm & c' & Hc' & Hi & Hrunning). rewrite Hall in Hc'.
        destruct (forVM vm env) as [c|] eqn:Hc; [|discriminate].
        cbn in Hc'. injection Hc' as <-.
        destruct (decide (this = vm)) as [->|Hne].
        { destruct (closeStream_core (set_terminated true c)) as (_ & _ & Hk & _).
          unfold terminate_self in Hrunning. cbn in Hrunning.
          rewrite Hk in Hrunning. discriminate Hrunning. }
        change (identifier c = x) in Hi. change (_terminated c = false) in Hrunning.
        split; [eauto|].
        intros ->. pose proof (Hid _ _ Hc) as H1. pose proof (Hid _ _ Hb) as H2.
        lia.
      * intros ((vm & c & Hc & Hi & Hrunning) & Hx).
        assert (Hne : this <> vm).
        { intros ->. apply Hx. congruence. }
        exists vm, (post_all (told vm b) c). split; [|split].
        -- rewrite Hall, Hc. cbn. now rewrite decide_False by exact Hne.
        -- exact Hi.
        -- exact Hrunning.
Qed.

End ListVMs_facts.

Lemma listVMs_follows_the_lifecycle_witness :
  In 1 (listVMs (terminate 1%nat sample_env)) <->
  In 1 (listVMs sample_env) /\ 1 <> 2.
Proof.
  exact (proj2 (proj2 (listVMs_follows_the_lifecycle sample_unpickle sample_pack))
           sample_acts sample_env 1%nat
           (addMonitor 0%nat (postVMEvent (EvTerminate 1) (new_BoostVM 2)))
           eq_refl eq_refl 1).
Defined.
